(** * Conference-room booking API: admission engine and availability calculator

    A shallow embedding of
      - [BookingService] (domain/services/BookingService.ts),
      - [PostgresBookingRepository] and [PostgresRoomRepository]
        (infrastructure/database),
      - [RedisCache] (infrastructure/cache/RedisCache.ts),
      - [RabbitMQEventBus.emit] (infrastructure/events/EventBus.ts),
      - [mapDomainError] (api/middlewares/errorMiddleware.ts),
      - [RoomService.getRoomAvailability] (domain/services/RoomService.ts),
      - [InMemoryCache] (infrastructure/cache/InMemoryCache.ts),
      - [RateLimiter] and [rateLimit] (api/middlewares/rateLimitMiddleware.ts),
    followed by the properties of the booking engine, of the availability
    of a room, of the in-memory cache and of the rate limiter.

    Conventions.  A JavaScript [Date] is its number of milliseconds since the
    epoch, an integer of [Z].  A field typed [T | undefined] (or a nullable
    column) is an [option].  The relational tables are lists of rows in
    storage order; a query without ORDER BY returns the matching rows in that
    order.  Every [async] method is a computation of the monad [M] below: it
    threads the state of the collaborators (tables, Redis keyspace, message
    exchange) and may throw.  Each call that crosses the boundary of the
    service (repository, cache, event bus) is recorded in [calls], the way
    the unit tests observe the mocked collaborators.  The clock ([new Date()],
    the column default NOW()) is read once per operation, from [Env]. *)

From stdpp Require Import gmap strings list fin_maps sorting.

Local Open Scope Z_scope.

(** ** Entities (domain/entities/Booking.ts, domain/entities/Room.ts) *)

Inductive BookingStatus := PENDING | CONFIRMED | CANCELLED.

#[global] Instance BookingStatus_eq_dec : EqDecision BookingStatus.
Proof. solve_decision. Defined.

Module Booking.
Record t := mk {
  id : string;
  roomId : string;
  userId : string;
  title : string;
  description : option string;
  startTime : Z;
  endTime : Z;
  status : BookingStatus;
  createdAt : Z;
  updatedAt : Z;
  cancelledAt : option Z;
  idempotencyKey : option string
}.
End Booking.

Module CreateBookingData.
Record t := mk {
  roomId : string;
  userId : string;
  title : string;
  description : option string;
  startTime : Z;
  endTime : Z;
  idempotencyKey : option string
}.
End CreateBookingData.

Module BookingFilter.
Record t := mk {
  roomId : option string;
  userId : option string;
  status : option BookingStatus;
  startTimeFrom : option Z;
  startTimeTo : option Z
}.
End BookingFilter.

Module Room.
Record t := mk {
  id : string;
  name : string;
  capacity : Z;
  location : string;
  amenities : list string;
  isActive : bool;
  createdAt : Z;
  updatedAt : Z
}.
End Room.

Module TimeSlot.
Record t := mk { startTime : Z; endTime : Z }.
End TimeSlot.

Module RoomAvailability.
Record t := mk {
  roomId : string;
  date : Z;
  availableSlots : list TimeSlot.t;
  bookedSlots : list TimeSlot.t
}.
End RoomAvailability.

(** The part of [Partial<Booking>] that [PostgresBookingRepository.update]
    reads. *)
Module BookingPatch.
Record t := mk {
  title : option string;
  description : option string;
  status : option BookingStatus;
  cancelledAt : option Z
}.
End BookingPatch.

(** ** Configuration (config/index.ts), in seconds *)

Module Config.
Record t := mk { cache_ttl : Z; cache_idempotencyTtl : Z }.
(** The values used when the environment sets none. *)
Definition default : t := {| cache_ttl := 300; cache_idempotencyTtl := 86400 |}.
End Config.

(** What an operation reads from outside the modelled state: the clock, the
    identifier [uuidv4()] would return, and the configuration. *)
Module Env.
Record t := mk { now : Z; uuid : string; config : Config.t }.
End Env.

(** ** Errors (BookingService.ts) and their HTTP mapping *)

Inductive Error :=
| BookingNotFoundError (id : string)
| RoomNotFoundError (id : string)
| RoomUnavailableError (roomId : string) (startTime endTime : Z)
| BookingAlreadyCancelledError (id : string)
| InvalidBookingTimeError (message : string)
| DatabaseError (constraint : string).
(** [DatabaseError c] is the error [pool.query] rejects with when the INSERT
    violates the constraint named [c]. *)

(** errorMiddleware.ts, [mapDomainError]. *)
Definition mapDomainError (e : Error) : Z * string :=
  match e with
  | BookingNotFoundError _ => (404, "BOOKING_NOT_FOUND"%string)
  | RoomNotFoundError _ => (404, "ROOM_NOT_FOUND"%string)
  | RoomUnavailableError _ _ _ => (409, "ROOM_UNAVAILABLE"%string)
  | BookingAlreadyCancelledError _ => (409, "BOOKING_ALREADY_CANCELLED"%string)
  | InvalidBookingTimeError _ => (400, "INVALID_BOOKING_TIME"%string)
  | DatabaseError _ => (500, "INTERNAL_SERVER_ERROR"%string)
  end.

(** ** Events (EventBus.ts) *)

Inductive Event :=
| BOOKING_CREATED (booking : Booking.t) (timestamp : Z)
| BOOKING_CANCELLED (booking : Booking.t) (reason : option string) (timestamp : Z)
| ROOM_UNAVAILABLE (roomId : string) (startTime endTime : Z)
    (conflictingBookingId : string) (timestamp : Z).

(** ** Cache values

    The service stores two kinds of JSON documents in Redis: a booking
    (under [booking:<id>]) and a booking id (under [idempotency:<key>]);
    the room service stores availability snapshots. *)

Inductive CacheValue :=
| JBooking (b : Booking.t)
| JString (s : string)
| JAvailability (a : RoomAvailability.t).

Module CacheEntry.
(** A key written by SETEX: the document and the instant it expires. *)
Record t := mk { value : CacheValue; expiresAt : Z }.
End CacheEntry.

(** ** Calls across the service boundary *)

Inductive Call :=
| CacheGet (key : string)
| CacheSet (key : string) (value : CacheValue) (ttlSeconds : Z)
| CacheDelete (key : string)
| RoomFindById (id : string)
| BookingFindById (id : string)
| BookingFindByIdempotencyKey (key : string)
| BookingFindAll (filter : option BookingFilter.t)
| BookingFindConflicting (roomId : string) (startTime endTime : Z)
| BookingCreate (data : CreateBookingData.t)
| BookingUpdate (id : string) (patch : BookingPatch.t)
| EventEmit (event : Event).

(** ** State of the collaborators *)

Module World.
Record t := mk {
  bookings : list Booking.t;                 (* table bookings *)
  rooms : list Room.t;                       (* table rooms *)
  redis : option (gmap string CacheEntry.t); (* RedisCache.client; None: no client *)
  busConnected : bool;                       (* channel && isConnected *)
  exchange : list Event;                     (* messages published to booking_events *)
  calls : list Call
}.

Definition set_bookings (bs : list Booking.t) (w : t) : t :=
  mk bs (rooms w) (redis w) (busConnected w) (exchange w) (calls w).
Definition set_redis (r : option (gmap string CacheEntry.t)) (w : t) : t :=
  mk (bookings w) (rooms w) r (busConnected w) (exchange w) (calls w).
Definition set_exchange (ex : list Event) (w : t) : t :=
  mk (bookings w) (rooms w) (redis w) (busConnected w) ex (calls w).
Definition log (c : Call) (w : t) : t :=
  mk (bookings w) (rooms w) (redis w) (busConnected w) (exchange w) (calls w ++ [c]).
End World.

(** ** The monad of the asynchronous methods: state and exceptions *)

Definition M (A : Type) : Type := World.t → World.t * (Error + A).

Definition ret {A} (a : A) : M A := λ w, (w, inr a).
Definition throw {A} (e : Error) : M A := λ w, (w, inl e).
Definition bind {A B} (m : M A) (k : A → M B) : M B :=
  λ w, match m w with
       | (w', inr a) => k a w'
       | (w', inl e) => (w', inl e)
       end.
Definition lift {A} (r : Error + A) : M A := λ w, (w, r).
Definition gets {A} (f : World.t → A) : M A := λ w, (w, inr (f w)).
Definition modify (f : World.t → World.t) : M unit := λ w, (f w, inr tt).
Definition call (c : Call) : M unit := modify (World.log c).

Notation "'await' x <- m ; k" := (bind m (λ x, k))
  (at level 10, x name, m at level 100, k at level 200,
   format "'[v' 'await'  x  <-  m ; '/' k ']'").
Notation "'await_' m ; k" := (bind m (λ _, k))
  (at level 10, m at level 100, k at level 200,
   format "'[v' 'await_'  m ; '/' k ']'").

(** JavaScript truthiness of an optional string: [undefined], [null] and the
    empty string are falsy. *)
Definition truthy (o : option string) : option string :=
  match o with
  | Some s => if decide (s = ""%string) then None else Some s
  | None => None
  end.

(** ** PostgresBookingRepository

    Schema (database/connection.ts): [id] is the primary key, [room_id]
    references [rooms(id)], [idempotency_key] is UNIQUE (NULLs excepted),
    [created_at] and [updated_at] default to NOW().

    The table is a list of rows and an id is the text that was stored: the
    other spellings that the uuid type reads as the same id, and the length
    limit of the VARCHAR(255) columns, are not part of the queries below;
    where a statement needs them it carries them as hypotheses
    ([storable], [patch_storable]). *)

Definition bookingRepository_findById (id : string) : M (option Booking.t) :=
  await_ call (BookingFindById id);
  gets (λ w, head (filter (λ b, Booking.id b = id) (World.bookings w))).

Definition bookingRepository_findByIdempotencyKey (key : string)
  : M (option Booking.t) :=
  await_ call (BookingFindByIdempotencyKey key);
  gets (λ w, head (filter (λ b, Booking.idempotencyKey b = Some key)
                          (World.bookings w))).

(** The row the INSERT of [create] writes; [x || null] turns an empty string
    into NULL.  One clock reading stands for the service's [new Date()] and
    for the NOW() that stamps [created_at] and [updated_at]. *)
Definition new_row (env : Env.t) (data : CreateBookingData.t) : Booking.t :=
  {| Booking.id := Env.uuid env;
     Booking.roomId := CreateBookingData.roomId data;
     Booking.userId := CreateBookingData.userId data;
     Booking.title := CreateBookingData.title data;
     Booking.description := truthy (CreateBookingData.description data);
     Booking.startTime := CreateBookingData.startTime data;
     Booking.endTime := CreateBookingData.endTime data;
     Booking.status := CONFIRMED;
     Booking.createdAt := Env.now env;
     Booking.updatedAt := Env.now env;
     Booking.cancelledAt := None;
     Booking.idempotencyKey := truthy (CreateBookingData.idempotencyKey data) |}.

(** The constraint an INSERT of [row] violates, if any. *)
Definition insert_violation (row : Booking.t) (w : World.t) : option string :=
  if decide (Booking.id row ∈ Booking.id <$> World.bookings w)
  then Some "bookings_pkey"%string
  else if decide (is_Some (Booking.idempotencyKey row) ∧
                  Booking.idempotencyKey row ∈
                    Booking.idempotencyKey <$> World.bookings w)
  then Some "bookings_idempotency_key_key"%string
  else if decide (Booking.roomId row ∈ Room.id <$> World.rooms w)
  then None
  else Some "bookings_room_id_fkey"%string.

Definition bookingRepository_create (env : Env.t) (data : CreateBookingData.t)
  : M Booking.t :=
  await_ call (BookingCreate data);
  let row := new_row env data in
  await violated <- gets (insert_violation row);
  match violated with
  | Some c => throw (DatabaseError c)
  | None =>
      await_ modify (λ w, World.set_bookings (World.bookings w ++ [row]) w);
      ret row
  end.

Definition matches_filter (f : option BookingFilter.t) (b : Booking.t) : Prop :=
  match f with
  | None => True
  | Some f =>
      (match truthy (BookingFilter.roomId f) with
       | Some r => Booking.roomId b = r | None => True end) ∧
      (match truthy (BookingFilter.userId f) with
       | Some u => Booking.userId b = u | None => True end) ∧
      (match BookingFilter.status f with
       | Some s => Booking.status b = s | None => True end) ∧
      (match BookingFilter.startTimeFrom f with
       | Some t => t ≤ Booking.startTime b | None => True end) ∧
      (match BookingFilter.startTimeTo f with
       | Some t => Booking.startTime b ≤ t | None => True end)
  end.

#[global] Instance matches_filter_dec f b : Decision (matches_filter f b).
Proof.
  unfold matches_filter. destruct f as [f|]; [|apply _].
  destruct (truthy (BookingFilter.roomId f)), (truthy (BookingFilter.userId f)),
    (BookingFilter.status f), (BookingFilter.startTimeFrom f),
    (BookingFilter.startTimeTo f); apply _.
Defined.

Definition by_start_time (a b : Booking.t) : Prop :=
  Booking.startTime a ≤ Booking.startTime b.

#[global] Instance by_start_time_dec a b : Decision (by_start_time a b).
Proof. unfold by_start_time. apply _. Defined.

Definition bookingRepository_findAll (f : option BookingFilter.t)
  : M (list Booking.t) :=
  await_ call (BookingFindAll f);
  gets (λ w, merge_sort by_start_time (filter (matches_filter f) (World.bookings w))).

(** The SET clause of [update]. *)
Definition apply_patch (now : Z) (p : BookingPatch.t) (b : Booking.t) : Booking.t :=
  {| Booking.id := Booking.id b;
     Booking.roomId := Booking.roomId b;
     Booking.userId := Booking.userId b;
     Booking.title := default (Booking.title b) (BookingPatch.title p);
     Booking.description :=
       match BookingPatch.description p with
       | Some d => Some d
       | None => Booking.description b
       end;
     Booking.startTime := Booking.startTime b;
     Booking.endTime := Booking.endTime b;
     Booking.status := default (Booking.status b) (BookingPatch.status p);
     Booking.createdAt := Booking.createdAt b;
     Booking.updatedAt := now;
     Booking.cancelledAt :=
       match BookingPatch.cancelledAt p with
       | Some c => Some c
       | None => Booking.cancelledAt b
       end;
     Booking.idempotencyKey := Booking.idempotencyKey b |}.

Definition patch_is_empty (p : BookingPatch.t) : bool :=
  match BookingPatch.title p, BookingPatch.description p,
        BookingPatch.status p, BookingPatch.cancelledAt p with
  | None, None, None, None => true
  | _, _, _, _ => false
  end.

(** The UPDATE of [update], the row rewritten where it stands. *)
Definition update_rows (now : Z) (id : string) (p : BookingPatch.t)
  (rows : list Booking.t) : list Booking.t :=
  (λ b, if decide (Booking.id b = id) then apply_patch now p b else b) <$> rows.

Definition bookingRepository_update (env : Env.t) (id : string)
  (p : BookingPatch.t) : M (option Booking.t) :=
  await_ call (BookingUpdate id p);
  if patch_is_empty p
  then gets (λ w, head (filter (λ b, Booking.id b = id) (World.bookings w)))
  else
    await_ modify (λ w, World.set_bookings
                          (update_rows (Env.now env) id p (World.bookings w)) w);
    gets (λ w, head (filter (λ b, Booking.id b = id) (World.bookings w))).

(** The WHERE clause of [findConflictingBookings]. *)
Definition conflicts_with (roomId : string) (startTime endTime : Z)
  (excludeBookingId : option string) (b : Booking.t) : Prop :=
  Booking.roomId b = roomId ∧
  Booking.status b ≠ CANCELLED ∧
  (Booking.startTime b < endTime ∧ Booking.endTime b > startTime) ∧
  match truthy excludeBookingId with
  | Some x => Booking.id b ≠ x
  | None => True
  end.

#[global] Instance conflicts_with_dec r s e x b : Decision (conflicts_with r s e x b).
Proof. unfold conflicts_with. destruct (truthy x); apply _. Defined.

Definition bookingRepository_findConflictingBookings (roomId : string)
  (startTime endTime : Z) (excludeBookingId : option string)
  : M (list Booking.t) :=
  await_ call (BookingFindConflicting roomId startTime endTime);
  gets (λ w, filter (conflicts_with roomId startTime endTime excludeBookingId)
                    (World.bookings w)).

(** ** PostgresRoomRepository.findById *)

Definition roomRepository_findById (id : string) : M (option Room.t) :=
  await_ call (RoomFindById id);
  gets (λ w, head (filter (λ r, Room.id r = id) (World.rooms w))).

(** ** RedisCache

    Without a client every operation degrades to a miss.  A key written
    with a TTL of [ttl] seconds at instant [now] is readable strictly before
    [now + 1000 * ttl]; SETEX rejects a TTL that is not positive, and [set]
    swallows that error. *)

Definition redis_read (now : Z) (key : string)
  (r : option (gmap string CacheEntry.t)) : option CacheValue :=
  match r with
  | None => None
  | Some db =>
      match db !! key with
      | Some e => if decide (now < CacheEntry.expiresAt e)
                  then Some (CacheEntry.value e) else None
      | None => None
      end
  end.

Definition redis_setex (now : Z) (key : string) (ttl : Z) (v : CacheValue)
  (r : option (gmap string CacheEntry.t)) : option (gmap string CacheEntry.t) :=
  match r with
  | None => None
  | Some db =>
      if decide (0 < ttl)
      then Some (<[key := {| CacheEntry.value := v;
                            CacheEntry.expiresAt := now + ttl * 1000 |}]> db)
      else Some db
  end.

Definition redis_del (key : string) (r : option (gmap string CacheEntry.t))
  : option (gmap string CacheEntry.t) := delete key <$> r.

Definition cache_get (env : Env.t) (key : string) : M (option CacheValue) :=
  await_ call (CacheGet key);
  gets (λ w, redis_read (Env.now env) key (World.redis w)).

Definition cache_set (env : Env.t) (key : string) (v : CacheValue) (ttlSeconds : Z)
  : M unit :=
  await_ call (CacheSet key v ttlSeconds);
  modify (λ w, World.set_redis
                 (redis_setex (Env.now env) key ttlSeconds v (World.redis w)) w).

(** [delete] when its DEL succeeds; a DEL that fails is caught by [delete],
    which leaves the key and returns false. *)
Definition cache_delete (env : Env.t) (key : string) : M bool :=
  await_ call (CacheDelete key);
  await present <- gets (λ w, bool_decide
                     (is_Some (redis_read (Env.now env) key (World.redis w))));
  await_ modify (λ w, World.set_redis (redis_del key (World.redis w)) w);
  ret present.

(** [cache.get<Booking>] and [cache.get<string>]: the document read back at
    the type the caller expects. *)
Definition as_booking (v : option CacheValue) : option Booking.t :=
  match v with Some (JBooking b) => Some b | _ => None end.
Definition as_string (v : option CacheValue) : option string :=
  match v with Some (JString s) => Some s | _ => None end.

(** ** RabbitMQEventBus.emit *)

Definition eventBus_emit (ev : Event) : M bool :=
  await_ call (EventEmit ev);
  await connected <- gets World.busConnected;
  if (connected : bool)
  then await_ modify (λ w, World.set_exchange (World.exchange w ++ [ev]) w);
       ret true
  else ret false.

(** ** BookingService *)

(** [checkIdempotency]: the cache entry [idempotency:<key>] first, the
    unique column otherwise. *)
Definition checkIdempotency (env : Env.t) (key : string) : M (option Booking.t) :=
  await cachedBookingId <- cache_get env ("idempotency:" +:+ key);
  match truthy (as_string cachedBookingId) with
  | Some cachedBookingId => bookingRepository_findById cachedBookingId
  | None => bookingRepository_findByIdempotencyKey key
  end.

(** [validateBookingTimes] is synchronous and touches no collaborator: it
    either throws or returns. *)
Definition validateBookingTimes (env : Env.t) (startTime endTime : Z)
  : Error + unit :=
  let now := Env.now env in
  if decide (startTime < now)
  then inl (InvalidBookingTimeError "Start time cannot be in the past")
  else if decide (endTime ≤ startTime)
  then inl (InvalidBookingTimeError "End time must be after start time")
  else
    let durationMs := endTime - startTime in
    let maxDurationMs := 8 * 60 * 60 * 1000 in
    if decide (durationMs > maxDurationMs)
    then inl (InvalidBookingTimeError "Booking duration cannot exceed 8 hours")
    else
      let minDurationMs := 15 * 60 * 1000 in
      if decide (durationMs < minDurationMs)
      then inl (InvalidBookingTimeError
                  "Booking duration must be at least 15 minutes")
      else inr tt.

(** [createBooking] is written in two halves, cut where the method stops
    reading and starts writing (before [bookingRepository.create]), so that
    the second half can also be run in a state that another request changed
    after the first half looked at it. *)

Inductive Admission :=
| Replay (existingBooking : Booking.t)   (* the early [return existingBooking] *)
| Proceed.                               (* falls through to the creation *)

Definition createBooking_admission (env : Env.t) (data : CreateBookingData.t)
  : M Admission :=
  await existingBooking <-
    match truthy (CreateBookingData.idempotencyKey data) with
    | Some key => checkIdempotency env key
    | None => ret None
    end;
  match existingBooking with
  | Some existingBooking => ret (Replay existingBooking)
  | None =>
      await room <- roomRepository_findById (CreateBookingData.roomId data);
      match room with
      | None => throw (RoomNotFoundError (CreateBookingData.roomId data))
      | Some _ =>
          await_ lift (validateBookingTimes env
                         (CreateBookingData.startTime data)
                         (CreateBookingData.endTime data));
          await conflicts <- bookingRepository_findConflictingBookings
                               (CreateBookingData.roomId data)
                               (CreateBookingData.startTime data)
                               (CreateBookingData.endTime data) None;
          match conflicts with
          | conflict :: _ =>
              await_ eventBus_emit
                (ROOM_UNAVAILABLE (CreateBookingData.roomId data)
                                  (CreateBookingData.startTime data)
                                  (CreateBookingData.endTime data)
                                  (Booking.id conflict) (Env.now env));
              throw (RoomUnavailableError (CreateBookingData.roomId data)
                                          (CreateBookingData.startTime data)
                                          (CreateBookingData.endTime data))
          | [] => ret Proceed
          end
      end
  end.

Definition createBooking_commit (env : Env.t) (data : CreateBookingData.t)
  : M Booking.t :=
  await booking <- bookingRepository_create env data;
  await_ match truthy (CreateBookingData.idempotencyKey data) with
         | Some key =>
             cache_set env ("idempotency:" +:+ key) (JString (Booking.id booking))
                       (Config.cache_idempotencyTtl (Env.config env))
         | None => ret tt
         end;
  await_ cache_set env ("booking:" +:+ Booking.id booking) (JBooking booking)
                   (Config.cache_ttl (Env.config env));
  await_ eventBus_emit (BOOKING_CREATED booking (Env.now env));
  ret booking.

Definition createBooking (env : Env.t) (data : CreateBookingData.t) : M Booking.t :=
  await admission <- createBooking_admission env data;
  match admission with
  | Replay existingBooking => ret existingBooking
  | Proceed => createBooking_commit env data
  end.

Definition getBooking (env : Env.t) (id : string) : M Booking.t :=
  await cachedBooking <- cache_get env ("booking:" +:+ id);
  match as_booking cachedBooking with
  | Some cachedBooking => ret cachedBooking
  | None =>
      await booking <- bookingRepository_findById id;
      match booking with
      | None => throw (BookingNotFoundError id)
      | Some booking =>
          await_ cache_set env ("booking:" +:+ id) (JBooking booking)
                           (Config.cache_ttl (Env.config env));
          ret booking
      end
  end.

Definition getBookings (filter : option BookingFilter.t) : M (list Booking.t) :=
  bookingRepository_findAll filter.

(** The patch [cancelBooking] hands to [update]. *)
Definition cancellation (env : Env.t) : BookingPatch.t :=
  {| BookingPatch.title := None;
     BookingPatch.description := None;
     BookingPatch.status := Some CANCELLED;
     BookingPatch.cancelledAt := Some (Env.now env) |}.

Definition cancelBooking (env : Env.t) (id : string) (reason : option string)
  : M Booking.t :=
  await booking <- bookingRepository_findById id;
  match booking with
  | None => throw (BookingNotFoundError id)
  | Some booking =>
      if decide (Booking.status booking = CANCELLED)
      then throw (BookingAlreadyCancelledError id)
      else
        await updatedBooking <- bookingRepository_update env id (cancellation env);
        match updatedBooking with
        | None => throw (BookingNotFoundError id)
        | Some updatedBooking =>
            await_ cache_delete env ("booking:" +:+ id);
            await_ eventBus_emit
              (BOOKING_CANCELLED updatedBooking reason (Env.now env));
            ret updatedBooking
        end
  end.

(** ** PostgresRoomRepository: availability *)

Definition msPerDay : Z := 86400000.

(** [Date.prototype.setHours(h, m, s, ms)] in a zone that is [tz]
    milliseconds east of UTC. *)
Definition setHours (tz : Z) (date : Z) (h m s ms : Z) : Z :=
  let wall := date + tz in
  wall - wall `mod` msPerDay + (h * 3600000 + m * 60000 + s * 1000 + ms) - tz.

Definition slot (startTime endTime : Z) : TimeSlot.t :=
  {| TimeSlot.startTime := startTime; TimeSlot.endTime := endTime |}.

(** The body of the [for ... of bookedSlots] loop, on the pair of the
    mutable variables [availableSlots] and [currentStart]. *)
Definition visit_booked (st : list TimeSlot.t * Z) (booked : TimeSlot.t)
  : list TimeSlot.t * Z :=
  let '(availableSlots, currentStart) := st in
  (if decide (currentStart < TimeSlot.startTime booked)
   then availableSlots ++ [slot currentStart (TimeSlot.startTime booked)]
   else availableSlots,
   Z.max currentStart (TimeSlot.endTime booked)).

Definition calculateAvailableSlots (dayStart dayEnd : Z)
  (bookedSlots : list TimeSlot.t) : list TimeSlot.t :=
  match bookedSlots with
  | [] => [slot dayStart dayEnd]
  | _ =>
      let '(availableSlots, currentStart) :=
        fold_left visit_booked bookedSlots ([], dayStart) in
      if decide (currentStart < dayEnd)
      then availableSlots ++ [slot currentStart dayEnd]
      else availableSlots
  end.

(** The WHERE clause of the query of [getAvailability]. *)
Definition booked_on (roomId : string) (startOfDay endOfDay : Z) (b : Booking.t)
  : Prop :=
  Booking.roomId b = roomId ∧ Booking.status b ≠ CANCELLED ∧
  startOfDay ≤ Booking.startTime b ∧ Booking.startTime b < endOfDay.

#[global] Instance booked_on_dec r s e b : Decision (booked_on r s e b).
Proof. unfold booked_on. apply _. Defined.

Definition businessStart (tz date : Z) : Z := setHours tz date 8 0 0 0.
Definition businessEnd (tz date : Z) : Z := setHours tz date 18 0 0 0.

Definition getAvailability (tz : Z) (roomId : string) (date : Z) (w : World.t)
  : option RoomAvailability.t :=
  match head (filter (λ r, Room.id r = roomId) (World.rooms w)) with
  | None => None
  | Some _ =>
      let startOfDay := setHours tz date 0 0 0 0 in
      let endOfDay := setHours tz date 23 59 59 999 in
      let rows := merge_sort by_start_time
                    (filter (booked_on roomId startOfDay endOfDay)
                            (World.bookings w)) in
      let bookedSlots :=
        (λ row, slot (Booking.startTime row) (Booking.endTime row)) <$> rows in
      let availableSlots :=
        calculateAvailableSlots (businessStart tz date) (businessEnd tz date)
                                bookedSlots in
      Some {| RoomAvailability.roomId := roomId;
              RoomAvailability.date := date;
              RoomAvailability.availableSlots := availableSlots;
              RoomAvailability.bookedSlots := bookedSlots |}
  end.

(** ** PostgresBookingRepository.delete

    No method of the service calls it; it is not among the recorded calls. *)

Definition bookingRepository_delete (id : string) : M bool :=
  await rowCount <- gets (λ w, length (filter (λ b, Booking.id b = id)
                                              (World.bookings w)));
  await_ modify (λ w, World.set_bookings
                        (filter (λ b, Booking.id b ≠ id) (World.bookings w)) w);
  ret (bool_decide (0 < rowCount)%nat).

(** ** RoomService.getRoomAvailability *)

(** [date.toISOString().split('T')[0]]: the UTC calendar day of an instant,
    as [YYYY-MM-DD], with the signed six-digit year of ECMAScript outside
    the years 0 to 9999. *)
Definition digit (n : Z) : string :=
  String (Ascii.ascii_of_nat (48 + Z.to_nat n)) EmptyString.

Fixpoint padStart (width : nat) (n : Z) : string :=
  match width with
  | O => EmptyString
  | S width' => padStart width' (n / 10) +:+ digit (n `mod` 10)
  end.

(** Year, month and day of the proleptic Gregorian calendar, from the
    number of days since 1970-01-01. *)
Definition civil (days : Z) : Z * Z * Z :=
  let z := days + 719468 in
  let era := z / 146097 in
  let doe := z - era * 146097 in
  let yoe := (doe - doe / 1460 + doe / 36524 - doe / 146096) / 365 in
  let doy := doe - (365 * yoe + yoe / 4 - yoe / 100) in
  let mp := (5 * doy + 2) / 153 in
  let d := doy - (153 * mp + 2) / 5 + 1 in
  let m := if decide (mp < 10) then mp + 3 else mp - 9 in
  let y := yoe + era * 400 + (if decide (m ≤ 2) then 1 else 0) in
  (y, m, d).

Definition dateKey (date : Z) : string :=
  let '(y, m, d) := civil (date / msPerDay) in
  (if decide (0 ≤ y ≤ 9999) then padStart 4 y
   else (if decide (y < 0) then "-" else "+") +:+ padStart 6 (Z.abs y))
  +:+ "-" +:+ padStart 2 m +:+ "-" +:+ padStart 2 d.

Definition availability_key (roomId : string) (date : Z) : string :=
  "availability:" +:+ roomId +:+ ":" +:+ dateKey date.

Definition as_availability (v : option CacheValue) : option RoomAvailability.t :=
  match v with Some (JAvailability a) => Some a | _ => None end.

Definition roomRepository_getAvailability (tz : Z) (roomId : string) (date : Z)
  : M (option RoomAvailability.t) :=
  gets (getAvailability tz roomId date).

Definition getRoomAvailability (tz : Z) (env : Env.t) (roomId : string) (date : Z)
  : M RoomAvailability.t :=
  let cacheKey := availability_key roomId date in
  await cached <- cache_get env cacheKey;
  match as_availability cached with
  | Some cached => ret cached
  | None =>
      await availability <- roomRepository_getAvailability tz roomId date;
      match availability with
      | None => throw (RoomNotFoundError roomId)
      | Some availability =>
          await_ cache_set env cacheKey (JAvailability availability)
                           (Config.cache_ttl (Env.config env));
          ret availability
      end
  end.

(** [Math.ceil(x / 1000)] on an integer number of milliseconds. *)
Definition ceil_seconds (x : Z) : Z := - ((- x) / 1000).

(** ** InMemoryCache

    The cache that stands in for Redis in development and in the tests: a
    [Map] from keys to entries with an expiry instant.  [Date.now()] is the
    parameter [now]; the default TTL of the constructor is [defaultTtl]. *)

Module InMemoryCache.
Record entry (V : Type) := mkEntry { value : V; expiresAt : Z }.
Arguments mkEntry {V} _ _.
Arguments value {V} _.
Arguments expiresAt {V} _.

Abbreviation t V := (gmap string (entry V)).

Definition get {V} (now : Z) (key : string) (cache : t V) : t V * option V :=
  match cache !! key with
  | None => (cache, None)
  | Some entry =>
      if decide (now > expiresAt entry)
      then (base.delete key cache, None)
      else (cache, Some (value entry))
  end.

Definition set {V} (defaultTtl now : Z) (key : string) (v : V)
  (ttlSeconds : option Z) (cache : t V) : t V :=
  let ttl := default defaultTtl ttlSeconds in
  let expiresAt := now + ttl * 1000 in
  <[key := mkEntry v expiresAt]> cache.

(** [pattern.replace('*', '')]: a string pattern replaces its first
    occurrence only. *)
Fixpoint replace_star (pattern : string) : string :=
  match pattern with
  | EmptyString => EmptyString
  | String c rest =>
      if decide (String c EmptyString = "*") then rest
      else String c (replace_star rest)
  end.

Definition deletePattern {V} (pattern : string) (cache : t V) : t V * nat :=
  let prefix := replace_star pattern in
  map_fold (λ key _ '(cache, count),
              if String.prefix prefix key
              then (base.delete key cache, S count)
              else (cache, count))
           (cache, 0%nat) cache.

Definition exists_ {V} (now : Z) (key : string) (cache : t V) : t V * bool :=
  match cache !! key with
  | None => (cache, false)
  | Some entry =>
      if decide (now > expiresAt entry)
      then (base.delete key cache, false)
      else (cache, true)
  end.

Definition ttl {V} (now : Z) (key : string) (cache : t V) : Z :=
  match cache !! key with
  | None => -2
  | Some entry =>
      let remaining := ceil_seconds (expiresAt entry - now) in
      if decide (remaining > 0) then remaining else -1
  end.

Definition clear {V} (cache : t V) : t V := ∅.

Definition cleanup {V} (now : Z) (cache : t V) : t V :=
  map_fold (λ key entry cache,
              if decide (now > expiresAt entry)
              then base.delete key cache else cache)
           cache cache.

Definition delete {V} (key : string) (cache : t V) : t V * bool :=
  (base.delete key cache, bool_decide (is_Some (cache !! key))).
End InMemoryCache.

(** ** RateLimiter (rateLimitMiddleware.ts)

    A sliding window per key: the instants of the requests let through.
    [Date.now()] is the parameter [now]. *)

Module RateLimiter.
Record RateLimitEntry := mkEntry { count : Z; windowStart : Z }.

Record t := mk {
  windows : gmap string (list RateLimitEntry);
  windowMs : Z;
  maxRequests : Z
}.

Record CheckResult := mkResult {
  allowed : bool;
  remaining : Z;
  resetTime : Z
}.

(** [new RateLimiter(windowMs, maxRequests)] *)
Definition create (windowMs maxRequests : Z) : t :=
  {| windows := ∅; windowMs := windowMs; maxRequests := maxRequests |}.

Definition set_windows (ws : gmap string (list RateLimitEntry)) (l : t) : t :=
  {| windows := ws; windowMs := windowMs l; maxRequests := maxRequests l |}.

Definition check (now : Z) (key : string) (l : t) : t * CheckResult :=
  let windowStart' := now - windowMs l in
  let entries := default [] (windows l !! key) in
  let entries := filter (λ entry, windowStart entry > windowStart') entries in
  let count' := foldl (λ sum entry, sum + count entry) 0 entries in
  let remaining := Z.max 0 (maxRequests l - count') in
  let allowed := bool_decide (count' < maxRequests l) in
  let entries := if allowed then entries ++ [mkEntry 1 now] else entries in
  let l' := if allowed then set_windows (<[key := entries]> (windows l)) l else l in
  let resetTime :=
    match head entries with
    | Some oldestEntry => windowStart oldestEntry + windowMs l
    | None => now + windowMs l
    end in
  (l', mkResult allowed remaining resetTime).

Definition cleanup (now : Z) (l : t) : t :=
  let cutoff := now - windowMs l in
  set_windows
    (map_fold (λ key entries ws,
                 let filtered := filter (λ e, windowStart e > cutoff) entries in
                 if decide (length filtered = 0%nat)
                 then delete key ws
                 else <[key := filtered]> ws)
              (windows l) (windows l))
    l.

(** The [rateLimit] middleware: the three headers it sets, then either
    [next()] or the 429 reply with its [retryAfter].  [now] is the clock
    read by [check], [now'] the one read for the reply. *)
Record Headers := mkHeaders {
  X_RateLimit_Limit : Z;
  X_RateLimit_Remaining : Z;
  X_RateLimit_Reset : Z
}.

Inductive Reply :=
| Next
| TooManyRequests (retryAfter : Z).

Definition rateLimit (now now' : Z) (ip : option string) (l : t)
  : t * (Headers * Reply) :=
  let key := default "anonymous" (truthy ip) in
  let '(l', r) := check now key l in
  let headers := mkHeaders (maxRequests l) (remaining r)
                           (ceil_seconds (resetTime r)) in
  if allowed r
  then (l', (headers, Next))
  else (l', (headers,
             TooManyRequests (ceil_seconds (resetTime r - now')))).
End RateLimiter.

(** * Definitions for the statements *)

(** Every operation only appends to the record of calls. *)
Definition add_calls (cs : list Call) (w : World.t) : World.t :=
  World.mk (World.bookings w) (World.rooms w) (World.redis w)
           (World.busConnected w) (World.exchange w) (World.calls w ++ cs).

(** [calls_since w w'] is what [w'] recorded after [w]. *)
Definition calls_since (w w' : World.t) : list Call :=
  drop (length (World.calls w)) (World.calls w').

(** The booking [checkIdempotency] resolves a key to. *)
Definition lookup_token (env : Env.t) (key : string) (w : World.t)
  : option Booking.t :=
  match snd (checkIdempotency env key w) with
  | inr existingBooking => existingBooking
  | inl _ => None
  end.

(** The booking the idempotency step of [createBooking] resolves, if any
    (lines 63-72). *)
Definition replayed (env : Env.t) (data : CreateBookingData.t) (w : World.t)
  : option Booking.t :=
  match truthy (CreateBookingData.idempotencyKey data) with
  | Some key => lookup_token env key w
  | None => None
  end.

Definition known_room (roomId : string) (w : World.t) : Prop :=
  is_Some (head (filter (λ r, Room.id r = roomId) (World.rooms w))).

(** The calls the idempotency step may make: one cache read and one point
    lookup in the table of bookings. *)
Definition is_token_lookup (c : Call) : Prop :=
  match c with
  | CacheGet _ | BookingFindById _ | BookingFindByIdempotencyKey _ => True
  | _ => False
  end.

(** What reaches the exchange when [ev] is emitted in [w]. *)
Definition delivered (ev : Event) (w : World.t) : list Event :=
  if World.busConnected w then World.exchange w ++ [ev] else World.exchange w.

Ltac unfold_ports :=
  unfold bookingRepository_findById, bookingRepository_findByIdempotencyKey,
    bookingRepository_create, bookingRepository_findAll,
    bookingRepository_update, bookingRepository_findConflictingBookings,
    roomRepository_findById, cache_get, cache_set, cache_delete,
    eventBus_emit in *.

Ltac unfold_monad :=
  unfold bind, ret, throw, lift, gets, modify, call in *.

(** The five ways out of the first half of [createBooking], with the state
    each leaves; [cs] are the calls of the idempotency step. *)
Definition admission_outcome (env : Env.t) (data : CreateBookingData.t)
  (w : World.t) (cs : list Call) : World.t * (Error + Admission) :=
  let room := CreateBookingData.roomId data in
  let s := CreateBookingData.startTime data in
  let e := CreateBookingData.endTime data in
  match replayed env data w with
  | Some b => (add_calls cs w, inr (Replay b))
  | None =>
      match head (filter (λ r, Room.id r = room) (World.rooms w)) with
      | None => (add_calls (cs ++ [RoomFindById room]) w, inl (RoomNotFoundError room))
      | Some _ =>
          match validateBookingTimes env s e with
          | inl err => (add_calls (cs ++ [RoomFindById room]) w, inl err)
          | inr _ =>
              match filter (conflicts_with room s e None) (World.bookings w) with
              | c :: _ =>
                  let ev := ROOM_UNAVAILABLE room s e (Booking.id c) (Env.now env) in
                  (World.mk (World.bookings w) (World.rooms w) (World.redis w)
                            (World.busConnected w) (delivered ev w)
                            (World.calls w ++ cs ++
                               [RoomFindById room; BookingFindConflicting room s e;
                                EventEmit ev]),
                   inl (RoomUnavailableError room s e))
              | [] =>
                  (add_calls (cs ++ [RoomFindById room;
                                     BookingFindConflicting room s e]) w,
                   inr Proceed)
              end
          end
      end
  end.

(** The two ways out of the second half of [createBooking]. *)
Definition commit_outcome (env : Env.t) (data : CreateBookingData.t) (w : World.t)
  : World.t * (Error + Booking.t) :=
  let row := new_row env data in
  let key := truthy (CreateBookingData.idempotencyKey data) in
  let ttl := Config.cache_ttl (Env.config env) in
  let idempotencyTtl := Config.cache_idempotencyTtl (Env.config env) in
  match insert_violation row w with
  | Some c => (add_calls [BookingCreate data] w, inl (DatabaseError c))
  | None =>
      let ev := BOOKING_CREATED row (Env.now env) in
      let redis1 :=
        match key with
        | Some k => redis_setex (Env.now env) ("idempotency:" +:+ k) idempotencyTtl
                                (JString (Booking.id row)) (World.redis w)
        | None => World.redis w
        end in
      let set1 :=
        match key with
        | Some k => [CacheSet ("idempotency:" +:+ k) (JString (Booking.id row))
                              idempotencyTtl]
        | None => []
        end in
      (World.mk (World.bookings w ++ [row]) (World.rooms w)
                (redis_setex (Env.now env) ("booking:" +:+ Booking.id row) ttl
                             (JBooking row) redis1)
                (World.busConnected w) (delivered ev w)
                (World.calls w ++ [BookingCreate data] ++ set1 ++
                   [CacheSet ("booking:" +:+ Booking.id row) (JBooking row) ttl;
                    EventEmit ev]),
       inr row)
  end.

(** ** Availability *)

(** The walk of the specification: from [cursor], each booked interval
    yields the free slot before it when the cursor is before its start, and
    moves the cursor to the maximum of the cursor and its end; after the last
    interval the rest of the window is free when the cursor is before the
    window end. *)
Fixpoint spec_free_slots (cursor windowEnd : Z) (booked : list TimeSlot.t)
  : list TimeSlot.t :=
  match booked with
  | [] => if decide (cursor < windowEnd) then [slot cursor windowEnd] else []
  | interval :: rest =>
      (if decide (cursor < TimeSlot.startTime interval)
       then [slot cursor (TimeSlot.startTime interval)] else [])
      ++ spec_free_slots (Z.max cursor (TimeSlot.endTime interval)) windowEnd rest
  end.

(** The slots the loop pushes, and the cursor it ends with. *)
Fixpoint pushed (cursor : Z) (booked : list TimeSlot.t) : list TimeSlot.t :=
  match booked with
  | [] => []
  | b :: rest =>
      (if decide (cursor < TimeSlot.startTime b)
       then [slot cursor (TimeSlot.startTime b)] else [])
      ++ pushed (Z.max cursor (TimeSlot.endTime b)) rest
  end.

Fixpoint cursor_after (cursor : Z) (booked : list TimeSlot.t) : Z :=
  match booked with
  | [] => cursor
  | b :: rest => cursor_after (Z.max cursor (TimeSlot.endTime b)) rest
  end.

(** A time slot as the half-open interval [[startTime, endTime)]. *)
Definition in_slot (t : Z) (s : TimeSlot.t) : Prop :=
  TimeSlot.startTime s ≤ t < TimeSlot.endTime s.

(** A slot cut down to the window [[windowStart, windowEnd)]. *)
Definition clip (windowStart windowEnd : Z) (s : TimeSlot.t) : TimeSlot.t :=
  slot (Z.max windowStart (TimeSlot.startTime s))
       (Z.min windowEnd (TimeSlot.endTime s)).

Definition starts_before (a b : TimeSlot.t) : Prop :=
  TimeSlot.startTime a ≤ TimeSlot.startTime b.

(** The overlap test of the conflict query, on slots. *)
Definition slots_overlap (a b : TimeSlot.t) : Prop :=
  TimeSlot.startTime a < TimeSlot.endTime b ∧
  TimeSlot.endTime a > TimeSlot.startTime b.

Definition pairwise_disjoint (l : list TimeSlot.t) : Prop :=
  ForallOrdPairs (λ a b, ¬ slots_overlap a b) l.

(** The scenario of the specification: room R1, and booking A from 10:00 to
    14:00 on the day of [date]. *)
Definition room_R1 : Room.t :=
  {| Room.id := "R1"; Room.name := "Salle Einstein"; Room.capacity := 10;
     Room.location := "A2"; Room.amenities := ["projector"%string];
     Room.isActive := true; Room.createdAt := 0; Room.updatedAt := 0 |}.

Definition booking_A (tz date : Z) : Booking.t :=
  {| Booking.id := "A"; Booking.roomId := "R1"; Booking.userId := "user-123";
     Booking.title := "Team Meeting"; Booking.description := None;
     Booking.startTime := setHours tz date 10 0 0 0;
     Booking.endTime := setHours tz date 14 0 0 0;
     Booking.status := CONFIRMED; Booking.createdAt := 0;
     Booking.updatedAt := 0; Booking.cancelledAt := None;
     Booking.idempotencyKey := None |}.

Definition world_of (bookings : list Booking.t) : World.t :=
  {| World.bookings := bookings; World.rooms := [room_R1];
     World.redis := Some ∅; World.busConnected := true;
     World.exchange := []; World.calls := [] |}.

(** ** Outcomes of [getBooking] and [cancelBooking] *)

Definition getBooking_outcome (env : Env.t) (id : string) (w : World.t)
  : World.t * (Error + Booking.t) :=
  let key := "booking:" +:+ id in
  let ttl := Config.cache_ttl (Env.config env) in
  match as_booking (redis_read (Env.now env) key (World.redis w)) with
  | Some cached => (add_calls [CacheGet key] w, inr cached)
  | None =>
      match head (filter (λ b, Booking.id b = id) (World.bookings w)) with
      | None => (add_calls [CacheGet key; BookingFindById id] w,
                 inl (BookingNotFoundError id))
      | Some b =>
          (World.mk (World.bookings w) (World.rooms w)
                    (redis_setex (Env.now env) key ttl (JBooking b) (World.redis w))
                    (World.busConnected w) (World.exchange w)
                    (World.calls w ++ [CacheGet key; BookingFindById id;
                                       CacheSet key (JBooking b) ttl]),
           inr b)
      end
  end.

Definition cancelBooking_outcome (env : Env.t) (id : string)
  (reason : option string) (w : World.t) : World.t * (Error + Booking.t) :=
  let key := "booking:" +:+ id in
  match head (filter (λ b, Booking.id b = id) (World.bookings w)) with
  | None => (add_calls [BookingFindById id] w, inl (BookingNotFoundError id))
  | Some b =>
      if decide (Booking.status b = CANCELLED)
      then (add_calls [BookingFindById id] w, inl (BookingAlreadyCancelledError id))
      else
        let updated := apply_patch (Env.now env) (cancellation env) b in
        let ev := BOOKING_CANCELLED updated reason (Env.now env) in
        (World.mk (update_rows (Env.now env) id (cancellation env) (World.bookings w))
                  (World.rooms w) (redis_del key (World.redis w))
                  (World.busConnected w) (delivered ev w)
                  (World.calls w ++ [BookingFindById id;
                                     BookingUpdate id (cancellation env);
                                     CacheDelete key; EventEmit ev]),
         inr updated)
  end.

(** ** Reachable states *)

(** The operations of the service. *)
Inductive Operation :=
| CreateBooking (data : CreateBookingData.t)
| GetBooking (id : string)
| GetBookings (filter : option BookingFilter.t)
| CancelBooking (id : string) (reason : option string).

(** The state an operation leaves, whether it returns or throws. *)
Definition perform (env : Env.t) (op : Operation) (w : World.t) : World.t :=
  match op with
  | CreateBooking data => fst (createBooking env data w)
  | GetBooking id => fst (getBooking env id w)
  | GetBookings filter => fst (getBookings filter w)
  | CancelBooking id reason => fst (cancelBooking env id reason w)
  end.

(** At start the table of bookings is empty, and so is the cache when there
    is one; the rooms, the bus and the clock are arbitrary. *)
Definition initial (w : World.t) : Prop :=
  World.bookings w = [] ∧ (World.redis w = None ∨ World.redis w = Some ∅).

(** The states reached when the operations run one at a time, none starting
    before the one before it has ended, each with any clock reading,
    identifier and configuration; between two operations the cache may lose
    entries (expiry, eviction, flush).  Nothing in the code enforces this
    order: requests that interleave at an [await] reach other states, and
    what is proved of [reachable] is proved of runs without interleaving
    only. *)
Inductive reachable : World.t → Prop :=
| reachable_initial w : initial w → reachable w
| reachable_perform env op w : reachable w → reachable (perform env op w)
| reachable_cache_loss w db db' :
    reachable w → World.redis w = Some db → db' ⊆ db →
    reachable (World.set_redis (Some db') w).

(** Two bookings whose half-open intervals share an instant. *)
Definition intervals_meet (b1 b2 : Booking.t) : Prop :=
  ∃ t, Booking.startTime b1 ≤ t < Booking.endTime b1 ∧
       Booking.startTime b2 ≤ t < Booking.endTime b2.

(** The half-open interval of a request shares an instant with a booking. *)
Definition request_meets (data : CreateBookingData.t) (b : Booking.t) : Prop :=
  ∃ t, CreateBookingData.startTime data ≤ t < CreateBookingData.endTime data ∧
       Booking.startTime b ≤ t < Booking.endTime b.

(** No two distinct rows of the same room, neither cancelled, overlap. *)
Definition no_double_booking (rows : list Booking.t) : Prop :=
  ∀ i j b1 b2,
    i ≠ j → rows !! i = Some b1 → rows !! j = Some b2 →
    Booking.roomId b1 = Booking.roomId b2 →
    Booking.status b1 ≠ CANCELLED → Booking.status b2 ≠ CANCELLED →
    ¬ intervals_meet b1 b2.

(** Every cache entry [idempotency:<key>] names a row that carries that
    key. *)
Definition cache_sound (rows : list Booking.t)
  (r : option (gmap string CacheEntry.t)) : Prop :=
  ∀ db key e i,
    r = Some db → db !! ("idempotency:" +:+ key) = Some e →
    CacheEntry.value e = JString i →
    ∃ b, b ∈ rows ∧ Booking.id b = i ∧ Booking.idempotencyKey b = Some key.

(** What holds of every reachable state. *)
Record consistent (w : World.t) : Prop := {
  ids_unique : NoDup (Booking.id <$> World.bookings w);
  tokens_unique : NoDup (omap Booking.idempotencyKey (World.bookings w));
  cache_names_token : cache_sound (World.bookings w) (World.redis w);
  intervals_valid :
    ∀ b, b ∈ World.bookings w → Booking.startTime b < Booking.endTime b;
  rooms_exclusive : no_double_booking (World.bookings w)
}.

(** ** Scenarios *)

Definition env_at (now : Z) (uuid : string) : Env.t :=
  {| Env.now := now; Env.uuid := uuid; Env.config := Config.default |}.

(** A request for room R1 from 01:00 to 02:00 (in milliseconds), with or
    without an idempotency key. *)
Definition request (startTime endTime : Z) (key : option string)
  : CreateBookingData.t :=
  {| CreateBookingData.roomId := "R1";
     CreateBookingData.userId := "user-123";
     CreateBookingData.title := "Team Meeting";
     CreateBookingData.description := None;
     CreateBookingData.startTime := startTime;
     CreateBookingData.endTime := endTime;
     CreateBookingData.idempotencyKey := key |}.

Definition keyed_request : CreateBookingData.t :=
  request 3600000 7200000 (Some "key-1"%string).

(** The state after the keyed request has been admitted as booking B1. *)
Definition world_B1 : World.t :=
  perform (env_at 1000 "B1") (CreateBooking keyed_request) (world_of []).

Definition booking_B1 : Booking.t := new_row (env_at 1000 "B1") keyed_request.

(** A second request for room R1, from 01:30 to 02:30, without a key. *)
Definition overlapping_request : CreateBookingData.t :=
  request 5400000 9000000 None.

(** A request whose start is one hour before the clock of [env_at 7200000]. *)
Definition past_request : CreateBookingData.t :=
  request 3600000 7200000 None.

(** What the cache holds in [world_B1]. *)
Definition cache_B1 : gmap string CacheEntry.t :=
  <["booking:B1"%string :=
      {| CacheEntry.value := JBooking booking_B1;
         CacheEntry.expiresAt := 1000 + 300 * 1000 |}]>
  (<["idempotency:key-1"%string :=
       {| CacheEntry.value := JString "B1";
          CacheEntry.expiresAt := 1000 + 86400 * 1000 |}]> ∅).

(** ** Further statements about the service *)

(** The same state with the event bus connected or not. *)
Definition with_bus (connected : bool) (w : World.t) : World.t :=
  World.mk (World.bookings w) (World.rooms w) (World.redis w) connected
           (World.exchange w) (World.calls w).

(** A string that PostgreSQL stores in a VARCHAR(n) column or, for
    [no_nul] alone, in a TEXT column: at most [n] characters, none of them
    NUL.  Each [ascii] of a string is one character. *)
Fixpoint no_nul (s : string) : Prop :=
  match s with
  | EmptyString => True
  | String c rest => c ≠ Ascii.zero ∧ no_nul rest
  end.

Definition fits_varchar (n : nat) (s : string) : Prop :=
  (String.length s ≤ n)%nat ∧ no_nul s.

(** The texts of a request fit the columns [user_id], [title] and
    [idempotency_key], VARCHAR(255), and [description], TEXT. *)
Definition storable (data : CreateBookingData.t) : Prop :=
  fits_varchar 255 (CreateBookingData.userId data) ∧
  fits_varchar 255 (CreateBookingData.title data) ∧
  (∀ d, CreateBookingData.description data = Some d → no_nul d) ∧
  (∀ k, CreateBookingData.idempotencyKey data = Some k → fits_varchar 255 k).


(** A row as [create] writes it for a request, its two timestamps of the
    database clock left open. *)
Definition created_as (env : Env.t) (data : CreateBookingData.t)
  (row : Booking.t) : Prop :=
  Booking.id row = Env.uuid env ∧
  Booking.roomId row = CreateBookingData.roomId data ∧
  Booking.userId row = CreateBookingData.userId data ∧
  Booking.title row = CreateBookingData.title data ∧
  Booking.description row = truthy (CreateBookingData.description data) ∧
  Booking.startTime row = CreateBookingData.startTime data ∧
  Booking.endTime row = CreateBookingData.endTime data ∧
  Booking.status row = CONFIRMED ∧
  Booking.cancelledAt row = None ∧
  Booking.idempotencyKey row = truthy (CreateBookingData.idempotencyKey data).

(** The calls of the second half of [createBooking] when the insert
    succeeds with [row]; the event is stamped [t]. *)
Definition creation_calls (env : Env.t) (data : CreateBookingData.t)
  (row : Booking.t) (t : Z) : list Call :=
  [BookingCreate data] ++
  match truthy (CreateBookingData.idempotencyKey data) with
  | Some k => [CacheSet ("idempotency:" +:+ k) (JString (Booking.id row))
                        (Config.cache_idempotencyTtl (Env.config env))]
  | None => []
  end ++
  [CacheSet ("booking:" +:+ Booking.id row) (JBooking row)
            (Config.cache_ttl (Env.config env));
   EventEmit (BOOKING_CREATED row t)].

(** Every cache entry [booking:<id>] holds the row of the table that has
    this id. *)
Definition cache_coherent (rows : list Booking.t)
  (r : option (gmap string CacheEntry.t)) : Prop :=
  ∀ db i e b,
    r = Some db → db !! ("booking:" +:+ i) = Some e →
    CacheEntry.value e = JBooking b →
    b ∈ rows ∧ Booking.id b = i.

(** The cache agrees with the table: ids and idempotency keys are unique in
    the table (primary key, UNIQUE constraint), every entry
    [idempotency:<key>] names a row that carries the key, and every entry
    [booking:<id>] holds the row that has the id. *)
Record cache_agrees (w : World.t) : Prop := {
  agrees_ids : NoDup (Booking.id <$> World.bookings w);
  agrees_tokens : NoDup (omap Booking.idempotencyKey (World.bookings w));
  agrees_sound : cache_sound (World.bookings w) (World.redis w);
  agrees_coherent : cache_coherent (World.bookings w) (World.redis w)
}.

(** What the table answers for an id. *)
Definition stored (id : string) (w : World.t) : option Booking.t :=
  head (filter (λ b, Booking.id b = id) (World.bookings w)).

(** The same state with no cache client. *)
Definition without_cache (w : World.t) : World.t := World.set_redis None w.

(** What every row written by the service satisfies. *)
Definition row_ok (b : Booking.t) : Prop :=
  Booking.status b ≠ PENDING ∧
  (Booking.status b = CANCELLED ↔ is_Some (Booking.cancelledAt b)) ∧
  900000 ≤ Booking.endTime b - Booking.startTime b ≤ 28800000 ∧
  Booking.idempotencyKey b ≠ Some ""%string ∧
  Booking.description b ≠ Some ""%string.

(** The states in which every row was written by the service, the table
    having started empty: by operations run whole, by the insert of a
    request that passed its checks in some earlier state, whatever happened
    in between, and by anything that leaves the table alone (a cache that
    loses entries, a bus that reconnects). *)
Inductive written : World.t → Prop :=
| written_empty w : World.bookings w = [] → written w
| written_perform env op w : written w → written (perform env op w)
| written_insert env data w0 w :
    snd (createBooking_admission env data w0) = inr Proceed →
    written w → written (fst (createBooking_commit env data w))
| written_elsewhere w w' :
    written w → World.bookings w' = World.bookings w → written w'.

(** What an operation of the service may do to a row: it keeps what
    identifies the booking, and a cancelled row stays cancelled. *)
Definition row_evolves (b b' : Booking.t) : Prop :=
  Booking.id b' = Booking.id b ∧
  Booking.roomId b' = Booking.roomId b ∧
  Booking.userId b' = Booking.userId b ∧
  Booking.title b' = Booking.title b ∧
  Booking.description b' = Booking.description b ∧
  Booking.startTime b' = Booking.startTime b ∧
  Booking.endTime b' = Booking.endTime b ∧
  Booking.idempotencyKey b' = Booking.idempotencyKey b ∧
  Booking.createdAt b' = Booking.createdAt b ∧
  (Booking.status b = CANCELLED → Booking.status b' = CANCELLED).

(** The time slot a row of the availability query is mapped to. *)
Definition booked_slot (row : Booking.t) : TimeSlot.t :=
  slot (Booking.startTime row) (Booking.endTime row).

(** A slot with its start strictly before its end, and two slots in
    sequence. *)
Definition slot_nonempty (s : TimeSlot.t) : Prop :=
  TimeSlot.startTime s < TimeSlot.endTime s.

Definition slot_precedes (a b : TimeSlot.t) : Prop :=
  TimeSlot.endTime a ≤ TimeSlot.startTime b.

(** A run of booking operations, each at its own instant.  The subscribers
    of the event bus (infrastructure/events/handlers.ts) are not part of the
    run. *)
Definition perform_all (ops : list (Env.t * Operation)) (w : World.t) : World.t :=
  fold_left (λ w '(env, op), perform env op w) ops w.

(** The entry stored under a key, expired or not. *)
Definition cache_entry (key : string) (r : option (gmap string CacheEntry.t))
  : option CacheEntry.t :=
  match r with Some db => db !! key | None => None end.

(** A string without the character [*]. *)
Fixpoint no_star (s : string) : Prop :=
  match s with
  | EmptyString => True
  | String c rest => String c EmptyString ≠ "*" ∧ no_star rest
  end.

(** ** Runs of the rate limiter

    What happens to a limiter: a request checked for a key, or the periodic
    cleanup, each at its instant.  Beside the limiter a run keeps the log of
    the requests it let through. *)
Inductive LimiterStep :=
| Check (key : string)
| Cleanup.

Definition limiter_step (st : RateLimiter.t * list (Z * string))
  (s : Z * LimiterStep) : RateLimiter.t * list (Z * string) :=
  let '(l, log) := st in
  match s.2 with
  | Check key =>
      let '(l', r) := RateLimiter.check s.1 key l in
      (l', if RateLimiter.allowed r then log ++ [(s.1, key)] else log)
  | Cleanup => (RateLimiter.cleanup s.1 l, log)
  end.

Definition limiter_run (steps : list (Z * LimiterStep)) (l : RateLimiter.t)
  : RateLimiter.t * list (Z * string) :=
  foldl limiter_step (l, []) steps.

(** The clock of a run does not go back. *)
Definition clock_monotone (steps : list (Z * LimiterStep)) : Prop :=
  StronglySorted Z.le (fst <$> steps).

(** The instants at which a log let a key through. *)
Definition granted_to (key : string) (log : list (Z * string)) : list Z :=
  omap (λ '(t, k), if decide (k = key) then Some t else None) log.

(** The number of requests a log let through for a key in the window
    [(t - windowMs, t]]. *)
Definition granted_in_window (windowMs : Z) (key : string) (t : Z)
  (log : list (Z * string)) : Z :=
  Z.of_nat (length (filter (λ a, t - windowMs < a ∧ a ≤ t) (granted_to key log))).

(** Each request in the list was let through with fewer than [maxRequests]
    earlier ones in its window. *)
Definition fairly_granted (windowMs maxRequests : Z) (granted : list Z) : Prop :=
  ∀ before a after,
    granted = before ++ a :: after →
    Z.of_nat (length (filter (λ t, a - windowMs < t) before)) < maxRequests.

(** What a run keeps of a limiter and its log at an instant [clock]: the
    entries of a key are the requests let through for it, less those
    dropped as older than some window that was current. *)
Definition limiter_inv (windowMs maxRequests clock : Z) (l : RateLimiter.t)
  (log : list (Z * string)) : Prop :=
  RateLimiter.windowMs l = windowMs ∧
  RateLimiter.maxRequests l = maxRequests ∧
  (∀ key a, a ∈ granted_to key log → a ≤ clock) ∧
  (∀ key, ∃ cut,
     cut ≤ clock ∧
     default [] (RateLimiter.windows l !! key)
     = RateLimiter.mkEntry 1 <$> filter (λ a, cut - windowMs < a) (granted_to key log)) ∧
  (∀ key, fairly_granted windowMs maxRequests (granted_to key log)).

(** ** Scenarios for the further properties *)

(** A state with no room, no cache client and no bus. *)
Definition world_empty : World.t :=
  {| World.bookings := []; World.rooms := []; World.redis := None;
     World.busConnected := false; World.exchange := []; World.calls := [] |}.

(** The availability of room R1 on 1970-01-01 (UTC) with no booking, and the
    state after it has been asked for at instant 1000, the bus being down. *)
Definition availability_R1 : RoomAvailability.t :=
  {| RoomAvailability.roomId := "R1"; RoomAvailability.date := 0;
     RoomAvailability.availableSlots := [slot 28800000 64800000];
     RoomAvailability.bookedSlots := [] |}.

Definition world_asked : World.t :=
  fst (getRoomAvailability 0 (env_at 1000 "") "R1" 0
         (with_bus false (world_of []))).

Definition cache_asked : gmap string CacheEntry.t :=
  <["availability:R1:1970-01-01"%string :=
      {| CacheEntry.value := JAvailability availability_R1;
         CacheEntry.expiresAt := 1000 + 300 * 1000 |}]> ∅.

(** Two requests of one client let through by a limiter of two requests a
    minute. *)
Definition two_requests : list (Z * LimiterStep) :=
  [(0, Check "anonymous"); (10, Check "anonymous")].

(** * Proofs *)

(** ** Running the monad *)

Lemma calls_since_app w w' cs :
  World.calls w' = World.calls w ++ cs → calls_since w w' = cs.
Proof. intros H. unfold calls_since. rewrite H. apply drop_app_length. Qed.

Lemma add_calls_nil w : add_calls [] w = w.
Proof. destruct w. unfold add_calls. simpl. by rewrite app_nil_r. Qed.

Lemma checkIdempotency_run env key w :
  ∃ cs, checkIdempotency env key w = (add_calls cs w, inr (lookup_token env key w))
        ∧ Forall is_token_lookup cs.
Proof.
  unfold lookup_token, checkIdempotency. unfold_ports. unfold_monad. simpl.
  destruct (truthy (as_string _)) as [i|]; simpl.
  - exists [CacheGet ("idempotency:" +:+ key); BookingFindById i].
    split; [|repeat constructor].
    unfold add_calls, World.log. simpl. by rewrite <- app_assoc.
  - exists [CacheGet ("idempotency:" +:+ key); BookingFindByIdempotencyKey key].
    split; [|repeat constructor].
    unfold add_calls, World.log. simpl. by rewrite <- app_assoc.
Qed.

Lemma token_step_run env data w :
  ∃ cs, (match truthy (CreateBookingData.idempotencyKey data) with
         | Some key => checkIdempotency env key
         | None => ret None
         end) w = (add_calls cs w, inr (replayed env data w))
        ∧ Forall is_token_lookup cs.
Proof.
  unfold replayed. destruct (truthy _) as [key|].
  - apply checkIdempotency_run.
  - exists []. by rewrite add_calls_nil.
Qed.

Lemma admission_run env data w :
  ∃ cs, Forall is_token_lookup cs ∧
        createBooking_admission env data w = admission_outcome env data w cs.
Proof.
  destruct (token_step_run env data w) as (cs & Hrun & Hcs).
  exists cs. split; [done|].
  unfold createBooking_admission, admission_outcome.
  unfold bind at 1. rewrite Hrun.
  destruct (replayed env data w) as [b|]; [done|].
  unfold_ports. unfold_monad. simpl.
  destruct (head (filter _ (World.rooms w))) as [r|]; simpl.
  2:{ unfold add_calls, World.log. simpl. by rewrite <- app_assoc. }
  destruct (validateBookingTimes env _ _) as [err|[]]; simpl.
  { unfold add_calls, World.log. simpl. by rewrite <- app_assoc. }
  destruct (filter _ (World.bookings w)) as [|c rest]; simpl.
  { unfold add_calls, World.log. simpl. by rewrite <- !app_assoc. }
  unfold delivered. destruct (World.busConnected w) eqn:Hbus; simpl;
    unfold add_calls, World.log, World.set_exchange; simpl;
    rewrite ?Hbus, <- !app_assoc; done.
Qed.

Lemma commit_run env data w :
  createBooking_commit env data w = commit_outcome env data w.
Proof.
  unfold createBooking_commit, commit_outcome.
  unfold_ports. unfold_monad. simpl.
  change (insert_violation (new_row env data) (World.log (BookingCreate data) w))
    with (insert_violation (new_row env data) w).
  destruct (insert_violation (new_row env data) w) as [c|] eqn:Hv; simpl;
    [done|].
  unfold delivered.
  destruct (truthy (CreateBookingData.idempotencyKey data)) as [k|] eqn:Hk;
    simpl; rewrite ?Hk; simpl;
    destruct (World.busConnected w) eqn:Hbus; simpl;
    unfold add_calls, World.log, World.set_exchange, World.set_redis,
      World.set_bookings; simpl;
    rewrite ?Hbus, ?Hk, <- ?app_assoc; simpl; done.
Qed.

Lemma createBooking_run env data w :
  createBooking env data w =
    match createBooking_admission env data w with
    | (w1, inr (Replay b)) => (w1, inr b)
    | (w1, inr Proceed) => createBooking_commit env data w1
    | (w1, inl err) => (w1, inl err)
    end.
Proof.
  unfold createBooking, bind.
  destruct (createBooking_admission env data w) as [w1 [err|[b|]]]; done.
Qed.

Lemma token_lookup_not_conflict_check cs r s e :
  Forall is_token_lookup cs → BookingFindConflicting r s e ∉ cs.
Proof.
  intros Hcs Hin. rewrite Forall_forall in Hcs. by apply Hcs in Hin.
Qed.

(** C3.  Once the idempotency step has resolved nothing and the room exists,
    [createBooking] fails with [InvalidBookingTimeError] (HTTP 400) exactly
    when the start is strictly before the current time, or the end is not
    after the start, or the duration exceeds 8 hours, or it is below 15
    minutes; the message is that of the first failing check in the order
    past-time, order, maximum, minimum; a request that passes all four has
    its conflicts looked up, and one that fails any of them has not. *)
Theorem createBooking_interval_validation env data w :
  replayed env data w = None →
  known_room (CreateBookingData.roomId data) w →
  let room := CreateBookingData.roomId data in
  let s := CreateBookingData.startTime data in
  let e := CreateBookingData.endTime data in
  let now := Env.now env in
  let result := snd (createBooking env data w) in
  let w' := fst (createBooking env data w) in
  let invalid := (s < now ∨ e ≤ s ∨ e - s > 28800000 ∨ e - s < 900000) in
  ((∃ message, result = inl (InvalidBookingTimeError message)) ↔ invalid) ∧
  (s < now →
   result = inl (InvalidBookingTimeError "Start time cannot be in the past")) ∧
  (now ≤ s → e ≤ s →
   result = inl (InvalidBookingTimeError "End time must be after start time")) ∧
  (now ≤ s → s < e → e - s > 28800000 →
   result = inl (InvalidBookingTimeError
                   "Booking duration cannot exceed 8 hours")) ∧
  (now ≤ s → s < e → e - s ≤ 28800000 → e - s < 900000 →
   result = inl (InvalidBookingTimeError
                   "Booking duration must be at least 15 minutes")) ∧
  (∀ message, mapDomainError (InvalidBookingTimeError message)
              = (400, "INVALID_BOOKING_TIME"%string)) ∧
  (¬ invalid → BookingFindConflicting room s e ∈ calls_since w w') ∧
  (invalid → (BookingFindConflicting room s e ∉ calls_since w w')
             ∧ World.bookings w' = World.bookings w).
Proof.
  intros Hnone [r Hroom]. cbv zeta.
  destruct (admission_run env data w) as (cs & Hcs & Hadm).
  rewrite createBooking_run, Hadm. unfold admission_outcome.
  rewrite Hnone, Hroom.
  set (s := CreateBookingData.startTime data).
  set (e := CreateBookingData.endTime data).
  set (room := CreateBookingData.roomId data).
  destruct (validateBookingTimes env s e) as [err|[]] eqn:Hval.
  - (* one of the four checks throws *)
    assert (Hinv : s < Env.now env ∨ e ≤ s ∨ e - s > 28800000 ∨ e - s < 900000).
    { revert Hval. unfold validateBookingTimes. repeat case_decide; try done; lia. }
    simpl. erewrite calls_since_app by reflexivity.
    revert Hval. unfold validateBookingTimes.
    repeat case_decide; intros [= <-]; repeat split; intros; try done;
      try lia; eauto.
    all: rewrite elem_of_app, list_elem_of_singleton;
      intros [?%token_lookup_not_conflict_check|?]; done.
  - (* all four pass *)
    assert (Hok : ¬ (s < Env.now env ∨ e ≤ s ∨ e - s > 28800000 ∨ e - s < 900000)).
    { revert Hval. unfold validateBookingTimes. repeat case_decide; try done; lia. }
    assert (Hconf : BookingFindConflicting room s e ∈
              calls_since w (fst
                match filter (conflicts_with room s e None) (World.bookings w) with
                | [] => createBooking_commit env data
                          (add_calls (cs ++ [RoomFindById room;
                                             BookingFindConflicting room s e]) w)
                | c :: _ =>
                    (World.mk (World.bookings w) (World.rooms w) (World.redis w)
                       (World.busConnected w)
                       (delivered (ROOM_UNAVAILABLE room s e (Booking.id c)
                                     (Env.now env)) w)
                       (World.calls w ++ cs ++
                          [RoomFindById room; BookingFindConflicting room s e;
                           EventEmit (ROOM_UNAVAILABLE room s e (Booking.id c)
                                        (Env.now env))]),
                     inl (RoomUnavailableError room s e))
                end)).
    { destruct (filter _ (World.bookings w)) as [|c rest].
      - rewrite commit_run. unfold commit_outcome.
        destruct (insert_violation _ _); simpl;
          (erewrite calls_since_app
             by (simpl; rewrite <- ?app_assoc; reflexivity));
          set_solver.
      - simpl. erewrite calls_since_app by reflexivity. set_solver. }
    destruct (filter _ (World.bookings w)) as [|c rest].
    + rewrite commit_run in *. unfold commit_outcome in *.
      destruct (insert_violation _ _); simpl in *;
        repeat split; intros; try done; try lia;
        try (by destruct Hok; lia).
      all: try match goal with
               | H : ∃ _, _ = inl _ |- _ => by destruct H as [? [=]]
               end.
      all: by destruct Hok.
    + simpl in *. repeat split; intros; try done; try lia;
        try (by destruct Hok; lia).
      all: try match goal with
               | H : ∃ _, _ = inl _ |- _ => by destruct H as [? [=]]
               end.
      all: by destruct Hok.
Qed.

(** ** The availability calculator *)

Lemma fold_left_visit_booked booked acc cursor :
  fold_left visit_booked booked (acc, cursor)
  = (acc ++ pushed cursor booked, cursor_after cursor booked).
Proof.
  revert acc cursor. induction booked as [|b rest IH]; intros acc cursor; simpl.
  - by rewrite app_nil_r.
  - rewrite IH. case_decide; by rewrite <- ?app_assoc.
Qed.

Lemma calculateAvailableSlots_unfold dayStart dayEnd booked :
  booked ≠ [] →
  calculateAvailableSlots dayStart dayEnd booked
  = pushed dayStart booked ++
    (if decide (cursor_after dayStart booked < dayEnd)
     then [slot (cursor_after dayStart booked) dayEnd] else []).
Proof.
  intros Hne. destruct booked as [|b rest]; [done|].
  unfold calculateAvailableSlots. rewrite fold_left_visit_booked.
  case_decide; by rewrite ?app_nil_r.
Qed.

Lemma spec_free_slots_unfold cursor windowEnd booked :
  spec_free_slots cursor windowEnd booked
  = pushed cursor booked ++
    (if decide (cursor_after cursor booked < windowEnd)
     then [slot (cursor_after cursor booked) windowEnd] else []).
Proof.
  revert cursor. induction booked as [|b rest IH]; intros cursor; simpl.
  - done.
  - by rewrite IH, app_assoc.
Qed.

Lemma calculateAvailableSlots_walk dayStart dayEnd booked :
  dayStart < dayEnd →
  calculateAvailableSlots dayStart dayEnd booked
  = spec_free_slots dayStart dayEnd booked.
Proof.
  intros Hlt. destruct booked as [|b rest].
  - simpl. by rewrite decide_True.
  - by rewrite calculateAvailableSlots_unfold, spec_free_slots_unfold.
Qed.

Lemma business_window tz date : businessStart tz date < businessEnd tz date.
Proof. unfold businessStart, businessEnd, setHours. lia. Qed.

(** C6.  On the 08:00-18:00 window of any day, [calculateAvailableSlots] is
    the cursor walk of the specification, whatever the booked intervals; with
    no booked interval the whole window is the one free slot; and with the
    single booking 10:00-14:00 on room R1, [getAvailability] returns the free
    slots 08:00-10:00 and 14:00-18:00 and the booked slot 10:00-14:00. *)
Theorem availability_is_cursor_walk tz date :
  (∀ booked,
     calculateAvailableSlots (businessStart tz date) (businessEnd tz date) booked
     = spec_free_slots (businessStart tz date) (businessEnd tz date) booked) ∧
  calculateAvailableSlots (businessStart tz date) (businessEnd tz date) []
  = [slot (setHours tz date 8 0 0 0) (setHours tz date 18 0 0 0)] ∧
  getAvailability tz "R1" date (world_of [booking_A tz date])
  = Some {| RoomAvailability.roomId := "R1";
            RoomAvailability.date := date;
            RoomAvailability.availableSlots :=
              [slot (setHours tz date 8 0 0 0) (setHours tz date 10 0 0 0);
               slot (setHours tz date 14 0 0 0) (setHours tz date 18 0 0 0)];
            RoomAvailability.bookedSlots :=
              [slot (setHours tz date 10 0 0 0) (setHours tz date 14 0 0 0)] |}.
Proof.
  split; [|split].
  - intros booked. apply calculateAvailableSlots_walk, business_window.
  - done.
  - unfold getAvailability, world_of. simpl.
    rewrite filter_cons_True
      by (unfold booked_on, booking_A, setHours; simpl; repeat split; try done; lia).
    rewrite filter_nil.
    change (merge_sort by_start_time [booking_A tz date]) with [booking_A tz date].
    simpl. unfold calculateAvailableSlots, businessStart, businessEnd. simpl.
    rewrite decide_True by (unfold setHours; lia).
    rewrite decide_True by (unfold setHours; lia).
    replace (setHours tz date 8 0 0 0 `max` setHours tz date 14 0 0 0)
      with (setHours tz date 14 0 0 0) by (unfold setHours; lia).
    done.
Qed.

Lemma cursor_after_ge cursor booked : cursor ≤ cursor_after cursor booked.
Proof.
  revert cursor. induction booked as [|b rest IH]; intros cursor; simpl; [lia|].
  specialize (IH (cursor `max` TimeSlot.endTime b)). lia.
Qed.

Lemma booked_ends_before_cursor cursor booked b :
  b ∈ booked → TimeSlot.endTime b ≤ cursor_after cursor booked.
Proof.
  revert cursor. induction booked as [|b0 rest IH]; intros cursor Hin; simpl.
  - by apply elem_of_nil in Hin.
  - apply elem_of_cons in Hin as [->|Hin].
    + pose proof (cursor_after_ge (cursor `max` TimeSlot.endTime b0) rest). lia.
    + by apply IH.
Qed.

Lemma pushed_starts_after_cursor cursor booked a :
  a ∈ pushed cursor booked → cursor ≤ TimeSlot.startTime a.
Proof.
  revert cursor. induction booked as [|b rest IH]; intros cursor Hin; simpl in Hin.
  - by apply elem_of_nil in Hin.
  - apply elem_of_app in Hin as [Hin|Hin].
    + case_decide; [|by apply elem_of_nil in Hin].
      apply list_elem_of_singleton in Hin as ->. simpl. lia.
    + apply IH in Hin. lia.
Qed.

(** No gap: every instant between the cursor and where the walk ends is in
    a pushed slot or in a booked one. *)
Lemma walk_covers cursor booked t :
  cursor ≤ t < cursor_after cursor booked →
  (∃ a, a ∈ pushed cursor booked ∧ in_slot t a) ∨
  (∃ b, b ∈ booked ∧ in_slot t b).
Proof.
  revert cursor. induction booked as [|b rest IH]; intros cursor Ht; simpl in *.
  - lia.
  - destruct (decide (cursor `max` TimeSlot.endTime b ≤ t)) as [Hge|Hlt].
    + destruct (IH _ (conj Hge (proj2 Ht))) as [(a & Ha & Hta)|(b' & Hb' & Htb)].
      * left. exists a. split; [|done]. apply elem_of_app. by right.
      * right. exists b'. split; [|done]. by apply elem_of_cons; right.
    + destruct (decide (t < TimeSlot.startTime b)) as [Hbefore|Hin].
      * left. exists (slot cursor (TimeSlot.startTime b)). split.
        -- apply elem_of_app. left. rewrite decide_True by lia.
           by apply list_elem_of_singleton.
        -- unfold in_slot. simpl. lia.
      * right. exists b. split; [by apply elem_of_cons; left|].
        unfold in_slot. lia.
Qed.

(** No overlap: when the booked intervals are sorted by start, a pushed slot
    meets no booked interval. *)
Lemma pushed_misses_booked cursor booked a b t :
  StronglySorted starts_before booked →
  a ∈ pushed cursor booked → b ∈ booked →
  in_slot t a → in_slot t b → False.
Proof.
  intros Hsorted. revert cursor.
  induction Hsorted as [|b0 rest Hrest IH Hle]; intros cursor Ha Hb Hta Htb.
  - by apply elem_of_nil in Hb.
  - simpl in Ha. apply elem_of_app in Ha as [Ha|Ha].
    + case_decide; [|by apply elem_of_nil in Ha].
      apply list_elem_of_singleton in Ha as ->.
      unfold in_slot in *. simpl in *.
      apply elem_of_cons in Hb as [->|Hb]; [lia|].
      rewrite Forall_forall in Hle. apply Hle in Hb.
      unfold starts_before in Hb. lia.
    + apply elem_of_cons in Hb as [->|Hb].
      * apply pushed_starts_after_cursor in Ha. unfold in_slot in *. lia.
      * by eapply IH.
Qed.

Lemma in_slot_clip windowStart windowEnd s t :
  in_slot t (clip windowStart windowEnd s)
  ↔ windowStart ≤ t < windowEnd ∧ in_slot t s.
Proof. unfold in_slot, clip. simpl. lia. Qed.

#[local] Instance starts_before_trans : Transitive starts_before.
Proof. unfold starts_before. intros a b c. lia. Qed.

(** What [calculateAvailableSlots] returns: no gap in the window, and no
    instant shared with a booked interval; sortedness is all it takes. *)
Lemma calculateAvailableSlots_complement dayStart dayEnd booked :
  Sorted starts_before booked →
  let available := calculateAvailableSlots dayStart dayEnd booked in
  (∀ t, dayStart ≤ t < dayEnd →
        (∃ a, a ∈ available ∧ in_slot t a) ∨ (∃ b, b ∈ booked ∧ in_slot t b)) ∧
  (∀ a b t, a ∈ available → b ∈ booked → in_slot t a → in_slot t b → False).
Proof.
  intros Hsorted%Sorted_StronglySorted; [|apply _]. cbv zeta.
  destruct (decide (booked = [])) as [->|Hne].
  - simpl. split.
    + intros t Ht. left. exists (slot dayStart dayEnd). split; [|done].
      by apply list_elem_of_singleton.
    + intros a b t _ Hb. by apply elem_of_nil in Hb.
  - rewrite calculateAvailableSlots_unfold by done. split.
    + intros t Ht.
      destruct (decide (t < cursor_after dayStart booked)) as [Hlt|Hge].
      * destruct (walk_covers dayStart booked t) as [(a & Ha & Hta)|?];
          [lia| |by right].
        left. exists a. split; [|done]. apply elem_of_app. by left.
      * left. exists (slot (cursor_after dayStart booked) dayEnd). split.
        -- apply elem_of_app. right. rewrite decide_True by lia.
           by apply list_elem_of_singleton.
        -- unfold in_slot. simpl. lia.
    + intros a b t Ha Hb Hta Htb. apply elem_of_app in Ha as [Ha|Ha].
      * by eapply pushed_misses_booked.
      * case_decide; [|by apply elem_of_nil in Ha].
        apply list_elem_of_singleton in Ha as ->.
        pose proof (booked_ends_before_cursor dayStart booked b Hb).
        unfold in_slot in *. simpl in *. lia.
Qed.

(** C7.  For booked intervals sorted by start and pairwise non-overlapping,
    the available slots computed for a window and the booked slots, each
    clipped to the window, make up the window exactly: an instant is in the
    window if and only if it is in one of the clipped slots, and no instant
    is in both a clipped available slot and a clipped booked slot. *)
Theorem availability_round_trip windowStart windowEnd booked :
  Sorted starts_before booked →
  pairwise_disjoint booked →
  let available := calculateAvailableSlots windowStart windowEnd booked in
  let clipped_available := clip windowStart windowEnd <$> available in
  let clipped_booked := clip windowStart windowEnd <$> booked in
  (∀ t, windowStart ≤ t < windowEnd ↔
        ∃ s, s ∈ clipped_available ++ clipped_booked ∧ in_slot t s) ∧
  (∀ a b t, a ∈ clipped_available → b ∈ clipped_booked →
            ¬ (in_slot t a ∧ in_slot t b)).
Proof.
  intros Hsorted _. cbv zeta.
  destruct (calculateAvailableSlots_complement windowStart windowEnd booked Hsorted)
    as [Hcover Hmiss].
  split.
  - intros t. split.
    + intros Ht. destruct (Hcover t Ht) as [(a & Ha & Hta)|(b & Hb & Htb)].
      * exists (clip windowStart windowEnd a). split.
        -- apply elem_of_app. left. apply list_elem_of_fmap. eauto.
        -- by apply in_slot_clip.
      * exists (clip windowStart windowEnd b). split.
        -- apply elem_of_app. right. apply list_elem_of_fmap. eauto.
        -- by apply in_slot_clip.
    + intros (s & Hs & Hts).
      apply elem_of_app in Hs as [Hs|Hs];
        apply list_elem_of_fmap in Hs as (s' & -> & _);
        by apply in_slot_clip in Hts as [? _].
  - intros a b t Ha Hb [Hta Htb].
    apply list_elem_of_fmap in Ha as (a' & -> & Ha).
    apply list_elem_of_fmap in Hb as (b' & -> & Hb).
    apply in_slot_clip in Hta as [_ Hta]. apply in_slot_clip in Htb as [_ Htb].
    by eapply Hmiss.
Qed.

(** ** [getBooking] and [cancelBooking] *)

Lemma getBooking_run env id w :
  getBooking env id w = getBooking_outcome env id w.
Proof.
  unfold getBooking, getBooking_outcome. unfold_ports. unfold_monad.
  destruct w as [rows rooms redis bus exchange calls]. simpl.
  destruct (as_booking _) as [cached|]; [done|]. simpl.
  destruct (head (filter _ rows)) as [b|]; simpl;
    unfold add_calls, World.log, World.set_redis; simpl;
    by rewrite <- ?app_assoc.
Qed.

Lemma filter_update_rows now id p rows :
  filter (λ b, Booking.id b = id) (update_rows now id p rows)
  = apply_patch now p <$> filter (λ b, Booking.id b = id) rows.
Proof.
  unfold update_rows. induction rows as [|b rest IH]; [done|].
  rewrite fmap_cons. destruct (decide (Booking.id b = id)) as [Heq|Hne].
  - rewrite !filter_cons_True by done. by rewrite fmap_cons, IH.
  - by rewrite !filter_cons_False.
Qed.

Lemma cancelBooking_run env id reason w :
  cancelBooking env id reason w = cancelBooking_outcome env id reason w.
Proof.
  unfold cancelBooking, cancelBooking_outcome. unfold_ports. unfold_monad.
  destruct w as [rows rooms redis bus exchange calls]. simpl.
  destruct (head (filter _ rows)) as [b|] eqn:Hfound; [|done]. simpl.
  case_decide; [done|]. simpl.
  rewrite filter_update_rows.
  apply head_Some in Hfound as [rest Hrows]. rewrite Hrows. simpl.
  unfold delivered. destruct bus; simpl;
    unfold add_calls, World.log, World.set_redis, World.set_exchange,
      World.set_bookings; simpl;
    by rewrite <- ?app_assoc.
Qed.

Lemma redis_read_hit now key db v expiresAt :
  db !! key = Some (CacheEntry.mk v expiresAt) → now < expiresAt →
  redis_read now key (Some db) = Some v.
Proof. intros Hk Hlt. unfold redis_read. rewrite Hk. simpl. by rewrite decide_True. Qed.

Lemma redis_read_expired now key db v expiresAt :
  db !! key = Some (CacheEntry.mk v expiresAt) → expiresAt ≤ now →
  redis_read now key (Some db) = None.
Proof.
  intros Hk Hle. unfold redis_read. rewrite Hk. simpl. by rewrite decide_False by lia.
Qed.

Lemma redis_read_del now key r : redis_read now key (redis_del key r) = None.
Proof.
  destruct r as [db|]; [|done]. unfold redis_read, redis_del. simpl.
  by rewrite lookup_delete_eq.
Qed.

Lemma redis_read_setex now now' key ttl v db :
  0 < ttl → now' < now + ttl * 1000 →
  redis_read now' key (redis_setex now key ttl v (Some db)) = Some v.
Proof.
  intros Httl Hnow. unfold redis_setex. rewrite decide_True by done.
  eapply redis_read_hit; [apply lookup_insert_eq|done].
Qed.

(** C9.  [getBooking] is cache-aside.  While the cache holds an unexpired
    booking under [booking:<id>], that value is returned and the only call
    made is the cache read, whatever the table of bookings holds (so a value
    made stale by a change of the table is still returned); the entry stops
    being read once it has expired or has been deleted.  On a miss the
    booking is fetched from the table: absent, the call fails with
    [BookingNotFoundError] (HTTP 404); present, it is written to the cache
    under the same key with the TTL [cache.ttl] and returned. *)
Theorem getBooking_cache_aside env id w :
  let key := "booking:" +:+ id in
  let now := Env.now env in
  let ttl := Config.cache_ttl (Env.config env) in
  (∀ db cached expiresAt rows,
     World.redis w = Some db →
     db !! key = Some (CacheEntry.mk (JBooking cached) expiresAt) →
     now < expiresAt →
     getBooking env id (World.set_bookings rows w)
     = (add_calls [CacheGet key] (World.set_bookings rows w), inr cached)) ∧
  (∀ db v expiresAt,
     World.redis w = Some db → db !! key = Some (CacheEntry.mk v expiresAt) →
     expiresAt ≤ now → redis_read now key (World.redis w) = None) ∧
  redis_read now key (redis_del key (World.redis w)) = None ∧
  (redis_read now key (World.redis w) = None →
   head (filter (λ b, Booking.id b = id) (World.bookings w)) = None →
   getBooking env id w
   = (add_calls [CacheGet key; BookingFindById id] w,
      inl (BookingNotFoundError id))) ∧
  (∀ booking,
     redis_read now key (World.redis w) = None →
     head (filter (λ b, Booking.id b = id) (World.bookings w)) = Some booking →
     let w' := fst (getBooking env id w) in
     snd (getBooking env id w) = inr booking ∧
     calls_since w w' = [CacheGet key; BookingFindById id;
                         CacheSet key (JBooking booking) ttl] ∧
     World.redis w' = redis_setex now key ttl (JBooking booking) (World.redis w) ∧
     World.bookings w' = World.bookings w ∧
     World.exchange w' = World.exchange w ∧
     (∀ db later, World.redis w = Some db → 0 < ttl → later < now + ttl * 1000 →
                  redis_read later key (World.redis w') = Some (JBooking booking))) ∧
  mapDomainError (BookingNotFoundError id) = (404, "BOOKING_NOT_FOUND"%string).
Proof.
  cbv zeta. split; [|split; [|split; [|split; [|split]]]]; [| | | | |done].
  - intros db cached expiresAt rows Hdb Hkey Hlive.
    rewrite getBooking_run. unfold getBooking_outcome. simpl.
    by rewrite Hdb, (redis_read_hit _ _ _ _ _ Hkey Hlive).
  - intros db v expiresAt Hdb Hkey Hexp. rewrite Hdb.
    by eapply redis_read_expired.
  - apply redis_read_del.
  - intros Hmiss Habsent. rewrite getBooking_run. unfold getBooking_outcome.
    by rewrite Hmiss, Habsent.
  - intros booking Hmiss Hfound.
    rewrite getBooking_run. unfold getBooking_outcome.
    rewrite Hmiss, Hfound. simpl. repeat split.
    + by apply calls_since_app.
    + intros db later Hdb Httl Hlater. rewrite Hdb. by apply redis_read_setex.
Qed.



(** C10.  A successful [cancelBooking] leaves the number and the order of
    the rows unchanged; in a row with the cancelled id only [status],
    [cancelledAt] and [updatedAt] change, the other nine fields keep their
    values; every row with another id is unchanged, and so is the table of
    rooms. *)
Theorem cancelBooking_frame env id reason w w' updated :
  cancelBooking env id reason w = (w', inr updated) →
  let same_identity (b b' : Booking.t) :=
    Booking.id b' = Booking.id b ∧
    Booking.roomId b' = Booking.roomId b ∧
    Booking.userId b' = Booking.userId b ∧
    Booking.title b' = Booking.title b ∧
    Booking.description b' = Booking.description b ∧
    Booking.startTime b' = Booking.startTime b ∧
    Booking.endTime b' = Booking.endTime b ∧
    Booking.idempotencyKey b' = Booking.idempotencyKey b ∧
    Booking.createdAt b' = Booking.createdAt b in
  (∃ b, head (filter (λ b, Booking.id b = id) (World.bookings w)) = Some b ∧
        Booking.status b ≠ CANCELLED ∧
        same_identity b updated ∧
        Booking.status updated = CANCELLED ∧
        Booking.cancelledAt updated = Some (Env.now env) ∧
        Booking.updatedAt updated = Env.now env) ∧
  length (World.bookings w') = length (World.bookings w) ∧
  (∀ i b, World.bookings w !! i = Some b →
          ∃ b', World.bookings w' !! i = Some b' ∧
                same_identity b b' ∧
                (Booking.id b ≠ id → b' = b)) ∧
  World.rooms w' = World.rooms w.
Proof.
  rewrite cancelBooking_run. unfold cancelBooking_outcome.
  destruct (head (filter _ (World.bookings w))) as [b|] eqn:Hfound; [|done].
  case_decide as Hst; [done|]. intros [= <- <-]. cbv zeta. simpl.
  split; [|split; [|split]]; [| | |done].
  - exists b. by repeat split.
  - unfold update_rows. by rewrite length_fmap.
  - intros i b0 Hi. unfold update_rows. rewrite list_lookup_fmap, Hi. simpl.
    eexists. split; [done|]. case_decide; [|done].
    by repeat split.
Qed.

(** ** What the operations do to the table and to the cache *)

Lemma createBooking_effect env data w :
  let room := CreateBookingData.roomId data in
  let s := CreateBookingData.startTime data in
  let e := CreateBookingData.endTime data in
  let row := new_row env data in
  let w' := fst (createBooking env data w) in
  let result := snd (createBooking env data w) in
  (World.bookings w' = World.bookings w ∧ World.redis w' = World.redis w ∧
   World.rooms w' = World.rooms w ∧
   ((∃ b, result = inr b ∧ replayed env data w = Some b ∧
          World.exchange w' = World.exchange w ∧
          Forall is_token_lookup (calls_since w w')) ∨
    (∃ err, result = inl err ∧ replayed env data w = None)))
  ∨
  (replayed env data w = None ∧
   validateBookingTimes env s e = inr tt ∧
   filter (conflicts_with room s e None) (World.bookings w) = [] ∧
   insert_violation row w = None ∧
   result = inr row ∧
   World.bookings w' = World.bookings w ++ [row] ∧
   World.rooms w' = World.rooms w ∧
   World.redis w'
   = redis_setex (Env.now env) ("booking:" +:+ Booking.id row)
       (Config.cache_ttl (Env.config env)) (JBooking row)
       match truthy (CreateBookingData.idempotencyKey data) with
       | Some k => redis_setex (Env.now env) ("idempotency:" +:+ k)
                     (Config.cache_idempotencyTtl (Env.config env))
                     (JString (Booking.id row)) (World.redis w)
       | None => World.redis w
       end).
Proof.
  cbv zeta. destruct (admission_run env data w) as (cs & Hcs & Hadm).
  rewrite createBooking_run, Hadm. unfold admission_outcome.
  destruct (replayed env data w) as [b|] eqn:Hreplayed.
  { left. simpl. repeat split; try done. left. exists b. repeat split; try done.
    by erewrite calls_since_app by reflexivity. }
  destruct (head (filter _ (World.rooms w))) as [r|].
  2:{ left. simpl. repeat split; try done. right. eauto. }
  destruct (validateBookingTimes env _ _) as [err|[]] eqn:Hvalid.
  { left. simpl. repeat split; try done. right. eauto. }
  destruct (filter _ (World.bookings w)) as [|c rest] eqn:Hconflicts.
  2:{ left. simpl. repeat split; try done. right. eauto. }
  rewrite commit_run. unfold commit_outcome.
  match goal with
  | |- context [insert_violation ?row (add_calls ?cs ?w)] =>
      change (insert_violation row (add_calls cs w)) with (insert_violation row w)
  end.
  destruct (insert_violation (new_row env data) w) as [c|] eqn:Hviolation.
  { left. simpl. repeat split; try done. right. eauto. }
  right. simpl. by repeat split.
Qed.

Lemma getBooking_effect env id w :
  let w' := fst (getBooking env id w) in
  World.bookings w' = World.bookings w ∧
  (World.redis w' = World.redis w ∨
   ∃ b, World.redis w'
        = redis_setex (Env.now env) ("booking:" +:+ id)
            (Config.cache_ttl (Env.config env)) (JBooking b) (World.redis w)).
Proof.
  cbv zeta. rewrite getBooking_run. unfold getBooking_outcome.
  destruct (as_booking _); [by split; [|left]|].
  destruct (head _); simpl; split; eauto.
Qed.

Lemma getBookings_effect filter w :
  let w' := fst (getBookings filter w) in
  World.bookings w' = World.bookings w ∧ World.redis w' = World.redis w.
Proof. done. Qed.

Lemma cancelBooking_effect env id reason w :
  let w' := fst (cancelBooking env id reason w) in
  (World.bookings w' = World.bookings w ∧ World.redis w' = World.redis w) ∨
  (World.bookings w'
   = update_rows (Env.now env) id (cancellation env) (World.bookings w) ∧
   World.redis w' = redis_del ("booking:" +:+ id) (World.redis w)).
Proof.
  cbv zeta. rewrite cancelBooking_run. unfold cancelBooking_outcome.
  destruct (head _); [|by left]. case_decide; [by left|by right].
Qed.

(** ** Cache keys *)

Lemma idempotency_key_inj k1 k2 :
  "idempotency:" +:+ k1 = "idempotency:" +:+ k2 → k1 = k2.
Proof. cbv [String.append]. congruence. Qed.

Lemma booking_key_ne_idempotency_key i k :
  "booking:" +:+ i ≠ "idempotency:" +:+ k.
Proof. cbv [String.append]. congruence. Qed.

Lemma cache_sound_rows rows rows' r :
  (∀ b, b ∈ rows → ∃ b', b' ∈ rows' ∧ Booking.id b' = Booking.id b ∧
                         Booking.idempotencyKey b' = Booking.idempotencyKey b) →
  cache_sound rows r → cache_sound rows' r.
Proof.
  intros Hrows Hsound db key e i Hr Hkey Hval.
  destruct (Hsound db key e i Hr Hkey Hval) as (b & Hb & Hid & Htok).
  destruct (Hrows b Hb) as (b' & Hb' & Hid' & Htok').
  exists b'. repeat split; congruence.
Qed.

Lemma cache_sound_setex_booking rows r now i ttl v :
  cache_sound rows r → cache_sound rows (redis_setex now ("booking:" +:+ i) ttl v r).
Proof.
  intros Hsound db key e j Hr Hkey Hval. unfold redis_setex in Hr.
  destruct r as [db0|]; [|done]. case_decide; simplify_eq.
  - rewrite lookup_insert_ne in Hkey by apply booking_key_ne_idempotency_key.
    by eapply Hsound.
  - by eapply Hsound.
Qed.

Lemma cache_sound_setex_idempotency rows r now k ttl i :
  (∃ b, b ∈ rows ∧ Booking.id b = i ∧ Booking.idempotencyKey b = Some k) →
  cache_sound rows r →
  cache_sound rows (redis_setex now ("idempotency:" +:+ k) ttl (JString i) r).
Proof.
  intros Hrow Hsound db key e j Hr Hkey Hval. unfold redis_setex in Hr.
  destruct r as [db0|]; [|done]. case_decide; simplify_eq.
  - destruct (decide (k = key)) as [->|Hne].
    + rewrite lookup_insert_eq in Hkey. simplify_eq. simpl in Hval.
      by simplify_eq.
    + rewrite lookup_insert_ne in Hkey
        by (intros Heq%idempotency_key_inj; done).
      by eapply Hsound.
  - by eapply Hsound.
Qed.

Lemma cache_sound_del rows r key :
  cache_sound rows r → cache_sound rows (redis_del key r).
Proof.
  intros Hsound db k e j Hr Hkey Hval. destruct r as [db0|]; [|done].
  simpl in Hr. simplify_eq. apply lookup_delete_Some in Hkey as [_ Hkey].
  by eapply Hsound.
Qed.

Lemma cache_sound_subseteq rows db db' :
  db' ⊆ db → cache_sound rows (Some db) → cache_sound rows (Some db').
Proof.
  intros Hsub Hsound db0 k e j [= <-] Hkey Hval.
  eapply Hsound; [done| |done]. by eapply lookup_weaken.
Qed.

(** ** Rows: uniqueness and exclusivity *)

Lemma update_rows_ids now id p rows :
  Booking.id <$> update_rows now id p rows = Booking.id <$> rows.
Proof.
  unfold update_rows. rewrite <- list_fmap_compose. apply list_fmap_ext.
  intros i b _. simpl. by case_decide.
Qed.

Lemma update_rows_tokens now id p rows :
  omap Booking.idempotencyKey (update_rows now id p rows)
  = omap Booking.idempotencyKey rows.
Proof.
  unfold update_rows. induction rows as [|b rest IH]; [done|]. csimpl.
  rewrite IH. by case_decide.
Qed.

Lemma update_rows_lookup now id env rows i b' :
  update_rows now id (cancellation env) rows !! i = Some b' →
  ∃ b, rows !! i = Some b ∧
       Booking.id b' = Booking.id b ∧
       Booking.roomId b' = Booking.roomId b ∧
       Booking.startTime b' = Booking.startTime b ∧
       Booking.endTime b' = Booking.endTime b ∧
       Booking.idempotencyKey b' = Booking.idempotencyKey b ∧
       (Booking.status b' ≠ CANCELLED → b' = b).
Proof.
  unfold update_rows. rewrite list_lookup_fmap.
  destruct (rows !! i) as [b|]; [|done]. simpl. intros [= <-].
  exists b. case_decide; by repeat split.
Qed.

Lemma update_rows_elem_of now id p rows b :
  b ∈ rows →
  ∃ b', b' ∈ update_rows now id p rows ∧ Booking.id b' = Booking.id b ∧
        Booking.idempotencyKey b' = Booking.idempotencyKey b.
Proof.
  intros Hb. unfold update_rows.
  eexists. split; [apply list_elem_of_fmap; eauto|]. by case_decide.
Qed.

Lemma unique_by_id rows b1 b2 :
  NoDup (Booking.id <$> rows) → b1 ∈ rows → b2 ∈ rows →
  Booking.id b1 = Booking.id b2 → b1 = b2.
Proof.
  induction rows as [|b rest IH]; intros Hnd H1 H2 Heq.
  - by apply elem_of_nil in H1.
  - rewrite fmap_cons in Hnd. apply NoDup_cons in Hnd as [Hfresh Hnd].
    apply elem_of_cons in H1 as [->|H1]; apply elem_of_cons in H2 as [->|H2].
    + done.
    + destruct Hfresh. rewrite Heq. apply list_elem_of_fmap. eauto.
    + destruct Hfresh. rewrite <- Heq. apply list_elem_of_fmap. eauto.
    + by apply IH.
Qed.

Lemma unique_by_token rows b1 b2 key :
  NoDup (omap Booking.idempotencyKey rows) → b1 ∈ rows → b2 ∈ rows →
  Booking.idempotencyKey b1 = Some key → Booking.idempotencyKey b2 = Some key →
  b1 = b2.
Proof.
  induction rows as [|b rest IH]; intros Hnd H1 H2 Hk1 Hk2.
  - by apply elem_of_nil in H1.
  - simpl in Hnd.
    assert (Hrest : NoDup (omap Booking.idempotencyKey rest)).
    { destruct (Booking.idempotencyKey b); [by apply NoDup_cons in Hnd as [_ ?]|done]. }
    assert (Hfresh : Booking.idempotencyKey b = Some key →
                     ∀ b', b' ∈ rest → Booking.idempotencyKey b' ≠ Some key).
    { intros Hb b' Hb' Hk'. rewrite Hb in Hnd. apply NoDup_cons in Hnd as [Hnotin _].
      apply Hnotin. apply list_elem_of_omap. eauto. }
    apply elem_of_cons in H1 as [->|H1]; apply elem_of_cons in H2 as [->|H2].
    + done.
    + by destruct (Hfresh Hk1 b2 H2).
    + by destruct (Hfresh Hk2 b1 H1).
    + by eapply IH.
Qed.

Lemma insert_violation_None row w :
  insert_violation row w = None →
  (Booking.id row ∉ Booking.id <$> World.bookings w) ∧
  (∀ key, Booking.idempotencyKey row = Some key →
          ∀ b, b ∈ World.bookings w → Booking.idempotencyKey b ≠ Some key) ∧
  Booking.roomId row ∈ Room.id <$> World.rooms w.
Proof.
  unfold insert_violation. repeat case_decide; try done. intros _.
  repeat split; try done.
  intros key Hkey b Hb Hbk.
  match goal with H : ¬ (_ ∧ _) |- _ => apply H end.
  split; [by rewrite Hkey|]. rewrite Hkey, <- Hbk. apply list_elem_of_fmap. eauto.
Qed.

Lemma meet_passes_overlap_test s e b :
  (∃ t, s ≤ t < e ∧ Booking.startTime b ≤ t < Booking.endTime b) →
  Booking.startTime b < e ∧ Booking.endTime b > s.
Proof. intros (t & Hreq & Hb). lia. Qed.

Lemma no_double_booking_insert rows env data :
  no_double_booking rows →
  filter (conflicts_with (CreateBookingData.roomId data)
                         (CreateBookingData.startTime data)
                         (CreateBookingData.endTime data) None) rows = [] →
  no_double_booking (rows ++ [new_row env data]).
Proof.
  intros Hinv Hnone.
  assert (Hfree : ∀ b, b ∈ rows →
            Booking.roomId b = CreateBookingData.roomId data →
            Booking.status b ≠ CANCELLED →
            ¬ intervals_meet b (new_row env data)).
  { intros b Hb Hroom Hlive (t & Hbt & Hrt). simpl in Hrt.
    assert (Hin : b ∈ filter (conflicts_with (CreateBookingData.roomId data)
                     (CreateBookingData.startTime data)
                     (CreateBookingData.endTime data) None) rows).
    { apply list_elem_of_filter. split; [|done].
      unfold conflicts_with. simpl. repeat split; try done; lia. }
    rewrite Hnone in Hin. by apply elem_of_nil in Hin. }
  intros i j b1 b2 Hij H1 H2 Hroom Hl1 Hl2 Hmeet.
  apply lookup_app_Some in H1 as [H1|[Hi H1]];
    apply lookup_app_Some in H2 as [H2|[Hj H2]].
  - by eapply (Hinv i j).
  - apply list_lookup_singleton_Some in H2 as [_ <-].
    eapply Hfree; [by eapply list_elem_of_lookup_2|done|done|done].
  - apply list_lookup_singleton_Some in H1 as [_ <-].
    eapply (Hfree b2); [by eapply list_elem_of_lookup_2|done|done|].
    destruct Hmeet as (t & ? & ?). by exists t.
  - apply list_lookup_singleton_Some in H1 as [? _].
    apply list_lookup_singleton_Some in H2 as [? _]. lia.
Qed.

Lemma no_double_booking_cancel rows now id env :
  no_double_booking rows →
  no_double_booking (update_rows now id (cancellation env) rows).
Proof.
  intros Hinv i j b1' b2' Hij H1 H2 Hroom Hl1 Hl2 Hmeet.
  apply update_rows_lookup in H1 as (b1 & H1 & _ & _ & _ & _ & _ & Hsame1).
  apply update_rows_lookup in H2 as (b2 & H2 & _ & _ & _ & _ & _ & Hsame2).
  pose proof (Hsame1 Hl1) as ->. pose proof (Hsame2 Hl2) as ->.
  by eapply (Hinv i j).
Qed.

(** ** Every reachable state is consistent *)

Lemma consistent_same_store w w' :
  World.bookings w' = World.bookings w → World.redis w' = World.redis w →
  consistent w → consistent w'.
Proof. intros Hb Hr [? ? ? ? ?]. split; rewrite ?Hb, ?Hr; done. Qed.

Lemma consistent_initial w : initial w → consistent w.
Proof.
  intros [Hrows Hcache]. split; rewrite ?Hrows.
  - constructor.
  - constructor.
  - intros db key e i Hdb Hkey _. destruct Hcache as [Hc|Hc]; rewrite Hc in Hdb.
    + done.
    + by simplify_eq.
  - intros b Hb. by apply elem_of_nil in Hb.
  - intros i j b1 b2 _ H1. by rewrite lookup_nil in H1.
Qed.

Lemma validateBookingTimes_inr env s e :
  validateBookingTimes env s e = inr tt →
  Env.now env ≤ s ∧ 900000 ≤ e - s ≤ 28800000.
Proof. unfold validateBookingTimes. repeat case_decide; try done. lia. Qed.

Lemma consistent_createBooking env data w :
  consistent w → consistent (fst (createBooking env data w)).
Proof.
  intros Hw.
  destruct (createBooking_effect env data w)
    as [(Hb & Hr & _)|(_ & Hvalid & Hfree & Hins & _ & Hb & _ & Hr)].
  { by eapply consistent_same_store. }
  destruct Hw as [Hids Htokens Hcache Hvalid_rows Hexcl].
  apply insert_violation_None in Hins as (Hfresh & Htoken & _).
  apply validateBookingTimes_inr in Hvalid.
  split; rewrite ?Hb, ?Hr.
  - rewrite fmap_app. apply NoDup_app. repeat split; [done| |apply NoDup_singleton].
    intros i Hi ->%list_elem_of_singleton. done.
  - rewrite omap_app. apply NoDup_app. split; [done|]. csimpl.
    destruct (truthy (CreateBookingData.idempotencyKey data)) as [k|] eqn:Hk;
      simpl; [|split; [by intros ? ? ?%elem_of_nil|constructor]].
    split; [|apply NoDup_singleton].
    intros k' Hk' ->%list_elem_of_singleton.
    apply list_elem_of_omap in Hk' as (b & Hb' & Hbk).
    by eapply (Htoken k).
  - apply cache_sound_setex_booking.
    assert (Hgrow : cache_sound (World.bookings w ++ [new_row env data])
                                (World.redis w)).
    { eapply cache_sound_rows; [|done]. intros b Hb'. exists b.
      split; [|done]. apply elem_of_app. by left. }
    destruct (truthy (CreateBookingData.idempotencyKey data)) as [k|] eqn:Hk;
      [|done].
    apply cache_sound_setex_idempotency; [|done].
    exists (new_row env data). split; [|done].
    apply elem_of_app. right. by apply list_elem_of_singleton.
  - intros b [Hb'|Hnew]%elem_of_app; [by apply Hvalid_rows|].
    apply list_elem_of_singleton in Hnew as ->. simpl. lia.
  - by apply no_double_booking_insert.
Qed.

Lemma consistent_getBooking env id w :
  consistent w → consistent (fst (getBooking env id w)).
Proof.
  intros Hw. destruct (getBooking_effect env id w) as [Hb [Hr|[b Hr]]].
  { by eapply consistent_same_store. }
  destruct Hw as [? ? Hcache ? ?]. split; rewrite ?Hb, ?Hr; try done.
  by apply cache_sound_setex_booking.
Qed.

Lemma consistent_cancelBooking env id reason w :
  consistent w → consistent (fst (cancelBooking env id reason w)).
Proof.
  intros Hw. destruct (cancelBooking_effect env id reason w) as [[Hb Hr]|[Hb Hr]].
  { by eapply consistent_same_store. }
  destruct Hw as [Hids Htokens Hcache Hvalid Hexcl]. split; rewrite ?Hb, ?Hr.
  - by rewrite update_rows_ids.
  - by rewrite update_rows_tokens.
  - apply cache_sound_del. eapply cache_sound_rows; [|done].
    intros b Hb'. by apply update_rows_elem_of.
  - intros b' (i & Hi)%list_elem_of_lookup_1.
    apply update_rows_lookup in Hi as (b & Hi & _ & _ & -> & -> & _).
    eapply Hvalid, list_elem_of_lookup_2, Hi.
  - by apply no_double_booking_cancel.
Qed.

Lemma consistent_perform env op w : consistent w → consistent (perform env op w).
Proof.
  destruct op; simpl.
  - apply consistent_createBooking.
  - apply consistent_getBooking.
  - by apply consistent_same_store.
  - apply consistent_cancelBooking.
Qed.

Lemma reachable_consistent w : reachable w → consistent w.
Proof.
  induction 1 as [w Hinit|env op w _ IH|w db db' _ IH Hdb Hsub].
  - by apply consistent_initial.
  - by apply consistent_perform.
  - destruct IH as [? ? Hcache ? ?]. split; try done. simpl.
    rewrite Hdb in Hcache. by eapply cache_sound_subseteq.
Qed.

(** ** Resolving an idempotency key *)

Lemma head_filter_unique {A} (P : A → Prop) `{!∀ x, Decision (P x)} (l : list A) a :
  a ∈ l → P a → (∀ x, x ∈ l → P x → x = a) → head (filter P l) = Some a.
Proof.
  intros Ha HPa Huniq.
  destruct (filter P l) as [|x rest] eqn:Hf.
  - assert (a ∈ filter P l) as Hin by (by apply list_elem_of_filter).
    rewrite Hf in Hin. by apply elem_of_nil in Hin.
  - simpl. f_equal.
    assert (x ∈ filter P l) as [HPx Hx]%list_elem_of_filter
      by (rewrite Hf; apply elem_of_cons; by left).
    by apply Huniq.
Qed.

Lemma filter_unique {A} (P : A → Prop) `{!∀ x, Decision (P x)} (l : list A) a :
  NoDup l → a ∈ l → P a → (∀ x, x ∈ l → P x → x = a) → filter P l = [a].
Proof.
  intros Hnd Ha HPa Huniq.
  assert (Hall : ∀ x, x ∈ filter P l → x = a).
  { intros x [? ?]%list_elem_of_filter. by apply Huniq. }
  assert (Hnd' : NoDup (filter P l)) by by apply NoDup_filter.
  assert (Hin : a ∈ filter P l) by by apply list_elem_of_filter.
  destruct (filter P l) as [|x [|y rest]].
  - by apply elem_of_nil in Hin.
  - f_equal. apply Hall. by apply elem_of_cons; left.
  - assert (x = a) as -> by (apply Hall, elem_of_cons; by left).
    assert (y = a) as ->
      by (apply Hall, elem_of_cons; right; apply elem_of_cons; by left).
    apply NoDup_cons in Hnd' as [Hnot _]. destruct Hnot. by apply elem_of_cons; left.
Qed.

Lemma redis_read_Some now key r v :
  redis_read now key r = Some v →
  ∃ db e, r = Some db ∧ db !! key = Some e ∧ CacheEntry.value e = v.
Proof.
  unfold redis_read. destruct r as [db|]; [|done].
  destruct (db !! key) as [e|] eqn:He; [|done]. case_decide; [|done].
  intros [= <-]. by exists db, e.
Qed.

Lemma truthy_Some o s : truthy o = Some s → o = Some s ∧ s ≠ ""%string.
Proof. destruct o as [x|]; [|done]. simpl. case_decide; [done|]. by intros [= ->]. Qed.

Lemma truthy_nonempty s : s ≠ ""%string → truthy (Some s) = Some s.
Proof. intros Hs. simpl. by rewrite decide_False. Qed.

Lemma as_string_Some v s : as_string v = Some s → v = Some (JString s).
Proof. destruct v as [[]|]; simpl; congruence. Qed.

Lemma lookup_token_unfold env key w :
  lookup_token env key w =
    match truthy (as_string (redis_read (Env.now env) ("idempotency:" +:+ key)
                                        (World.redis w))) with
    | Some i => head (filter (λ b, Booking.id b = i) (World.bookings w))
    | None => head (filter (λ b, Booking.idempotencyKey b = Some key)
                           (World.bookings w))
    end.
Proof.
  unfold lookup_token, checkIdempotency. unfold_ports. unfold_monad.
  destruct w as [rows rooms redis bus exchange calls]. simpl.
  by destruct (truthy (as_string _)).
Qed.

(** In a consistent state a consumed key resolves to the row that carries
    it, through the cache entry or through the unique column. *)
Lemma lookup_token_resolves env key w b :
  consistent w → b ∈ World.bookings w → Booking.idempotencyKey b = Some key →
  lookup_token env key w = Some b.
Proof.
  intros [Hids Htokens Hcache _ _] Hb Hkey. rewrite lookup_token_unfold.
  destruct (truthy (as_string _)) as [i|] eqn:Hcached.
  - apply truthy_Some in Hcached as [Hcached%as_string_Some _].
    apply redis_read_Some in Hcached as (db & e & Hdb & He & Hval).
    destruct (Hcache db key e i Hdb He Hval) as (b' & Hb' & Hid' & Hkey').
    assert (b' = b) as -> by by eapply unique_by_token.
    apply head_filter_unique; [done..|].
    intros x Hx Hxi. eapply unique_by_id; [done..|congruence].
  - apply head_filter_unique; [done..|].
    intros x Hx Hxk. by eapply unique_by_token.
Qed.

Lemma lookup_token_sound env key w b :
  consistent w → lookup_token env key w = Some b →
  b ∈ World.bookings w ∧ Booking.idempotencyKey b = Some key.
Proof.
  intros [Hids Htokens Hcache _ _]. rewrite lookup_token_unfold.
  destruct (truthy (as_string _)) as [i|] eqn:Hcached.
  - apply truthy_Some in Hcached as [Hcached%as_string_Some _].
    apply redis_read_Some in Hcached as (db & e & Hdb & He & Hval).
    destruct (Hcache db key e i Hdb He Hval) as (b' & Hb' & Hid' & Hkey').
    intros [Hin Hid]%head_Some_elem_of%list_elem_of_filter.
    assert (b = b') as -> by (eapply unique_by_id; [done..|congruence]).
    done.
  - intros [Hk Hin]%head_Some_elem_of%list_elem_of_filter. done.
Qed.

(** ** Idempotent replay *)

(** C2, as the code has it.  In every reachable state, a request that
    carries a non-empty idempotency key (the empty string counts as no key:
    [if (data.idempotencyKey)]) for which a booking exists gets that booking back,
    unchanged, whatever else the request says and whatever the clock reads:
    the table, the cache and the exchange are as before, and the only calls
    made are the cache read and the point lookup of the idempotency step (no
    room lookup, no conflict query, no insert, no cache write, no event).
    Hence when a call with a key returns a booking, a second call with the
    same request returns the same booking, leaves the table as it is, and
    the table holds exactly one row with that key. *)
Theorem createBooking_idempotent_replay w :
  reachable w →
  (∀ env data key existing,
     CreateBookingData.idempotencyKey data = Some key → key ≠ ""%string →
     existing ∈ World.bookings w → Booking.idempotencyKey existing = Some key →
     let w' := fst (createBooking env data w) in
     snd (createBooking env data w) = inr existing ∧
     World.bookings w' = World.bookings w ∧
     World.redis w' = World.redis w ∧
     World.exchange w' = World.exchange w ∧
     Forall is_token_lookup (calls_since w w')) ∧
  (∀ env1 env2 data key b1,
     CreateBookingData.idempotencyKey data = Some key → key ≠ ""%string →
     snd (createBooking env1 data w) = inr b1 →
     let w1 := fst (createBooking env1 data w) in
     snd (createBooking env2 data w1) = inr b1 ∧
     World.bookings (fst (createBooking env2 data w1)) = World.bookings w1 ∧
     filter (λ b, Booking.idempotencyKey b = Some key) (World.bookings w1) = [b1]).
Proof.
  assert (Hreplay : ∀ w env data key existing,
            consistent w →
            CreateBookingData.idempotencyKey data = Some key → key ≠ ""%string →
            existing ∈ World.bookings w →
            Booking.idempotencyKey existing = Some key →
            snd (createBooking env data w) = inr existing ∧
            World.bookings (fst (createBooking env data w)) = World.bookings w ∧
            World.redis (fst (createBooking env data w)) = World.redis w ∧
            World.exchange (fst (createBooking env data w)) = World.exchange w ∧
            Forall is_token_lookup (calls_since w (fst (createBooking env data w)))).
  { clear w. intros w env data key existing Hw Hkey Hne Hin Htok.
    assert (Hres : replayed env data w = Some existing).
    { unfold replayed. rewrite Hkey, truthy_nonempty by done.
      by apply lookup_token_resolves. }
    destruct (createBooking_effect env data w)
      as [(Hb & Hr & _ & [(b & Hresult & Hb' & Hex & Hcalls)|(err & _ & Hnone)])
         |(Hnone & _)]; [|congruence..].
    rewrite Hres in Hb'. simplify_eq. done. }
  intros Hreach. pose proof (reachable_consistent w Hreach) as Hw.
  split; [intros; by eapply Hreplay|].
  intros env1 env2 data key b1 Hkey Hne Hfirst. cbv zeta.
  set (w1 := fst (createBooking env1 data w)).
  assert (Hw1 : consistent w1).
  { apply (reachable_consistent _ (reachable_perform env1 (CreateBooking data) w Hreach)). }
  assert (Hb1 : b1 ∈ World.bookings w1 ∧ Booking.idempotencyKey b1 = Some key).
  { pose proof (createBooking_effect env1 data w) as Heffect.
    cbv zeta in Heffect. fold w1 in Heffect.
    destruct Heffect
      as [(Hb & _ & _ & [(b & Hresult & Hb' & _)|(err & Herr & _)])
         |(_ & _ & _ & _ & Hresult & Hb & _)].
    - rewrite Hfirst in Hresult. simplify_eq. rewrite Hb.
      unfold replayed in Hb'. rewrite Hkey, truthy_nonempty in Hb' by done.
      by eapply lookup_token_sound.
    - congruence.
    - rewrite Hfirst in Hresult. simplify_eq. rewrite Hb. split.
      + apply elem_of_app. right. by apply list_elem_of_singleton.
      + simpl. rewrite Hkey. by apply truthy_nonempty. }
  destruct Hb1 as [Hin Htok].
  destruct (Hreplay w1 env2 data key b1 Hw1 Hkey Hne Hin Htok) as (? & ? & _).
  repeat split; [done..|].
  destruct Hw1 as [Hids Htokens _ _ _].
  apply filter_unique; [by eapply NoDup_fmap_1|done..|].
  intros x Hx Hxk. by eapply unique_by_token.
Qed.

(** ** Exclusive occupancy *)

Lemma request_meets_conflicts data b :
  Booking.roomId b = CreateBookingData.roomId data →
  Booking.status b ≠ CANCELLED →
  request_meets data b →
  conflicts_with (CreateBookingData.roomId data)
                 (CreateBookingData.startTime data)
                 (CreateBookingData.endTime data) None b.
Proof.
  intros Hroom Hlive Hmeet%meet_passes_overlap_test.
  unfold conflicts_with. simpl. repeat split; try done; lia.
Qed.

(** C1, as the code has it.  In every state reached by operations that run
    one at a time, no two distinct rows of the same room, neither of them
    cancelled, have half-open intervals that share an instant, and every
    operation run from such a state leaves a state of which this holds.  A
    request whose interval overlaps a row of its room that is not cancelled
    never adds a row: it is rejected with an error, unless its idempotency
    key resolves to an existing booking, in which case that booking is
    returned. *)
Theorem no_overlapping_bookings w :
  reachable w →
  no_double_booking (World.bookings w) ∧
  (∀ env op, no_double_booking (World.bookings (perform env op w))) ∧
  (∀ env data existing,
     existing ∈ World.bookings w →
     Booking.roomId existing = CreateBookingData.roomId data →
     Booking.status existing ≠ CANCELLED →
     request_meets data existing →
     World.bookings (fst (createBooking env data w)) = World.bookings w ∧
     match replayed env data w with
     | Some b => snd (createBooking env data w) = inr b ∧ b ∈ World.bookings w
     | None => ∃ err, snd (createBooking env data w) = inl err
     end).
Proof.
  intros Hreach. pose proof (reachable_consistent w Hreach) as Hw.
  split; [apply Hw|]. split.
  { intros env op.
    apply (reachable_consistent _ (reachable_perform env op w Hreach)). }
  intros env data existing Hin Hroom Hlive Hmeet.
  destruct (createBooking_effect env data w)
    as [(Hb & _ & _ & [(b & Hresult & Hb' & _)|(err & Herr & Hnone)])
       |(_ & _ & Hfree & _)].
  - split; [done|]. rewrite Hb'. split; [done|].
    unfold replayed in Hb'.
    destruct (truthy (CreateBookingData.idempotencyKey data)) as [key|]; [|done].
    by eapply lookup_token_sound.
  - split; [done|]. rewrite Hnone. eauto.
  - assert (Hc : existing ∈ filter
              (conflicts_with (CreateBookingData.roomId data)
                 (CreateBookingData.startTime data)
                 (CreateBookingData.endTime data) None) (World.bookings w)).
    { apply list_elem_of_filter. split; [|done]. by apply request_meets_conflicts. }
    rewrite Hfree in Hc. by apply elem_of_nil in Hc.
Qed.

(** ** Conflicts *)

Lemma filter_first {A} (P : A → Prop) `{!∀ x, Decision (P x)} (l : list A) x rest :
  filter P l = x :: rest →
  ∃ before after, l = before ++ x :: after ∧ Forall (λ y, ¬ P y) before ∧ P x.
Proof.
  induction l as [|a l IH]; [done|].
  destruct (decide (P a)) as [Ha|Ha].
  - rewrite filter_cons_True by done. intros [= -> _].
    by exists [], l.
  - rewrite filter_cons_False by done. intros Hf.
    destruct (IH Hf) as (before & after & -> & Hbefore & Hx).
    exists (a :: before), after. split; [done|]. split; [by constructor|done].
Qed.

(** C4.  When a request reaches the conflict check (no replay, the room
    exists, the interval is valid) and some row of the same room that is not
    cancelled satisfies [existing.start < end] and [existing.end > start],
    [createBooking] emits [room.unavailable] with the room, the requested
    interval and the id of the first such row in table order, then fails with
    [RoomUnavailableError] (HTTP 409); the table and the cache are unchanged,
    and no insert and no cache write is attempted. *)
Theorem createBooking_conflict env data w existing :
  let room := CreateBookingData.roomId data in
  let s := CreateBookingData.startTime data in
  let e := CreateBookingData.endTime data in
  replayed env data w = None →
  known_room room w →
  validateBookingTimes env s e = inr tt →
  existing ∈ World.bookings w →
  Booking.roomId existing = room →
  Booking.status existing ≠ CANCELLED →
  Booking.startTime existing < e ∧ Booking.endTime existing > s →
  let w' := fst (createBooking env data w) in
  ∃ first before after cs,
    World.bookings w = before ++ first :: after ∧
    conflicts_with room s e None first ∧
    Forall (λ b, ¬ conflicts_with room s e None b) before ∧
    let ev := ROOM_UNAVAILABLE room s e (Booking.id first) (Env.now env) in
    snd (createBooking env data w) = inl (RoomUnavailableError room s e) ∧
    mapDomainError (RoomUnavailableError room s e)
    = (409, "ROOM_UNAVAILABLE"%string) ∧
    calls_since w w'
    = cs ++ [RoomFindById room; BookingFindConflicting room s e; EventEmit ev] ∧
    Forall is_token_lookup cs ∧
    World.exchange w' = delivered ev w ∧
    World.bookings w' = World.bookings w ∧
    World.redis w' = World.redis w.
Proof.
  intros room s e Hnone [r Hroom] Hvalid Hin Hsame Hlive Hoverlap. cbv zeta.
  destruct (admission_run env data w) as (cs & Hcs & Hadm).
  rewrite createBooking_run, Hadm. unfold admission_outcome.
  fold room s e. rewrite Hnone, Hroom, Hvalid.
  assert (Hc : existing ∈ filter (conflicts_with room s e None) (World.bookings w)).
  { apply list_elem_of_filter. split; [|done]. unfold conflicts_with. simpl.
    tauto. }
  destruct (filter _ (World.bookings w)) as [|first rest] eqn:Hconflicts.
  { by apply elem_of_nil in Hc. }
  destruct (filter_first _ _ _ _ Hconflicts) as (before & after & Hrows & Hbefore & Hfirst).
  exists first, before, after, cs. simpl.
  do 5 (split; [done|]). split; [by apply calls_since_app|done].
Qed.

(** ** A consumed key at the insert *)

Lemma admission_keeps_store env data w :
  let w1 := fst (createBooking_admission env data w) in
  World.bookings w1 = World.bookings w ∧ World.rooms w1 = World.rooms w ∧
  World.redis w1 = World.redis w.
Proof.
  cbv zeta. destruct (admission_run env data w) as (cs & _ & ->).
  unfold admission_outcome. destruct (replayed env data w); [done|].
  destruct (head _); [|done]. destruct (validateBookingTimes _ _ _); [done|].
  by destruct (filter _ _).
Qed.

(** C5, as the code has it.  When the insert of [createBooking] runs in a
    state where a row already carries the request's idempotency key (and the
    identifier is fresh), the UNIQUE constraint rejects it and
    [createBooking] does not catch the error: it reaches the caller as it is
    (HTTP 500), after the single call to [create]; the table, the cache and
    the exchange are unchanged and no booking is returned.  The same holds
    of the whole of [createBooking] whenever its first half has admitted the
    request. *)
Theorem createBooking_unique_violation_propagates env data w key existing :
  truthy (CreateBookingData.idempotencyKey data) = Some key →
  existing ∈ World.bookings w →
  Booking.idempotencyKey existing = Some key →
  Env.uuid env ∉ Booking.id <$> World.bookings w →
  createBooking_commit env data w
  = (add_calls [BookingCreate data] w,
     inl (DatabaseError "bookings_idempotency_key_key")) ∧
  mapDomainError (DatabaseError "bookings_idempotency_key_key")
  = (500, "INTERNAL_SERVER_ERROR"%string) ∧
  (snd (createBooking_admission env data w) = inr Proceed →
   snd (createBooking env data w)
   = inl (DatabaseError "bookings_idempotency_key_key") ∧
   World.bookings (fst (createBooking env data w)) = World.bookings w ∧
   World.redis (fst (createBooking env data w)) = World.redis w ∧
   World.exchange (fst (createBooking env data w)) = World.exchange w).
Proof.
  intros Hkey Hin Htok Hfresh.
  assert (Hviolation : ∀ w1, World.bookings w1 = World.bookings w →
            insert_violation (new_row env data) w1
            = Some "bookings_idempotency_key_key"%string).
  { intros w1 Hrows. unfold insert_violation. rewrite Hrows. simpl.
    rewrite decide_False by done. rewrite decide_True; [done|].
    rewrite Hkey. split; [done|]. rewrite <- Htok. apply list_elem_of_fmap. eauto. }
  split; [|split; [done|]].
  - rewrite commit_run. unfold commit_outcome. by rewrite Hviolation.
  - intros Hproceed. rewrite createBooking_run.
    pose proof (admission_keeps_store env data w) as (Hrows & _ & Hredis).
    destruct (createBooking_admission env data w) as [w1 [err|[b|]]] eqn:Hadm;
      simpl in *; try done.
    rewrite commit_run. unfold commit_outcome. rewrite Hviolation by done.
    simpl. repeat split; try done.
    destruct (admission_run env data w) as (cs & _ & Hout).
    rewrite Hadm in Hout. unfold admission_outcome in Hout.
    destruct (replayed env data w); [by simplify_eq|].
    destruct (head _); [|by simplify_eq].
    destruct (validateBookingTimes _ _ _); [by simplify_eq|].
    destruct (filter _ _); by simplify_eq.
Qed.

(** ** The scenarios, evaluated *)

Lemma world_B1_reachable : reachable world_B1.
Proof.
  apply reachable_perform, reachable_initial. split; [reflexivity|by right].
Qed.

Lemma world_B1_rows : World.bookings world_B1 = [booking_B1].
Proof. vm_compute. reflexivity. Qed.

(** C1 as stated fails, twice.  First, after the keyed request has been
    admitted as B1, the same request (same room, same interval, which
    overlaps B1, not cancelled) is not rejected; B1 is returned.  Second,
    [createBooking] awaits its conflict query and its insert separately,
    with no transaction, lock or exclusion constraint between them: a
    request for 01:30-02:30 passes its checks on the empty table, another
    [createBooking] then runs to its end and stores B1 for 01:00-02:00, and
    the insert of the first request, run in that state, stores a second
    CONFIRMED row of the same room that overlaps B1. *)
Lemma overlapping_request_is_not_always_rejected :
  (reachable world_B1 ∧
   booking_B1 ∈ World.bookings world_B1 ∧
   Booking.roomId booking_B1 = CreateBookingData.roomId keyed_request ∧
   Booking.status booking_B1 ≠ CANCELLED ∧
   request_meets keyed_request booking_B1 ∧
   snd (createBooking (env_at 2000 "B2") keyed_request world_B1) = inr booking_B1) ∧
  let admission := createBooking_admission (env_at 1001 "B2") overlapping_request
                     (world_of []) in
  let first := createBooking (env_at 1000 "B1") keyed_request (fst admission) in
  let second := createBooking_commit (env_at 1001 "B2") overlapping_request
                  (fst first) in
  let booking_B2 := new_row (env_at 1001 "B2") overlapping_request in
  snd admission = inr Proceed ∧
  snd first = inr booking_B1 ∧
  snd second = inr booking_B2 ∧
  World.bookings (fst second) = [booking_B1; booking_B2] ∧
  Booking.roomId booking_B1 = Booking.roomId booking_B2 ∧
  Booking.status booking_B1 = CONFIRMED ∧ Booking.status booking_B2 = CONFIRMED ∧
  intervals_meet booking_B1 booking_B2 ∧
  ¬ no_double_booking (World.bookings (fst second)).
Proof.
  split.
  { split; [apply world_B1_reachable|].
    split; [rewrite world_B1_rows; by apply list_elem_of_singleton|].
    split; [reflexivity|]. split; [discriminate|].
    split; [exists 3600000; simpl; lia|].
    vm_compute. reflexivity. }
  cbv zeta.
  assert (World.bookings
            (fst (createBooking_commit (env_at 1001 "B2") overlapping_request
                    (fst (createBooking (env_at 1000 "B1") keyed_request
                            (fst (createBooking_admission (env_at 1001 "B2")
                                    overlapping_request (world_of [])))))))
          = [booking_B1; new_row (env_at 1001 "B2") overlapping_request])
    as Hrows by (vm_compute; reflexivity).
  assert (intervals_meet booking_B1
            (new_row (env_at 1001 "B2") overlapping_request)) as Hmeet
    by (exists 5400000; simpl; lia).
  split; [vm_compute; reflexivity|]. split; [vm_compute; reflexivity|].
  split; [vm_compute; reflexivity|]. split; [exact Hrows|].
  split; [reflexivity|]. split; [reflexivity|]. split; [reflexivity|].
  split; [exact Hmeet|].
  rewrite Hrows. intros Hexclusive.
  apply (Hexclusive 0%nat 1%nat booking_B1
           (new_row (env_at 1001 "B2") overlapping_request));
    try done.
Qed.

Lemma no_overlapping_bookings_witness :
  no_double_booking (World.bookings world_B1) ∧
  World.bookings (fst (createBooking (env_at 2000 "B2") overlapping_request world_B1))
  = World.bookings world_B1 ∧
  match replayed (env_at 2000 "B2") overlapping_request world_B1 with
  | Some b =>
      snd (createBooking (env_at 2000 "B2") overlapping_request world_B1) = inr b ∧
      b ∈ World.bookings world_B1
  | None =>
      ∃ err, snd (createBooking (env_at 2000 "B2") overlapping_request world_B1)
             = inl err
  end.
Proof.
  destruct (no_overlapping_bookings world_B1 world_B1_reachable) as (H1 & _ & H3).
  split; [exact H1|].
  apply (H3 (env_at 2000 "B2") overlapping_request booking_B1).
  - rewrite world_B1_rows. by apply list_elem_of_singleton.
  - reflexivity.
  - discriminate.
  - exists 5400000. simpl. lia.
Defined.

Lemma createBooking_idempotent_replay_witness :
  snd (createBooking (env_at 2000 "B2") keyed_request world_B1) = inr booking_B1 ∧
  World.bookings (fst (createBooking (env_at 2000 "B2") keyed_request world_B1))
  = World.bookings world_B1.
Proof.
  destruct (createBooking_idempotent_replay world_B1 world_B1_reachable) as [H _].
  destruct (H (env_at 2000 "B2") keyed_request "key-1"%string booking_B1)
    as (Hresult & Hrows & _).
  - reflexivity.
  - discriminate.
  - rewrite world_B1_rows. by apply list_elem_of_singleton.
  - reflexivity.
  - by split.
Defined.

Lemma createBooking_interval_validation_witness :
  snd (createBooking (env_at 7200000 "B1") past_request (world_of []))
  = inl (InvalidBookingTimeError "Start time cannot be in the past").
Proof.
  destruct (createBooking_interval_validation (env_at 7200000 "B1") past_request
              (world_of [])) as (_ & Hpast & _).
  - reflexivity.
  - exists room_R1. reflexivity.
  - apply Hpast. simpl. lia.
Defined.

Lemma createBooking_conflict_witness :
  snd (createBooking (env_at 2000 "B2") overlapping_request world_B1)
  = inl (RoomUnavailableError "R1" 5400000 9000000) ∧
  World.exchange (fst (createBooking (env_at 2000 "B2") overlapping_request world_B1))
  = World.exchange world_B1 ++ [ROOM_UNAVAILABLE "R1" 5400000 9000000 "B1" 2000].
Proof.
  destruct (createBooking_conflict (env_at 2000 "B2") overlapping_request world_B1
              booking_B1)
    as (first & before & after & cs & Hrows & Hfirst & Hbefore & Hresult & _ & _ &
        _ & Hexchange & _).
  - reflexivity.
  - exists room_R1. reflexivity.
  - reflexivity.
  - rewrite world_B1_rows. by apply list_elem_of_singleton.
  - reflexivity.
  - discriminate.
  - simpl. lia.
  - split; [exact Hresult|].
    rewrite Hexchange. rewrite world_B1_rows in Hrows.
    destruct before as [|b0 [|b1 before]]; [|discriminate Hrows..].
    injection Hrows as <- <-. reflexivity.
Defined.

(** C5 as stated fails.  Two requests carry the same key.  The second is
    admitted while the table is still empty; the first then runs to its end
    and creates B1; the insert of the second, run in that state, is rejected
    by the UNIQUE constraint and the error is the result of the call, although
    the booking that now carries the key can be fetched. *)
Lemma consumed_key_is_a_hard_error :
  let admission := createBooking_admission (env_at 1001 "B2") keyed_request
                     (world_of []) in
  let first := createBooking (env_at 1000 "B1") keyed_request (fst admission) in
  let second := createBooking_commit (env_at 1001 "B2") keyed_request (fst first) in
  snd admission = inr Proceed ∧
  snd first = inr booking_B1 ∧
  snd second = inl (DatabaseError "bookings_idempotency_key_key") ∧
  head (filter (λ b, Booking.idempotencyKey b = Some "key-1"%string)
               (World.bookings (fst first)))
  = Some booking_B1.
Proof. vm_compute. repeat split; reflexivity. Qed.

Lemma createBooking_unique_violation_propagates_witness :
  createBooking_commit (env_at 1001 "B2") keyed_request world_B1
  = (add_calls [BookingCreate keyed_request] world_B1,
     inl (DatabaseError "bookings_idempotency_key_key")).
Proof.
  apply (createBooking_unique_violation_propagates (env_at 1001 "B2")
           keyed_request world_B1 "key-1"%string booking_B1).
  - reflexivity.
  - rewrite world_B1_rows. by apply list_elem_of_singleton.
  - reflexivity.
  - rewrite world_B1_rows. simpl. intros [=]%list_elem_of_singleton.
Defined.

Lemma availability_round_trip_witness :
  ∃ s, s ∈ (clip 8 18 <$> calculateAvailableSlots 8 18 [slot 10 14]) ++
           (clip 8 18 <$> [slot 10 14]) ∧ in_slot 9 s.
Proof.
  destruct (availability_round_trip 8 18 [slot 10 14]) as [Hwindow _].
  - repeat constructor.
  - repeat constructor.
  - apply Hwindow. lia.
Defined.

Lemma world_B1_cache : World.redis world_B1 = Some cache_B1.
Proof. vm_compute. reflexivity. Qed.

(** The stale read of the specification: B1 is cached, its row disappears
    from the table behind the engine's back, and [getBooking] still returns
    the cached booking without consulting the table. *)
Lemma getBooking_cache_aside_witness :
  getBooking (env_at 2000 "") "B1" (World.set_bookings [] world_B1)
  = (add_calls [CacheGet "booking:B1"] (World.set_bookings [] world_B1),
     inr booking_B1).
Proof.
  destruct (getBooking_cache_aside (env_at 2000 "") "B1" world_B1) as [Hhit _].
  apply (Hhit cache_B1 booking_B1 (1000 + 300 * 1000) []).
  - apply world_B1_cache.
  - vm_compute. reflexivity.
  - simpl. lia.
Defined.


Lemma cancelBooking_frame_witness :
  length (World.bookings
            (fst (cancelBooking (env_at 2000 "") "B1" None world_B1)))
  = length (World.bookings world_B1) ∧
  World.rooms (fst (cancelBooking (env_at 2000 "") "B1" None world_B1))
  = World.rooms world_B1.
Proof.
  destruct (cancelBooking_frame (env_at 2000 "") "B1" None world_B1
              (fst (cancelBooking (env_at 2000 "") "B1" None world_B1))
              (apply_patch 2000 (cancellation (env_at 2000 "")) booking_B1))
    as (_ & Hlength & _ & Hrooms).
  - vm_compute. reflexivity.
  - by split.
Defined.

(** C2 as stated fails for the empty key, which the code takes for no key:
    the first call creates a booking without a key, and the second call with
    the same request is a conflict with that booking, not a replay. *)
Lemma empty_key_is_not_replayed :
  let empty_key_request := request 3600000 7200000 (Some ""%string) in
  let first := createBooking (env_at 1000 "B1") empty_key_request (world_of []) in
  let second := createBooking (env_at 2000 "B2") empty_key_request (fst first) in
  snd first = inr (new_row (env_at 1000 "B1") empty_key_request) ∧
  Booking.idempotencyKey (new_row (env_at 1000 "B1") empty_key_request) = None ∧
  snd second = inl (RoomUnavailableError "R1" 3600000 7200000).
Proof. vm_compute. repeat split; reflexivity. Qed.

(** * Further properties of the service *)

(** ** The creation path *)

Lemma known_room_in_rooms room w :
  known_room room w → room ∈ Room.id <$> World.rooms w.
Proof.
  intros [r [Hid Hr]%head_Some_elem_of%list_elem_of_filter].
  rewrite <- Hid. apply list_elem_of_fmap. eauto.
Qed.

(** The insert of a row with a new identifier and a key that no row carries,
    for an existing room, violates no constraint. *)
Lemma insert_violation_free env data w :
  Env.uuid env ∉ Booking.id <$> World.bookings w →
  (∀ key, truthy (CreateBookingData.idempotencyKey data) = Some key →
          Some key ∉ Booking.idempotencyKey <$> World.bookings w) →
  known_room (CreateBookingData.roomId data) w →
  insert_violation (new_row env data) w = None.
Proof.
  intros Hfresh Hkey Hroom. unfold insert_violation. simpl.
  rewrite decide_False by done. rewrite decide_False.
  - rewrite decide_True; [done|]. by apply known_room_in_rooms.
  - intros [[key Hk] Hin]. rewrite Hk in Hin. by apply (Hkey key).
Qed.

Lemma redis_read_setex_other now now' key key' ttl v r :
  key ≠ key' →
  redis_read now' key' (redis_setex now key ttl v r) = redis_read now' key' r.
Proof.
  intros Hne. destruct r as [db|]; [|done]. unfold redis_setex.
  case_decide; [|done]. unfold redis_read. by rewrite lookup_insert_ne.
Qed.

Lemma filter_none {A} (P : A → Prop) `{!∀ x, Decision (P x)} (l : list A) :
  (∀ x, x ∈ l → ¬ P x) → filter P l = [].
Proof.
  induction l as [|a l IH]; intros Hl; [done|].
  rewrite filter_cons_False by (apply Hl, elem_of_cons; by left).
  apply IH. intros x Hx. apply Hl, elem_of_cons. by right.
Qed.

(** X1.  The creation path.  Take a request that is not a replay, names an
    existing room, has a valid interval and meets no conflict, whose texts
    fit their columns, at a moment when [uuidv4] gives an identifier that no
    row has and no row carries the request's key, and let [createBooking]
    run with no other request writing in between.  Then one row is added to
    the table, CONFIRMED and with the fields of the request, and returned;
    it is what the table answers for its id; the cache then answers
    [booking:<id>] with the row for [cache.ttl] seconds and
    [idempotency:<key>] with the id for [cache.idempotencyTtl] seconds; and
    the last call is the emission of [booking.created] with the row. *)
Theorem createBooking_creates env data w :
  let room := CreateBookingData.roomId data in
  let s := CreateBookingData.startTime data in
  let e := CreateBookingData.endTime data in
  let now := Env.now env in
  let ttl := Config.cache_ttl (Env.config env) in
  let idempotencyTtl := Config.cache_idempotencyTtl (Env.config env) in
  replayed env data w = None →
  known_room room w →
  validateBookingTimes env s e = inr tt →
  filter (conflicts_with room s e None) (World.bookings w) = [] →
  Env.uuid env ∉ Booking.id <$> World.bookings w →
  (∀ key, truthy (CreateBookingData.idempotencyKey data) = Some key →
          Some key ∉ Booking.idempotencyKey <$> World.bookings w) →
  storable data →
  let w' := fst (createBooking env data w) in
  ∃ row t,
    snd (createBooking env data w) = inr row ∧
    created_as env data row ∧
    World.bookings w' ≡ₚ row :: World.bookings w ∧
    stored (Env.uuid env) w' = Some row ∧
    World.exchange w' = delivered (BOOKING_CREATED row t) w ∧
    (∃ cs, Forall is_token_lookup cs ∧
           calls_since w w'
           = cs ++ [RoomFindById room; BookingFindConflicting room s e] ++
             creation_calls env data row t) ∧
    (∀ db later,
       World.redis w = Some db → 0 < ttl → later < now + ttl * 1000 →
       redis_read later ("booking:" +:+ Env.uuid env) (World.redis w')
       = Some (JBooking row)) ∧
    (∀ db key later,
       World.redis w = Some db →
       truthy (CreateBookingData.idempotencyKey data) = Some key →
       0 < idempotencyTtl → later < now + idempotencyTtl * 1000 →
       redis_read later ("idempotency:" +:+ key) (World.redis w')
       = Some (JString (Env.uuid env))).
Proof.
  intros room s e now ttl idempotencyTtl Hnone [r Hroom] Hvalid Hfree Hfresh
    Hkey _. cbv zeta.
  pose proof (insert_violation_free env data w Hfresh Hkey
                (ex_intro _ r Hroom)) as Hins.
  destruct (admission_run env data w) as (cs & Hcs & Hadm).
  rewrite createBooking_run, Hadm. unfold admission_outcome.
  fold room s e. rewrite Hnone, Hroom, Hvalid, Hfree.
  rewrite commit_run. unfold commit_outcome.
  match goal with
  | |- context [insert_violation ?x (add_calls ?c ?w)] =>
      change (insert_violation x (add_calls c w)) with (insert_violation x w)
  end.
  rewrite Hins. simpl.
  exists (new_row env data), (Env.now env).
  split; [done|]. split; [by repeat split|].
  split; [symmetry; apply Permutation_cons_append|]. split.
  { unfold stored. simpl.
    rewrite filter_app, filter_cons_True, filter_nil by done.
    rewrite filter_none; [done|].
    intros b Hb Hid. apply Hfresh. rewrite <- Hid. apply list_elem_of_fmap. eauto. }
  split; [done|]. split.
  { exists cs. split; [done|]. apply calls_since_app. unfold creation_calls.
    simpl. by rewrite <- !app_assoc. }
  split.
  - intros db later Hdb Httl Hlater.
    destruct (truthy (CreateBookingData.idempotencyKey data)) as [k|];
      rewrite Hdb; [unfold redis_setex at 2; case_decide|];
      by apply redis_read_setex.
  - intros db key later Hdb Hk Httl Hlater. rewrite Hk.
    rewrite redis_read_setex_other by apply booking_key_ne_idempotency_key.
    rewrite Hdb. by apply redis_read_setex.
Qed.

(** ** How [createBooking] fails *)

(** X2.  A request that is not a replay and names a room that does not exist
    fails with [RoomNotFoundError] (HTTP 404) whatever its interval is: the
    room is looked up before the interval is validated, the conflict query is
    not run, and nothing is written or emitted. *)
Theorem createBooking_unknown_room env data w :
  let room := CreateBookingData.roomId data in
  replayed env data w = None →
  ¬ known_room room w →
  mapDomainError (RoomNotFoundError room) = (404, "ROOM_NOT_FOUND"%string) ∧
  ∃ cs, Forall is_token_lookup cs ∧
        createBooking env data w
        = (add_calls (cs ++ [RoomFindById room]) w, inl (RoomNotFoundError room)).
Proof.
  intros room Hnone Hroom. split; [done|].
  destruct (admission_run env data w) as (cs & Hcs & Hadm).
  exists cs. split; [done|].
  rewrite createBooking_run, Hadm. unfold admission_outcome.
  rewrite Hnone. fold room.
  destruct (head (filter _ (World.rooms w))) as [r|] eqn:Hr; [|done].
  destruct Hroom. by exists r.
Qed.

(** ** The event bus is fire-and-forget *)

Lemma lookup_token_with_bus env key connected w :
  lookup_token env key (with_bus connected w) = lookup_token env key w.
Proof. by rewrite !lookup_token_unfold. Qed.

Lemma replayed_with_bus env data connected w :
  replayed env data (with_bus connected w) = replayed env data w.
Proof.
  unfold replayed. destruct (truthy _); [|done]. apply lookup_token_with_bus.
Qed.

(** X4.  Whether the bus is connected changes neither what [createBooking]
    and [cancelBooking] return nor what they leave in the table and in the
    cache: a publication that cannot be made never fails the operation, and
    then nothing reaches the exchange. *)
Theorem bus_is_fire_and_forget env connected w :
  (∀ data,
     snd (createBooking env data (with_bus connected w))
     = snd (createBooking env data w) ∧
     World.bookings (fst (createBooking env data (with_bus connected w)))
     = World.bookings (fst (createBooking env data w)) ∧
     World.redis (fst (createBooking env data (with_bus connected w)))
     = World.redis (fst (createBooking env data w)) ∧
     World.exchange (fst (createBooking env data (with_bus false w)))
     = World.exchange w) ∧
  (∀ id reason,
     snd (cancelBooking env id reason (with_bus connected w))
     = snd (cancelBooking env id reason w) ∧
     World.bookings (fst (cancelBooking env id reason (with_bus connected w)))
     = World.bookings (fst (cancelBooking env id reason w)) ∧
     World.redis (fst (cancelBooking env id reason (with_bus connected w)))
     = World.redis (fst (cancelBooking env id reason w)) ∧
     World.exchange (fst (cancelBooking env id reason (with_bus false w)))
     = World.exchange w).
Proof.
  split.
  - intros data.
    destruct (admission_run env data (with_bus connected w)) as (cs1 & _ & Hadm1).
    destruct (admission_run env data (with_bus false w)) as (cs3 & _ & Hadm3).
    destruct (admission_run env data w) as (cs2 & _ & Hadm2).
    rewrite !createBooking_run, Hadm1, Hadm2, Hadm3.
    unfold admission_outcome. rewrite !replayed_with_bus. simpl.
    destruct (replayed env data w); [done|].
    destruct (head _); [|done].
    destruct (validateBookingTimes env _ _); [done|].
    destruct (filter _ (World.bookings w)); [|done].
    rewrite !commit_run. unfold commit_outcome.
    repeat match goal with
    | |- context [insert_violation ?x (add_calls ?c ?w0)] =>
        change (insert_violation x (add_calls c w0)) with (insert_violation x w)
    end.
    by destruct (insert_violation _ w).
  - intros id reason. rewrite !cancelBooking_run. unfold cancelBooking_outcome.
    simpl. destruct (head _); [|done]. by case_decide.
Qed.

(** ** The cache agrees with the table *)

Lemma booking_key_inj i j : "booking:" +:+ i = "booking:" +:+ j → i = j.
Proof. cbv [String.append]. congruence. Qed.

(** Under [cache_agrees] a key resolves to what the unique column holds,
    with the cache entry or without. *)
Lemma lookup_token_agrees env key w :
  cache_agrees w →
  lookup_token env key w
  = head (filter (λ b, Booking.idempotencyKey b = Some key) (World.bookings w)).
Proof.
  intros [Hids Htokens Hsound _]. rewrite lookup_token_unfold.
  destruct (truthy (as_string _)) as [i|] eqn:Hcached; [|done].
  apply truthy_Some in Hcached as [Hcached%as_string_Some _].
  apply redis_read_Some in Hcached as (db & e & Hdb & He & Hval).
  destruct (Hsound db key e i Hdb He Hval) as (b & Hb & Hid & Hkey).
  rewrite (head_filter_unique (λ b, Booking.id b = i) _ b); [|done..|].
  - symmetry. apply head_filter_unique; [done..|].
    intros x Hx Hxk. by eapply unique_by_token.
  - intros x Hx Hxi. eapply unique_by_id; [done..|congruence].
Qed.

Lemma replayed_without_cache env data w :
  cache_agrees w → replayed env data (without_cache w) = replayed env data w.
Proof.
  intros Hw. unfold replayed. destruct (truthy _) as [key|]; [|done].
  rewrite (lookup_token_agrees env key w Hw). by rewrite lookup_token_unfold.
Qed.

(** Under [cache_agrees] an entry [booking:<id>] that is read is what the
    table answers for the id. *)
Lemma cached_is_stored now id w cached :
  cache_agrees w →
  as_booking (redis_read now ("booking:" +:+ id) (World.redis w)) = Some cached →
  stored id w = Some cached.
Proof.
  intros [Hids _ _ Hcoherent] Hcached.
  destruct (redis_read _ _ _) as [[b| |]|] eqn:Hread; simplify_eq/=.
  apply redis_read_Some in Hread as (db & e & Hdb & He & Hv).
  destruct (Hcoherent db id e cached Hdb He Hv) as [Hin <-].
  apply head_filter_unique; [done..|].
  intros x Hx Hid. by eapply unique_by_id.
Qed.

Lemma getBooking_agrees env id w :
  cache_agrees w →
  snd (getBooking env id w)
  = match stored id w with
    | Some b => inr b
    | None => inl (BookingNotFoundError id)
    end.
Proof.
  intros Hw. rewrite getBooking_run. unfold getBooking_outcome.
  destruct (as_booking _) as [cached|] eqn:Hcached.
  - by rewrite (cached_is_stored _ _ _ _ Hw Hcached).
  - unfold stored. by destruct (head _).
Qed.

Lemma redis_read_setex_inv now now' key ttl v r x :
  redis_read now' key (redis_setex now key ttl v r) = Some x →
  x = v ∨ redis_read now' key r = Some x.
Proof.
  destruct r as [db|]; [|done]. unfold redis_setex. case_decide; [|by right].
  unfold redis_read. rewrite lookup_insert_eq. simpl.
  case_decide; [|done]. intros [= <-]. by left.
Qed.

(** X6.  Read your own creation.  When the cache agrees with the table and
    [createBooking] creates a booking, [getBooking] of its id right after
    returns that booking, at any clock reading: from the cache while the
    entry lives, from the table otherwise. *)
Theorem read_your_writes env env' data w b :
  cache_agrees w →
  replayed env data w = None →
  snd (createBooking env data w) = inr b →
  snd (getBooking env' (Booking.id b) (fst (createBooking env data w))) = inr b.
Proof.
  intros Hw Hnone Hresult.
  destruct (createBooking_effect env data w)
    as [(_ & _ & _ & [(b' & _ & Hb' & _)|(err & Herr & _)])
       |(_ & _ & _ & Hins & Hr & Hrows & _ & Hredis)];
    [congruence..|].
  rewrite Hresult in Hr. injection Hr as ->.
  apply insert_violation_None in Hins as (Hfresh & _).
  change (Booking.id (new_row env data)) with (Env.uuid env) in *.
  rewrite getBooking_run. unfold getBooking_outcome. rewrite Hrows, Hredis.
  assert (head (filter (λ b, Booking.id b = Env.uuid env)
                       (World.bookings w ++ [new_row env data]))
          = Some (new_row env data)) as Hstored.
  { rewrite filter_app, filter_cons_True, filter_nil by done.
    rewrite filter_none; [done|].
    intros x Hx Hid. apply Hfresh. rewrite <- Hid. apply list_elem_of_fmap. eauto. }
  destruct (as_booking _) as [cached|] eqn:Hcached; [|by rewrite Hstored].
  destruct (redis_read _ _ _) as [[c| |]|] eqn:Hread; simplify_eq/=.
  apply redis_read_setex_inv in Hread as [Hnew|Hold]; [by simplify_eq|].
  exfalso.
  assert (redis_read (Env.now env') ("booking:" +:+ Env.uuid env) (World.redis w)
          = Some (JBooking cached)) as Hbefore.
  { destruct (truthy _); [|done].
    by rewrite redis_read_setex_other in Hold
      by (intros Heq; symmetry in Heq; by eapply booking_key_ne_idempotency_key). }
  assert (stored (Env.uuid env) w = Some cached) as Hs
    by (eapply cached_is_stored; [done|]; by rewrite Hbefore).
  apply head_Some_elem_of, list_elem_of_filter in Hs as [Hid Hin].
  apply Hfresh. rewrite <- Hid. apply list_elem_of_fmap. eauto.
Qed.

(** ** The cache is never the system of record *)

(** X7.  Whenever the cache agrees with the table, each operation returns
    the same result and leaves the same table as it would with no cache at
    all: the cache saves queries, and it can change an outcome only by
    disagreeing with the table. *)
Theorem cache_is_transparent env w :
  cache_agrees w →
  (∀ data,
     snd (createBooking env data w) = snd (createBooking env data (without_cache w)) ∧
     World.bookings (fst (createBooking env data w))
     = World.bookings (fst (createBooking env data (without_cache w)))) ∧
  (∀ id,
     snd (getBooking env id w) = snd (getBooking env id (without_cache w)) ∧
     World.bookings (fst (getBooking env id w))
     = World.bookings (fst (getBooking env id (without_cache w)))) ∧
  (∀ id reason,
     snd (cancelBooking env id reason w)
     = snd (cancelBooking env id reason (without_cache w)) ∧
     World.bookings (fst (cancelBooking env id reason w))
     = World.bookings (fst (cancelBooking env id reason (without_cache w)))) ∧
  (∀ filter, snd (getBookings filter w) = snd (getBookings filter (without_cache w))).
Proof.
  intros Hw. split; [|split; [|split]].
  - intros data.
    destruct (admission_run env data (without_cache w)) as (cs1 & _ & Hadm1).
    destruct (admission_run env data w) as (cs2 & _ & Hadm2).
    rewrite !createBooking_run, Hadm1, Hadm2.
    unfold admission_outcome. rewrite replayed_without_cache by done. simpl.
    destruct (replayed env data w); [done|].
    destruct (head _); [|done].
    destruct (validateBookingTimes env _ _); [done|].
    destruct (filter _ (World.bookings w)); [|done].
    rewrite !commit_run. unfold commit_outcome.
    repeat match goal with
    | |- context [insert_violation ?x (add_calls ?c ?w0)] =>
        change (insert_violation x (add_calls c w0)) with (insert_violation x w)
    end.
    by destruct (insert_violation _ w).
  - intros id. split.
    + rewrite getBooking_agrees by done.
      rewrite getBooking_run. unfold getBooking_outcome, stored. simpl.
      by destruct (head _).
    + by rewrite (proj1 (getBooking_effect env id w)),
                 (proj1 (getBooking_effect env id (without_cache w))).
  - intros id reason. rewrite !cancelBooking_run. unfold cancelBooking_outcome.
    simpl. destruct (head _); [|done]. by case_decide.
  - done.
Qed.

(** ** Rows written by the service *)

Lemma truthy_not_empty o : truthy o ≠ Some ""%string.
Proof. destruct o as [s|]; [|done]. simpl. case_decide; congruence. Qed.

Lemma row_ok_new env data :
  validateBookingTimes env (CreateBookingData.startTime data)
                           (CreateBookingData.endTime data) = inr tt →
  row_ok (new_row env data).
Proof.
  intros Hvalid%validateBookingTimes_inr. unfold row_ok. simpl.
  split; [done|]. split; [split; [done|by intros [? ?]]|].
  split; [lia|]. split; apply truthy_not_empty.
Qed.

Lemma row_ok_cancelled env now b :
  row_ok b → row_ok (apply_patch now (cancellation env) b).
Proof.
  intros (_ & _ & Hduration & Hkey & Hdescr). unfold row_ok. simpl.
  split; [done|]. split; [by split; eauto|]. done.
Qed.

(** A request that passes the checks of [createBooking] has passed
    [validateBookingTimes]. *)
Lemma admission_validates env data w :
  snd (createBooking_admission env data w) = inr Proceed →
  validateBookingTimes env (CreateBookingData.startTime data)
                           (CreateBookingData.endTime data) = inr tt.
Proof.
  destruct (admission_run env data w) as (cs & _ & ->).
  unfold admission_outcome.
  destruct (replayed env data w); [done|]. destruct (head _); [|done].
  by destruct (validateBookingTimes env _ _) as [err|[]].
Qed.

Lemma commit_rows env data w :
  World.bookings (fst (createBooking_commit env data w)) = World.bookings w ∨
  World.bookings (fst (createBooking_commit env data w))
  = World.bookings w ++ [new_row env data].
Proof.
  rewrite commit_run. unfold commit_outcome.
  destruct (insert_violation _ _); [by left|by right].
Qed.

(** X8.  What holds of every row the service has written.  In a table that
    started empty and was written by the service alone, whether the requests
    ran one at a time or an insert came after other writes had followed its
    checks, every row has status CONFIRMED or CANCELLED, never PENDING; it
    has a cancellation time exactly when it is cancelled; its duration is
    between 15 minutes and 8 hours; and neither its idempotency key nor its
    description is the empty string. *)
Theorem written_rows_ok w :
  written w → Forall row_ok (World.bookings w).
Proof.
  induction 1 as [w Hrows|env op w _ IH|env data w0 w Hpassed _ IH|w w' _ IH Hrows].
  - rewrite Hrows. constructor.
  - destruct op as [data|id|f|id reason]; simpl.
    + destruct (createBooking_effect env data w)
        as [(Hb & _)|(_ & Hvalid & _ & _ & _ & Hb & _)]; rewrite Hb; [done|].
      apply Forall_app. split; [done|]. constructor; [|constructor].
      by apply row_ok_new.
    + by rewrite (proj1 (getBooking_effect env id w)).
    + done.
    + destruct (cancelBooking_effect env id reason w) as [[Hb _]|[Hb _]];
        rewrite Hb; [done|].
      unfold update_rows. apply Forall_fmap. eapply Forall_impl; [done|].
      intros b Hb'. simpl. case_decide; [|done]. by apply row_ok_cancelled.
  - apply admission_validates in Hpassed.
    destruct (commit_rows env data w) as [->| ->]; [done|].
    apply Forall_app. split; [done|]. constructor; [|constructor].
    by apply row_ok_new.
  - by rewrite Hrows.
Qed.

(** ** The history is never rewritten *)

Lemma row_evolves_refl b : row_evolves b b.
Proof. by repeat split. Qed.

Lemma created_as_new_row env data : created_as env data (new_row env data).
Proof. by repeat split. Qed.

(** X9.  No operation of the service removes a row or changes what
    identifies a booking: after any operation every row is still in the
    table with the same id, room, owner, title, description, interval,
    idempotency key and creation time, and a row that was cancelled is
    still cancelled (cancellation is terminal); every row of the table
    afterwards comes from a row before, or is the one row that
    [createBooking] adds for its request; and the rooms are not touched. *)
Theorem history_is_kept env op w :
  let w' := perform env op w in
  (∀ b, b ∈ World.bookings w →
        ∃ b', b' ∈ World.bookings w' ∧ row_evolves b b') ∧
  (∀ b', b' ∈ World.bookings w' →
         (∃ b, b ∈ World.bookings w ∧ row_evolves b b') ∨
         (∃ data, op = CreateBooking data ∧ created_as env data b')) ∧
  (length (World.bookings w') = length (World.bookings w) ∨
   ∃ data, op = CreateBooking data ∧
           length (World.bookings w') = S (length (World.bookings w))) ∧
  World.rooms w' = World.rooms w.
Proof.
  cbv zeta.
  assert (∀ rows : list Booking.t,
            (∀ b, b ∈ rows → ∃ b', b' ∈ rows ∧ row_evolves b b') ∧
            (∀ b', b' ∈ rows →
               (∃ b, b ∈ rows ∧ row_evolves b b') ∨
               (∃ data, op = CreateBooking data ∧ created_as env data b')))
    as Hsame.
  { intros rows. split; [|intros b Hb; left]; intros; eexists;
      (split; [done|apply row_evolves_refl]). }
  destruct op as [data|id|f|id reason]; simpl.
  - destruct (createBooking_effect env data w)
      as [(Hb & _ & Hrooms & _)|(_ & _ & _ & _ & _ & Hb & Hrooms & _)];
      rewrite Hb, Hrooms.
    + destruct (Hsame (World.bookings w)) as [H1 H2].
      split; [done|]. split; [done|]. by split; [left|].
    + split; [|split; [|split; [|done]]].
      * intros b Hin. exists b. split; [|apply row_evolves_refl].
        apply elem_of_app. by left.
      * intros b' [Hin| ->%list_elem_of_singleton]%elem_of_app.
        -- left. exists b'. split; [done|apply row_evolves_refl].
        -- right. exists data. split; [done|apply created_as_new_row].
      * right. exists data. split; [done|]. rewrite length_app. simpl. lia.
  - rewrite (proj1 (getBooking_effect env id w)).
    destruct (Hsame (World.bookings w)) as [H1 H2].
    split; [done|]. split; [done|]. split; [by left|].
    rewrite getBooking_run. unfold getBooking_outcome.
    destruct (as_booking _); [done|]. by destruct (head _).
  - destruct (Hsame (World.bookings w)) as [H1 H2].
    split; [done|]. split; [done|]. by split; [left|].
  - rewrite cancelBooking_run. unfold cancelBooking_outcome.
    destruct (Hsame (World.bookings w)) as [H1 H2].
    destruct (head _); [case_decide|]; simpl.
    1,3: split; [done|]; split; [done|]; by split; [left|].
    split; [|split; [|split; [left; unfold update_rows; by rewrite length_fmap|done]]].
    + intros b Hin. unfold update_rows.
      eexists. split; [apply list_elem_of_fmap; eauto|].
      case_decide; [|apply row_evolves_refl]. by repeat split.
    + intros b' (b & -> & Hin)%list_elem_of_fmap. left. exists b.
      split; [done|]. case_decide; [|apply row_evolves_refl]. by repeat split.
Qed.

(** ** Cancelling frees the interval *)

Lemma conflicts_after_cancel now id env room s e rows :
  filter (conflicts_with room s e None) (update_rows now id (cancellation env) rows)
  = filter (λ b, Booking.id b ≠ id) (filter (conflicts_with room s e None) rows).
Proof.
  unfold update_rows. induction rows as [|b rest IH]; [done|].
  rewrite fmap_cons. destruct (decide (Booking.id b = id)) as [Hid|Hid].
  - rewrite filter_cons_False by (unfold conflicts_with; simpl; tauto).
    rewrite IH. destruct (decide (conflicts_with room s e None b)).
    + rewrite (filter_cons_True (conflicts_with room s e None)) by done.
      by rewrite filter_cons_False by tauto.
    + by rewrite (filter_cons_False (conflicts_with room s e None)) by done.
  - destruct (decide (conflicts_with room s e None b)).
    + rewrite !(filter_cons_True (conflicts_with room s e None)) by done.
      rewrite filter_cons_True by done. by rewrite IH.
    + rewrite !(filter_cons_False (conflicts_with room s e None)) by done.
      by rewrite IH.
Qed.

(** X10.  A successful [cancelBooking] frees the interval: for any request,
    the conflicts found afterwards are the conflicts found before without
    the rows of the cancelled id, in the same order; so a request whose only
    conflicts were with the cancelled booking passes the conflict check. *)
Theorem cancelBooking_frees_the_interval env id reason w w' updated :
  cancelBooking env id reason w = (w', inr updated) →
  ∀ room s e,
    filter (conflicts_with room s e None) (World.bookings w')
    = filter (λ b, Booking.id b ≠ id)
             (filter (conflicts_with room s e None) (World.bookings w)) ∧
    ((∀ b, b ∈ filter (conflicts_with room s e None) (World.bookings w) →
           Booking.id b = id) →
     filter (conflicts_with room s e None) (World.bookings w') = []).
Proof.
  rewrite cancelBooking_run. unfold cancelBooking_outcome.
  destruct (head _); [|done]. case_decide; [done|]. intros [= <- _].
  intros room s e. simpl. rewrite conflicts_after_cancel. split; [done|].
  intros Honly. apply filter_none. intros b Hb Hne. by apply Hne, Honly.
Qed.

(** The insert of a request whose key a row already carries. *)
Lemma consumed_key_insert env data w key existing :
  truthy (CreateBookingData.idempotencyKey data) = Some key →
  existing ∈ World.bookings w →
  Booking.idempotencyKey existing = Some key →
  Env.uuid env ∉ Booking.id <$> World.bookings w →
  createBooking_commit env data w
  = (add_calls [BookingCreate data] w,
     inl (DatabaseError "bookings_idempotency_key_key")).
Proof.
  intros Hkey Hin Htok Hfresh.
  rewrite commit_run. unfold commit_outcome.
  replace (insert_violation (new_row env data) w)
    with (Some "bookings_idempotency_key_key"%string); [done|].
  unfold insert_violation. simpl.
  rewrite decide_False by done. rewrite decide_True; [done|].
  rewrite Hkey. split; [done|]. rewrite <- Htok. apply list_elem_of_fmap. eauto.
Qed.

(** ** The cached id is trusted *)

(** X11.  When the cache holds an unexpired, non-empty id under
    [idempotency:<key>], [checkIdempotency] answers with whatever the table
    holds for that id and never queries the unique column.  So if no row has
    that id, the key resolves to nothing even though a row carries it, and a
    request with that key that passes the other checks then fails at the
    insert with the uniqueness violation. *)
Theorem checkIdempotency_trusts_the_cache env key w db e i :
  World.redis w = Some db →
  db !! ("idempotency:" +:+ key) = Some e →
  CacheEntry.value e = JString i →
  i ≠ ""%string →
  Env.now env < CacheEntry.expiresAt e →
  checkIdempotency env key w
  = (add_calls [CacheGet ("idempotency:" +:+ key); BookingFindById i] w,
     inr (stored i w)) ∧
  (stored i w = None →
   ∀ data existing,
     truthy (CreateBookingData.idempotencyKey data) = Some key →
     existing ∈ World.bookings w → Booking.idempotencyKey existing = Some key →
     known_room (CreateBookingData.roomId data) w →
     validateBookingTimes env (CreateBookingData.startTime data)
                              (CreateBookingData.endTime data) = inr tt →
     filter (conflicts_with (CreateBookingData.roomId data)
               (CreateBookingData.startTime data)
               (CreateBookingData.endTime data) None) (World.bookings w) = [] →
     Env.uuid env ∉ Booking.id <$> World.bookings w →
     snd (createBooking env data w)
     = inl (DatabaseError "bookings_idempotency_key_key")).
Proof.
  intros Hdb He Hv Hi Hlive.
  assert (Hread : redis_read (Env.now env) ("idempotency:" +:+ key) (World.redis w)
                  = Some (JString i)).
  { rewrite Hdb. destruct e as [v t]. simpl in *. subst v.
    by eapply redis_read_hit. }
  split.
  - unfold checkIdempotency. unfold_ports. unfold_monad.
    destruct w as [rows rooms redis bus exchange calls]. simpl in *.
    rewrite Hread. simpl. rewrite decide_False by done. simpl.
    unfold add_calls, World.log, stored. simpl. by rewrite <- app_assoc.
  - intros Hgone data existing Hkey Hin Htok [r Hroom] Hvalid Hfree Hfresh.
    assert (Hnone : replayed env data w = None).
    { unfold replayed. rewrite Hkey, lookup_token_unfold, Hread. simpl.
      by rewrite decide_False by done. }
    destruct (admission_run env data w) as (cs & _ & Hadm).
    rewrite createBooking_run, Hadm. unfold admission_outcome.
    rewrite Hnone, Hroom, Hvalid, Hfree.
    by rewrite (consumed_key_insert env data
                  (add_calls (cs ++ [RoomFindById (CreateBookingData.roomId data);
                      BookingFindConflicting (CreateBookingData.roomId data)
                        (CreateBookingData.startTime data)
                        (CreateBookingData.endTime data)]) w)
                  key existing Hkey Hin Htok Hfresh).
Qed.

(** ** Listing *)

#[local] Instance by_start_time_total : Total by_start_time.
Proof. intros a b. unfold by_start_time. lia. Qed.

#[local] Instance by_start_time_trans : Transitive by_start_time.
Proof. intros a b c. unfold by_start_time. lia. Qed.

(** X12.  [getBookings] makes one query and changes nothing; it returns
    exactly the rows that match the filter (each as often as the table holds
    it), ordered by start time ascending; with no filter these are all the
    rows; and a room id or user id that is the empty string restricts
    nothing. *)
Theorem getBookings_sorted_selection f w :
  ∃ bookings,
    getBookings f w = (add_calls [BookingFindAll f] w, inr bookings) ∧
    StronglySorted by_start_time bookings ∧
    bookings ≡ₚ filter (matches_filter f) (World.bookings w) ∧
    (f = None → bookings ≡ₚ World.bookings w) ∧
    (∀ g status from to b,
       f = Some (BookingFilter.mk (Some ""%string) (Some ""%string) status from to) →
       g = Some (BookingFilter.mk None None status from to) →
       matches_filter f b ↔ matches_filter g b).
Proof.
  exists (merge_sort by_start_time (filter (matches_filter f) (World.bookings w))).
  split; [done|]. split; [apply StronglySorted_merge_sort; apply _|].
  split; [apply merge_sort_Permutation|]. split.
  - intros ->. rewrite merge_sort_Permutation.
    induction (World.bookings w) as [|b l IH]; [done|].
    rewrite filter_cons_True by done. by rewrite IH.
  - by intros g status from to b -> ->.
Qed.

(** ** Repository: update and delete *)


(** X14.  [delete] removes exactly the rows with the id and keeps the others
    in order; it answers true exactly when a row had the id; afterwards the
    id is not found, and deleting an id that no row has changes nothing. *)
Theorem bookingRepository_delete_removes id w :
  let w' := fst (bookingRepository_delete id w) in
  World.bookings w' = filter (λ b, Booking.id b ≠ id) (World.bookings w) ∧
  snd (bookingRepository_delete id w)
  = inr (bool_decide (id ∈ Booking.id <$> World.bookings w)) ∧
  stored id w' = None ∧
  (∀ j, j ≠ id → stored j w' = stored j w) ∧
  (id ∉ Booking.id <$> World.bookings w → w' = w).
Proof.
  cbv zeta. unfold bookingRepository_delete. unfold_monad.
  destruct w as [rows rooms redis bus exchange calls]. simpl.
  split; [done|]. split; [|split; [|split]].
  - f_equal. apply bool_decide_ext. split.
    + intros Hlen. destruct (filter _ rows) as [|b l] eqn:Hf; [simpl in Hlen; lia|].
      assert (b ∈ filter (λ b, Booking.id b = id) rows) as [<- Hb]%list_elem_of_filter
        by (rewrite Hf; apply elem_of_cons; by left).
      apply list_elem_of_fmap. eauto.
    + intros (b & -> & Hb)%list_elem_of_fmap.
      assert (b ∈ filter (λ b0, Booking.id b0 = Booking.id b) rows) as Hin
        by by apply list_elem_of_filter.
      destruct (filter _ rows); [by apply elem_of_nil in Hin|simpl; lia].
  - unfold stored. simpl. apply head_None, filter_none.
    intros b [Hne _]%list_elem_of_filter. done.
  - intros j Hj. unfold stored. simpl. f_equal.
    induction rows as [|b l IH]; [done|].
    destruct (decide (Booking.id b = id)) as [Hid|Hid].
    + rewrite (filter_cons_False (λ b, Booking.id b ≠ id)) by tauto.
      rewrite filter_cons_False by congruence. done.
    + rewrite (filter_cons_True (λ b, Booking.id b ≠ id)) by done.
      destruct (decide (Booking.id b = j)).
      * rewrite !filter_cons_True by done. by rewrite IH.
      * rewrite !filter_cons_False by done. by rewrite IH.
  - intros Hnot. unfold World.set_bookings. simpl. f_equal.
    induction rows as [|b l IH]; [done|].
    rewrite fmap_cons in Hnot. apply not_elem_of_cons in Hnot as [Hne Hnot].
    rewrite filter_cons_True by done. by rewrite IH.
Qed.

(** ** Availability of a room *)

Lemma getAvailability_Some tz roomId date w a :
  getAvailability tz roomId date w = Some a →
  known_room roomId w ∧
  RoomAvailability.bookedSlots a
  = booked_slot <$>
      merge_sort by_start_time
        (filter (booked_on roomId (setHours tz date 0 0 0 0)
                           (setHours tz date 23 59 59 999))
                (World.bookings w)) ∧
  RoomAvailability.availableSlots a
  = calculateAvailableSlots (businessStart tz date) (businessEnd tz date)
      (RoomAvailability.bookedSlots a).
Proof.
  unfold getAvailability, known_room.
  destruct (head (filter _ (World.rooms w))) as [r|] eqn:Hroom; [|done].
  intros [= <-]. simpl. split; [eauto|done].
Qed.

Lemma booked_slots_sorted rows :
  StronglySorted starts_before (booked_slot <$> merge_sort by_start_time rows).
Proof.
  apply (StronglySorted_fmap _ by_start_time); [done|].
  apply StronglySorted_merge_sort; apply _.
Qed.

(** X15.  [getAvailability] answers nothing exactly when no room has the
    id.  Otherwise it echoes the room and the date; its booked slots are the
    intervals of the rows of that room that are not cancelled and START
    within the day, from 00:00:00.000 to before 23:59:59.999 local time, one
    slot per row and in order of start; its available slots are those of
    [calculateAvailableSlots] for the business hours. *)
Theorem getAvailability_selection tz roomId date w :
  let startOfDay := setHours tz date 0 0 0 0 in
  let endOfDay := setHours tz date 23 59 59 999 in
  (getAvailability tz roomId date w = None ↔ ¬ known_room roomId w) ∧
  ∀ a, getAvailability tz roomId date w = Some a →
    RoomAvailability.roomId a = roomId ∧
    RoomAvailability.date a = date ∧
    RoomAvailability.bookedSlots a
    ≡ₚ booked_slot <$>
         filter (λ b, Booking.roomId b = roomId ∧ Booking.status b ≠ CANCELLED ∧
                      startOfDay ≤ Booking.startTime b < endOfDay)
                (World.bookings w) ∧
    StronglySorted starts_before (RoomAvailability.bookedSlots a) ∧
    RoomAvailability.availableSlots a
    = calculateAvailableSlots (setHours tz date 8 0 0 0)
        (setHours tz date 18 0 0 0) (RoomAvailability.bookedSlots a).
Proof.
  cbv zeta. split.
  - unfold getAvailability, known_room.
    destruct (head (filter _ (World.rooms w))) as [r|]; split; try done.
    intros Hnot. destruct Hnot. eauto.
  - intros a Ha. pose proof (getAvailability_Some _ _ _ _ _ Ha) as (_ & Hb & Hav).
    split; [|split; [|split; [|split]]].
    + unfold getAvailability in Ha.
      destruct (head _); [|done]. by injection Ha as <-.
    + unfold getAvailability in Ha.
      destruct (head _); [|done]. by injection Ha as <-.
    + rewrite Hb. apply fmap_Permutation.
      rewrite merge_sort_Permutation. done.
    + rewrite Hb. apply booked_slots_sorted.
    + done.
Qed.

(** Two different positions of the booked slots of a consistent state come
    from two different rows of the room, neither cancelled. *)
Lemma booked_slots_exclusive rows roomId startOfDay endOfDay i j s1 s2 t :
  NoDup (Booking.id <$> rows) → no_double_booking rows →
  let booked := booked_slot <$>
    merge_sort by_start_time (filter (booked_on roomId startOfDay endOfDay) rows) in
  i ≠ j → booked !! i = Some s1 → booked !! j = Some s2 →
  ¬ (in_slot t s1 ∧ in_slot t s2).
Proof.
  intros Hids Hexcl booked Hij H1 H2 [Ht1 Ht2]. subst booked.
  apply list_lookup_fmap_Some in H1 as (b1 & -> & H1).
  apply list_lookup_fmap_Some in H2 as (b2 & -> & H2).
  assert (NoDup (merge_sort by_start_time
                   (filter (booked_on roomId startOfDay endOfDay) rows))) as Hnd.
  { rewrite merge_sort_Permutation. apply NoDup_filter.
    by apply NoDup_fmap_1 in Hids. }
  assert (b1 ≠ b2) as Hne.
  { intros <-. apply Hij. by eapply NoDup_lookup. }
  apply list_elem_of_lookup_2 in H1, H2.
  rewrite merge_sort_Permutation in H1, H2.
  apply list_elem_of_filter in H1 as [(Hr1 & Hs1 & _) Hb1].
  apply list_elem_of_filter in H2 as [(Hr2 & Hs2 & _) Hb2].
  apply list_elem_of_lookup_1 in Hb1 as [i' Hi'].
  apply list_elem_of_lookup_1 in Hb2 as [j' Hj'].
  apply (Hexcl i' j' b1 b2); try done.
  - intros <-. congruence.
  - congruence.
  - exists t. by split.
Qed.

(** X16.  In every state the answer of [getAvailability] splits the
    business hours of the day: every instant from 08:00 to before 18:00 is
    in an available slot or in a booked slot, and no instant is in both.
    When moreover the ids of the table are unique and no two rows of a
    room, neither cancelled, share an instant (as is the case after
    requests that did not interleave), no instant is in two booked slots. *)
Theorem getAvailability_splits_business_hours tz roomId date w a :
  getAvailability tz roomId date w = Some a →
  let available := RoomAvailability.availableSlots a in
  let booked := RoomAvailability.bookedSlots a in
  (∀ t, setHours tz date 8 0 0 0 ≤ t < setHours tz date 18 0 0 0 →
        (∃ s, s ∈ available ∧ in_slot t s) ∨ (∃ s, s ∈ booked ∧ in_slot t s)) ∧
  (∀ t s1 s2, s1 ∈ available → s2 ∈ booked →
              ¬ (in_slot t s1 ∧ in_slot t s2)) ∧
  (NoDup (Booking.id <$> World.bookings w) →
   no_double_booking (World.bookings w) →
   ∀ t i j s1 s2, i ≠ j → booked !! i = Some s1 → booked !! j = Some s2 →
                  ¬ (in_slot t s1 ∧ in_slot t s2)).
Proof.
  intros Ha. cbv zeta.
  apply getAvailability_Some in Ha as (_ & Hb & ->).
  assert (Sorted starts_before (RoomAvailability.bookedSlots a)) as Hsorted.
  { rewrite Hb. apply StronglySorted_Sorted, booked_slots_sorted. }
  destruct (calculateAvailableSlots_complement (businessStart tz date)
              (businessEnd tz date) _ Hsorted) as [Hcover Hmiss].
  split; [exact Hcover|]. split.
  - intros t s1 s2 H1 H2 [Ht1 Ht2]. by eapply Hmiss.
  - intros Hids Hexclusive t i j s1 s2 Hij H1 H2. rewrite Hb in H1, H2.
    by eapply booked_slots_exclusive.
Qed.

(** The shape of what the loop pushes: each slot is not empty and starts at
    or after the cursor, they come in sequence, and they end at or before
    the cursor the loop stops with. *)
Lemma pushed_shape cursor booked :
  Forall (λ b, TimeSlot.startTime b ≤ TimeSlot.endTime b) booked →
  Forall (λ a, cursor ≤ TimeSlot.startTime a ∧ slot_nonempty a ∧
               TimeSlot.endTime a ≤ cursor_after cursor booked)
         (pushed cursor booked) ∧
  StronglySorted slot_precedes (pushed cursor booked).
Proof.
  intros Hwf. revert cursor.
  induction Hwf as [|b rest Hb Hrest IH]; intros cursor; simpl.
  - split; constructor.
  - destruct (IH (cursor `max` TimeSlot.endTime b)) as [Hall Hsorted].
    pose proof (cursor_after_ge (cursor `max` TimeSlot.endTime b) rest) as Hge.
    assert (Forall (λ a, cursor ≤ TimeSlot.startTime a ∧ slot_nonempty a ∧
                     TimeSlot.endTime a
                     ≤ cursor_after (cursor `max` TimeSlot.endTime b) rest)
                   (pushed (cursor `max` TimeSlot.endTime b) rest)) as Hall'.
    { eapply Forall_impl; [exact Hall|]. simpl. intros a (? & ? & ?).
      split; [lia|done]. }
    case_decide as Hlt; simpl; [|done].
    split.
    + constructor; [|done]. unfold slot_nonempty. simpl. lia.
    + constructor; [done|].
      eapply Forall_impl; [exact Hall|]. simpl. intros a (? & _ & _).
      unfold slot_precedes. simpl. lia.
Qed.

(** Where the slots of the loop begin and end: at the cursor or at the end
    of a booked slot, and at the start of a booked slot. *)
Lemma cursor_after_endpoint cursor booked :
  cursor_after cursor booked = cursor ∨
  ∃ b, b ∈ booked ∧ cursor_after cursor booked = TimeSlot.endTime b.
Proof.
  revert cursor. induction booked as [|b rest IH]; intros cursor; simpl.
  - by left.
  - destruct (IH (cursor `max` TimeSlot.endTime b)) as [->|(b' & Hb' & ->)].
    + destruct (Z.max_spec cursor (TimeSlot.endTime b)) as [[_ ->]|[_ ->]].
      * right. exists b. split; [by apply elem_of_cons; left|done].
      * by left.
    + right. exists b'. split; [by apply elem_of_cons; right|done].
Qed.

Lemma pushed_endpoints cursor booked a :
  a ∈ pushed cursor booked →
  (TimeSlot.startTime a = cursor ∨
   ∃ b, b ∈ booked ∧ TimeSlot.startTime a = TimeSlot.endTime b) ∧
  (∃ b, b ∈ booked ∧ TimeSlot.endTime a = TimeSlot.startTime b).
Proof.
  revert cursor. induction booked as [|b rest IH]; intros cursor Ha; simpl in Ha.
  - by apply elem_of_nil in Ha.
  - apply elem_of_app in Ha as [Ha|Ha].
    + case_decide; [|by apply elem_of_nil in Ha].
      apply list_elem_of_singleton in Ha as ->. simpl. split; [by left|].
      exists b. split; [by apply elem_of_cons; left|done].
    + apply IH in Ha as [Hstart (b' & Hb' & Hend)]. split.
      * destruct Hstart as [Hstart|(b0 & Hb0 & Hstart)].
        -- destruct (Z.max_spec cursor (TimeSlot.endTime b)) as [[_ Hmax]|[_ Hmax]];
             rewrite Hmax in Hstart.
           ++ right. exists b. split; [by apply elem_of_cons; left|done].
           ++ by left.
        -- right. exists b0. split; [by apply elem_of_cons; right|done].
      * exists b'. split; [by apply elem_of_cons; right|done].
Qed.

Lemma pushed_nil cursor booked :
  Forall (λ b, TimeSlot.startTime b ≤ cursor) booked → pushed cursor booked = [].
Proof.
  intros Hall. revert cursor Hall.
  induction booked as [|b rest IH]; intros cursor Hall; simpl; [done|].
  apply Forall_cons in Hall as [Hb Hrest].
  rewrite decide_False by lia. simpl. apply IH.
  eapply Forall_impl; [exact Hrest|]. simpl. lia.
Qed.

(** X17.  For a window that is not empty and booked slots none of which ends
    before it starts, in any order and overlapping or not, the available
    slots of [calculateAvailableSlots] are well formed: each starts at or
    after the start of the window and is not empty, and they come in
    sequence, each ending at or before the start of the next. *)
Theorem calculateAvailableSlots_well_formed dayStart dayEnd booked :
  dayStart < dayEnd →
  Forall (λ b, TimeSlot.startTime b ≤ TimeSlot.endTime b) booked →
  let available := calculateAvailableSlots dayStart dayEnd booked in
  Forall (λ a, dayStart ≤ TimeSlot.startTime a ∧ slot_nonempty a) available ∧
  StronglySorted slot_precedes available.
Proof.
  intros Hwin Hwf. cbv zeta.
  destruct (decide (booked = [])) as [->|Hne].
  - simpl. split; repeat constructor; by simpl.
  - rewrite calculateAvailableSlots_unfold by done.
    destruct (pushed_shape dayStart booked Hwf) as [Hall Hsorted].
    pose proof (cursor_after_ge dayStart booked) as Hge.
    split.
    + apply Forall_app. split.
      * eapply Forall_impl; [exact Hall|]. simpl. tauto.
      * case_decide; repeat constructor; simpl; [lia|done].
    + apply StronglySorted_app. split; [|split; [done|]].
      * intros a1 a2 Ha1 Ha2. case_decide; [|by apply elem_of_nil in Ha2].
        apply list_elem_of_singleton in Ha2 as ->.
        rewrite Forall_forall in Hall. apply Hall in Ha1 as (_ & _ & Hend).
        unfold slot_precedes. simpl. lia.
      * case_decide; repeat constructor.
Qed.

(** X18.  The bounds of the available slots: an available slot starts at the
    start of the window or at the end of a booked slot, and it ends at the
    end of the window or at the start of a booked slot.  They are not cut at
    the end of the window: when the first booked slot starts after the start
    of the window, the first available slot runs to the start of that booked
    slot, also when this is after the end of the window.  And when every
    booked slot starts at or before the start of the window and one of them
    ends at or after its end, there is no available slot. *)
Theorem calculateAvailableSlots_bounds dayStart dayEnd booked :
  let available := calculateAvailableSlots dayStart dayEnd booked in
  (∀ a, a ∈ available →
     (TimeSlot.startTime a = dayStart ∨
      ∃ b, b ∈ booked ∧ TimeSlot.startTime a = TimeSlot.endTime b) ∧
     (TimeSlot.endTime a = dayEnd ∨
      ∃ b, b ∈ booked ∧ TimeSlot.endTime a = TimeSlot.startTime b)) ∧
  (∀ b rest, booked = b :: rest → dayStart < TimeSlot.startTime b →
     head available = Some (slot dayStart (TimeSlot.startTime b))) ∧
  (Forall (λ b, TimeSlot.startTime b ≤ dayStart) booked →
   Exists (λ b, dayEnd ≤ TimeSlot.endTime b) booked →
   available = []).
Proof.
  cbv zeta. split; [|split].
  - intros a Ha. destruct (decide (booked = [])) as [->|Hne].
    + apply list_elem_of_singleton in Ha as ->. simpl. split; by left.
    + rewrite calculateAvailableSlots_unfold in Ha by done.
      apply elem_of_app in Ha as [Ha|Ha].
      * apply pushed_endpoints in Ha as [Hstart Hend]. split; [done|by right].
      * case_decide; [|by apply elem_of_nil in Ha].
        apply list_elem_of_singleton in Ha as ->. simpl. split; [|by left].
        apply cursor_after_endpoint.
  - intros b rest -> Hlt. rewrite calculateAvailableSlots_unfold by done.
    simpl. by rewrite decide_True.
  - intros Hall (b & Hb & Hend)%Exists_exists.
    assert (booked ≠ []) as Hne by (intros ->; by apply elem_of_nil in Hb).
    rewrite calculateAvailableSlots_unfold by done.
    rewrite pushed_nil by done.
    pose proof (booked_ends_before_cursor dayStart booked b Hb).
    rewrite decide_False by lia. done.
Qed.

(** ** [RoomService.getRoomAvailability] *)

Lemma getRoomAvailability_run tz env roomId date w :
  getRoomAvailability tz env roomId date w
  = let key := availability_key roomId date in
    let w0 := World.log (CacheGet key) w in
    match as_availability (redis_read (Env.now env) key (World.redis w)) with
    | Some cached => (w0, inr cached)
    | None =>
        match getAvailability tz roomId date w with
        | None => (w0, inl (RoomNotFoundError roomId))
        | Some a =>
            let ttl := Config.cache_ttl (Env.config env) in
            (World.set_redis
               (redis_setex (Env.now env) key ttl (JAvailability a) (World.redis w))
               (World.log (CacheSet key (JAvailability a) ttl) w0),
             inr a)
        end
    end.
Proof.
  unfold getRoomAvailability, roomRepository_getAvailability. unfold_ports.
  unfold_monad. destruct w as [rows rooms redis bus exchange calls]. simpl.
  destruct (as_availability _); [done|].
  unfold getAvailability. simpl. by destruct (head _).
Qed.

(** X19.  [getRoomAvailability] is a cache-aside read.  On a live entry of
    the key [availability:<room>:<UTC day>] it answers the entry and leaves
    the cache as it is, whatever the rows are.  On a miss it answers what
    the repository computes and stores it under the key for [cache.ttl]
    seconds; for a room that does not exist it throws RoomNotFoundError and
    stores nothing.  It never changes the rows. *)
Theorem getRoomAvailability_cache_aside tz env roomId date w :
  let key := availability_key roomId date in
  let w' := fst (getRoomAvailability tz env roomId date w) in
  let result := snd (getRoomAvailability tz env roomId date w) in
  World.bookings w' = World.bookings w ∧
  (∀ a, redis_read (Env.now env) key (World.redis w) = Some (JAvailability a) →
        result = inr a ∧ World.redis w' = World.redis w) ∧
  (redis_read (Env.now env) key (World.redis w) = None →
   match getAvailability tz roomId date w with
   | Some a =>
       result = inr a ∧
       World.redis w'
       = redis_setex (Env.now env) key (Config.cache_ttl (Env.config env))
           (JAvailability a) (World.redis w)
   | None =>
       result = inl (RoomNotFoundError roomId) ∧ World.redis w' = World.redis w
   end).
Proof.
  cbv zeta. rewrite getRoomAvailability_run. cbv zeta. split; [|split].
  - destruct (as_availability _); [done|]. by destruct (getAvailability _ _ _ _).
  - intros a ->. done.
  - intros ->. simpl. by destruct (getAvailability _ _ _ _).
Qed.

Lemma availability_key_ne_booking_key roomId date id :
  availability_key roomId date ≠ "booking:" +:+ id.
Proof. unfold availability_key. cbv [String.append]. congruence. Qed.

Lemma availability_key_ne_idempotency_key roomId date k :
  availability_key roomId date ≠ "idempotency:" +:+ k.
Proof. unfold availability_key. cbv [String.append]. congruence. Qed.

Lemma cache_entry_setex now key ttl v r key' :
  key' ≠ key → cache_entry key' (redis_setex now key ttl v r) = cache_entry key' r.
Proof.
  intros Hne. destruct r as [db|]; [|done]. unfold redis_setex.
  case_decide; [|done]. simpl. by rewrite lookup_insert_ne.
Qed.

Lemma cache_entry_del key r key' :
  key' ≠ key → cache_entry key' (redis_del key r) = cache_entry key' r.
Proof.
  intros Hne. destruct r as [db|]; [|done]. simpl. by rewrite lookup_delete_ne.
Qed.

Lemma redis_read_entry now key r :
  redis_read now key r
  = match cache_entry key r with
    | Some e => if decide (now < CacheEntry.expiresAt e)
                then Some (CacheEntry.value e) else None
    | None => None
    end.
Proof. by destruct r. Qed.

Lemma perform_keeps_availability env op w roomId date :
  cache_entry (availability_key roomId date) (World.redis (perform env op w))
  = cache_entry (availability_key roomId date) (World.redis w).
Proof.
  destruct op as [data|id|f|id reason]; simpl.
  - destruct (createBooking_effect env data w) as [(_ & -> & _)|Hcreated];
      [done|].
    destruct Hcreated as (_ & _ & _ & _ & _ & _ & _ & ->).
    rewrite cache_entry_setex by apply availability_key_ne_booking_key.
    destruct (truthy _) as [k|]; [|done].
    by rewrite cache_entry_setex by apply availability_key_ne_idempotency_key.
  - destruct (getBooking_effect env id w) as [_ [->|[b ->]]]; [done|].
    by rewrite cache_entry_setex by apply availability_key_ne_booking_key.
  - done.
  - destruct (cancelBooking_effect env id reason w) as [[_ ->]|[_ ->]]; [done|].
    by rewrite cache_entry_del by apply availability_key_ne_booking_key.
Qed.

Lemma perform_all_keeps_availability ops w roomId date :
  cache_entry (availability_key roomId date) (World.redis (perform_all ops w))
  = cache_entry (availability_key roomId date) (World.redis w).
Proof.
  unfold perform_all. revert w.
  induction ops as [|[env op] ops IH]; intros w; simpl; [done|].
  by rewrite IH, perform_keeps_availability.
Qed.

(** While the bus is not connected no operation publishes anything. *)
Lemma perform_bus_down env op w :
  World.busConnected w = false →
  World.busConnected (perform env op w) = false ∧
  World.exchange (perform env op w) = World.exchange w.
Proof.
  intros Hbus. destruct op as [data|id|f|id reason]; simpl.
  - destruct (admission_run env data w) as (cs & _ & Hadm).
    rewrite createBooking_run, Hadm. unfold admission_outcome, delivered.
    rewrite Hbus.
    destruct (replayed env data w); [done|]. destruct (head _); [|done].
    destruct (validateBookingTimes env _ _); [done|].
    destruct (filter _ (World.bookings w)); [|done].
    rewrite commit_run. unfold commit_outcome, delivered. simpl. rewrite Hbus.
    by destruct (insert_violation _ _).
  - rewrite getBooking_run. unfold getBooking_outcome.
    destruct (as_booking _); [done|]. by destruct (head _).
  - done.
  - rewrite cancelBooking_run. unfold cancelBooking_outcome, delivered.
    rewrite Hbus. destruct (head _); [|done]. by case_decide.
Qed.

Lemma perform_all_bus_down ops w :
  World.busConnected w = false →
  World.exchange (perform_all ops w) = World.exchange w.
Proof.
  unfold perform_all. revert w.
  induction ops as [|[env op] ops IH]; intros w Hbus; simpl; [done|].
  destruct (perform_bus_down env op w Hbus) as [Hbus' Hexchange].
  by rewrite IH, Hexchange.
Qed.

(** X20.  With the event bus down, a cached availability outlives the
    bookings.  When nothing has been published and the bus is and stays
    disconnected, a run of createBooking, getBooking, getBookings and
    cancelBooking publishes nothing, so that no event handler has anything
    to handle, and it neither writes nor removes an entry
    [availability:...]: until the entry expires [getRoomAvailability] keeps
    answering it for every instant of the same UTC day, whatever was booked
    or cancelled in the room since. *)
Theorem cached_availability_outlives_bookings
  tz roomId date db e a ops env' date' w :
  World.busConnected w = false →
  World.exchange w = [] →
  World.redis w = Some db →
  db !! availability_key roomId date = Some e →
  CacheEntry.value e = JAvailability a →
  Env.now env' < CacheEntry.expiresAt e →
  date' / msPerDay = date / msPerDay →
  let w' := perform_all ops w in
  World.exchange w' = [] ∧
  cache_entry (availability_key roomId date) (World.redis w') = Some e ∧
  snd (getRoomAvailability tz env' roomId date' w') = inr a.
Proof.
  intros Hbus Hquiet Hdb He Hval Hlive Hday. cbv zeta.
  split; [by rewrite perform_all_bus_down|].
  assert (cache_entry (availability_key roomId date)
            (World.redis (perform_all ops w)) = Some e) as Hentry.
  { rewrite perform_all_keeps_availability, Hdb. done. }
  split; [done|].
  assert (availability_key roomId date' = availability_key roomId date) as Hkey.
  { unfold availability_key, dateKey. by rewrite Hday. }
  rewrite getRoomAvailability_run. cbv zeta.
  rewrite Hkey, redis_read_entry, Hentry, decide_True, Hval by done. done.
Qed.

(** ** InMemoryCache *)

Lemma InMemoryCache_get_answer {V} now key (cache : InMemoryCache.t V) :
  snd (InMemoryCache.get now key cache)
  = match cache !! key with
    | Some e => if decide (now > InMemoryCache.expiresAt e)
                then None else Some (InMemoryCache.value e)
    | None => None
    end.
Proof.
  unfold InMemoryCache.get. destruct (cache !! key); [|done]. by case_decide.
Qed.

Lemma InMemoryCache_get_state {V} now key (cache : InMemoryCache.t V) key' :
  fst (InMemoryCache.get now key cache) !! key'
  = match cache !! key' with
    | Some e => if decide (key' = key ∧ now > InMemoryCache.expiresAt e)
                then None else Some e
    | None => None
    end.
Proof.
  unfold InMemoryCache.get. destruct (cache !! key) as [e|] eqn:He; simpl.
  - case_decide as Hexp; simpl.
    + destruct (decide (key' = key)) as [->|Hne].
      * rewrite lookup_delete_eq, He. by rewrite decide_True.
      * rewrite lookup_delete_ne by done.
        destruct (cache !! key'); [|done]. rewrite decide_False; [done|tauto].
    + destruct (cache !! key') as [e'|] eqn:He'; [|done].
      rewrite decide_False; [done|]. intros [-> ?]. congruence.
  - destruct (cache !! key') as [e'|] eqn:He'; [|done].
    rewrite decide_False; [done|]. intros [-> ?]. congruence.
Qed.

(** X21.  Writing and reading the in-memory cache.  After [set] the key
    reads back the value at every instant up to and including
    [now + ttl * 1000], where the TTL is the argument or, without one, the
    default of the cache; later it reads null.  Other keys read as before.
    [exists] answers true exactly when [get] answers a value, and leaves
    the same state; after [delete] the key reads null, and [delete]
    answers whether the key had an entry, expired or not. *)
Theorem InMemoryCache_set_get {V} defaultTtl now key (v : V) ttlSeconds cache
  now' key' :
  let cache' := InMemoryCache.set defaultTtl now key v ttlSeconds cache in
  snd (InMemoryCache.get now' key' cache')
  = (if decide (key' = key)
     then if decide (now' ≤ now + default defaultTtl ttlSeconds * 1000)
          then Some v else None
     else snd (InMemoryCache.get now' key' cache)) ∧
  snd (InMemoryCache.exists_ now' key' cache)
  = bool_decide (is_Some (snd (InMemoryCache.get now' key' cache))) ∧
  fst (InMemoryCache.exists_ now' key' cache)
  = fst (InMemoryCache.get now' key' cache) ∧
  snd (InMemoryCache.get now' key (fst (InMemoryCache.delete key cache))) = None ∧
  snd (InMemoryCache.delete key cache) = bool_decide (is_Some (cache !! key)).
Proof.
  cbv zeta. split; [|split; [|split; [|split]]].
  - rewrite !InMemoryCache_get_answer. unfold InMemoryCache.set.
    destruct (decide (key' = key)) as [->|Hne].
    + rewrite lookup_insert_eq. simpl. repeat case_decide; try done; lia.
    + by rewrite lookup_insert_ne.
  - unfold InMemoryCache.exists_, InMemoryCache.get.
    destruct (cache !! key'); [|done]. by case_decide.
  - unfold InMemoryCache.exists_, InMemoryCache.get.
    destruct (cache !! key'); [|done]. by case_decide.
  - rewrite InMemoryCache_get_answer. simpl. by rewrite lookup_delete_eq.
  - done.
Qed.

Lemma InMemoryCache_cleanup_lookup {V} now (cache : InMemoryCache.t V) key :
  InMemoryCache.cleanup now cache !! key
  = match cache !! key with
    | Some e => if decide (now > InMemoryCache.expiresAt e) then None else Some e
    | None => None
    end.
Proof.
  unfold InMemoryCache.cleanup.
  assert (∀ c0 : InMemoryCache.t V,
    map_fold (λ key entry cache,
                if decide (now > InMemoryCache.expiresAt entry)
                then delete key cache else cache) c0 cache !! key
    = match cache !! key with
      | Some e => if decide (now > InMemoryCache.expiresAt e)
                  then None else c0 !! key
      | None => c0 !! key
      end) as Hfold.
  { intros c0. revert key.
    apply (map_fold_weak_ind (λ r m, ∀ key, r !! key
      = match m !! key with
        | Some e => if decide (now > InMemoryCache.expiresAt e)
                    then None else c0 !! key
        | None => c0 !! key
        end)).
    - intros key. by rewrite lookup_empty.
    - intros i x m r Hi IH key. destruct (decide (key = i)) as [->|Hne].
      + rewrite lookup_insert_eq. case_decide.
        * by rewrite lookup_delete_eq.
        * by rewrite IH, Hi.
      + rewrite lookup_insert_ne by done. rewrite <- IH.
        case_decide; [by rewrite lookup_delete_ne|done]. }
  rewrite Hfold. destruct (cache !! key) as [e|] eqn:He; [|done].
  by case_decide.
Qed.

(** X22.  Purging is not observable.  [get] removes the entry it finds
    expired and [cleanup] removes exactly the entries that are expired at
    its instant, keeping those with [now <= expiresAt]; as the clock does
    not go back, a later [get] of any key answers the same with or without
    the purge. *)
Theorem InMemoryCache_purge_is_unobservable {V} now now' key key'
  (cache : InMemoryCache.t V) :
  now ≤ now' →
  snd (InMemoryCache.get now' key' (fst (InMemoryCache.get now key cache)))
  = snd (InMemoryCache.get now' key' cache) ∧
  snd (InMemoryCache.get now' key' (InMemoryCache.cleanup now cache))
  = snd (InMemoryCache.get now' key' cache) ∧
  InMemoryCache.cleanup now cache
  = filter (λ kv, now ≤ InMemoryCache.expiresAt kv.2) cache.
Proof.
  intros Hclock. split; [|split].
  - rewrite !InMemoryCache_get_answer, InMemoryCache_get_state.
    destruct (cache !! key') as [e|]; [|done].
    case_decide as Hpurged; [|done]. rewrite decide_True; [done|lia].
  - rewrite !InMemoryCache_get_answer, InMemoryCache_cleanup_lookup.
    destruct (cache !! key') as [e|]; [|done].
    case_decide as Hpurged; [|done]. rewrite decide_True; [done|lia].
  - apply map_eq. intros k.
    rewrite InMemoryCache_cleanup_lookup, map_lookup_filter.
    destruct (cache !! k) as [e|]; [|done]. simpl.
    case_decide; case_guard; simpl in *; try done; lia.
Qed.

Lemma InMemoryCache_deletePattern_fold {V} prefix (cache c0 : InMemoryCache.t V) n0 :
  let r := map_fold (λ key (_ : InMemoryCache.entry V) '(cache, count),
                       if String.prefix prefix key
                       then (delete key cache, S count)
                       else (cache, count))
                    (c0, n0) cache in
  (∀ key, r.1 !! key
          = match cache !! key with
            | Some _ => if String.prefix prefix key then None else c0 !! key
            | None => c0 !! key
            end) ∧
  r.2 = (n0 + size (filter (λ kv, String.prefix prefix kv.1 = true) cache))%nat.
Proof.
  cbv zeta.
  apply (map_fold_weak_ind (λ (r : InMemoryCache.t V * nat) m,
    (∀ key, r.1 !! key
            = match m !! key with
              | Some _ => if String.prefix prefix key then None else c0 !! key
              | None => c0 !! key
              end) ∧
    r.2 = (n0 + size (filter (λ kv, String.prefix prefix kv.1 = true) m))%nat)).
  - split.
    + intros key. by rewrite lookup_empty.
    + rewrite map_filter_empty, map_size_empty. simpl. lia.
  - intros i x m [c n] Hi [IHc IHn]. simpl in IHc, IHn.
    destruct (String.prefix prefix i) eqn:Hp; simpl.
    + split.
      * intros key. destruct (decide (key = i)) as [->|Hne].
        -- by rewrite lookup_insert_eq, Hp, lookup_delete_eq.
        -- by rewrite lookup_insert_ne, lookup_delete_ne, IHc.
      * rewrite map_filter_insert_True by done.
        rewrite map_size_insert_None; [lia|].
        apply map_lookup_filter_None. by left.
    + split.
      * intros key. destruct (decide (key = i)) as [->|Hne].
        -- by rewrite lookup_insert_eq, Hp, IHc, Hi.
        -- by rewrite lookup_insert_ne, IHc.
      * rewrite map_filter_insert_False by (simpl; congruence).
        by rewrite delete_id.
Qed.

Lemma replace_star_no_star p : no_star p → InMemoryCache.replace_star p = p.
Proof.
  induction p as [|c p IH]; simpl; [done|]. intros [Hc Hp].
  rewrite decide_False by done. by rewrite IH.
Qed.

(** X23.  [deletePattern] treats its pattern as a prefix, not as a glob: it
    removes exactly the keys that start with the pattern less its first
    [*], and answers how many it removed.  So [p*] removes the keys that
    start with [p]; a pattern without [*] is a prefix as well, not an exact
    key; and a [*] in the middle is dropped, the rest being matched
    literally. *)
Theorem InMemoryCache_deletePattern_is_prefix {V} pattern
  (cache : InMemoryCache.t V) :
  let prefix := InMemoryCache.replace_star pattern in
  let cache' := fst (InMemoryCache.deletePattern pattern cache) in
  let count := snd (InMemoryCache.deletePattern pattern cache) in
  cache' = filter (λ kv, String.prefix prefix kv.1 = false) cache ∧
  count = size (filter (λ kv, String.prefix prefix kv.1 = true) cache) ∧
  size cache = (size cache' + count)%nat ∧
  (∀ p q, no_star p →
          InMemoryCache.replace_star (p +:+ "*" +:+ q) = p +:+ q) ∧
  (no_star pattern → prefix = pattern).
Proof.
  cbv zeta. unfold InMemoryCache.deletePattern.
  destruct (InMemoryCache_deletePattern_fold
              (InMemoryCache.replace_star pattern) cache cache 0)
    as [Hstate Hcount].
  cbv zeta in Hstate, Hcount. set (r := map_fold _ _ _) in *.
  assert (r.1 = filter (λ kv, String.prefix (InMemoryCache.replace_star pattern)
                                kv.1 = false) cache) as Hfilter.
  { apply map_eq. intros k. rewrite Hstate, map_lookup_filter.
    destruct (cache !! k) as [e|]; [|done]. simpl.
    destruct (String.prefix _ k); case_guard; simpl in *; done. }
  split; [exact Hfilter|]. split; [exact Hcount|]. split; [|split].
  - rewrite Hfilter, Hcount. simpl.
    rewrite <- map_size_disj_union.
    + f_equal. symmetry.
      assert (filter (λ kv : string * InMemoryCache.entry V,
                        String.prefix (InMemoryCache.replace_star pattern) kv.1
                        = true) cache
              = filter (λ kv, ¬ String.prefix
                                  (InMemoryCache.replace_star pattern) kv.1
                                = false) cache) as ->.
      { apply map_filter_strong_ext_1. intros i x. simpl.
        destruct (String.prefix _ i); split; intros [? ?]; by split. }
      apply map_filter_union_complement.
    + apply map_disjoint_spec. intros i x y.
      intros [_ H1]%map_lookup_filter_Some [_ H2]%map_lookup_filter_Some.
      simpl in *. congruence.
  - intros p q. induction p as [|c p IH]; simpl; [done|]. intros [Hc Hp].
    rewrite decide_False by done. by rewrite IH.
  - apply replace_star_no_star.
Qed.

Lemma ceil_seconds_bounds x :
  (ceil_seconds x - 1) * 1000 < x ≤ ceil_seconds x * 1000.
Proof.
  unfold ceil_seconds.
  pose proof (Z.div_mod (- x) 1000). pose proof (Z.mod_pos_bound (- x) 1000). lia.
Qed.

(** X24.  [ttl] and [get] disagree at the instant of expiry.  For a key with
    an entry, [ttl] answers the remaining time rounded up to whole seconds
    while [now < expiresAt], and -1 from [expiresAt] on; [get] still
    answers the value at [now = expiresAt] and answers null only after.  For a key without an entry [ttl] answers -2. *)
Theorem InMemoryCache_ttl_at_expiry {V} now key (cache : InMemoryCache.t V) :
  match cache !! key with
  | None =>
      InMemoryCache.ttl now key cache = -2 ∧
      snd (InMemoryCache.get now key cache) = None
  | Some e =>
      let remaining := InMemoryCache.ttl now key cache in
      (now < InMemoryCache.expiresAt e →
       (remaining - 1) * 1000 < InMemoryCache.expiresAt e - now ≤ remaining * 1000) ∧
      (InMemoryCache.expiresAt e ≤ now ↔ remaining = -1) ∧
      (now ≤ InMemoryCache.expiresAt e ↔
       snd (InMemoryCache.get now key cache) = Some (InMemoryCache.value e)) ∧
      (InMemoryCache.expiresAt e < now ↔
       snd (InMemoryCache.get now key cache) = None)
  end.
Proof.
  rewrite InMemoryCache_get_answer. unfold InMemoryCache.ttl.
  destruct (cache !! key) as [e|]; [|done]. cbv zeta.
  pose proof (ceil_seconds_bounds (InMemoryCache.expiresAt e - now)).
  split; [|split; [|split]].
  - intros Hlive. rewrite decide_True by lia. done.
  - case_decide; split; intros; lia.
  - case_decide; split; intros; (done || lia).
  - case_decide; split; intros; (done || lia).
Qed.

(** ** RateLimiter *)

Lemma count_sum (times : list Z) z :
  foldl (λ sum entry, sum + RateLimiter.count entry) z
        (RateLimiter.mkEntry 1 <$> times)
  = z + Z.of_nat (length times).
Proof.
  revert z. induction times as [|a times IH]; intros z; simpl; [lia|].
  rewrite IH. lia.
Qed.

Lemma filter_entries cut now W (times : list Z) :
  cut ≤ now →
  filter (λ entry, RateLimiter.windowStart entry > now - W)
         (RateLimiter.mkEntry 1 <$> filter (λ a, cut - W < a) times)
  = RateLimiter.mkEntry 1 <$> filter (λ a, now - W < a) times.
Proof.
  intros Hcut. induction times as [|a times IH]; [done|].
  destruct (decide (now - W < a)) as [Hlive|Hold].
  - rewrite (filter_cons_True (λ a, now - W < a)) by done.
    rewrite (filter_cons_True (λ a, cut - W < a)) by lia.
    rewrite fmap_cons, filter_cons_True by (simpl; lia).
    by rewrite IH.
  - rewrite (filter_cons_False (λ a, now - W < a)) by done.
    destruct (decide (cut - W < a)).
    + rewrite (filter_cons_True (λ a, cut - W < a)) by done.
      rewrite fmap_cons, filter_cons_False by (simpl; lia). done.
    + by rewrite (filter_cons_False (λ a, cut - W < a)) by done.
Qed.

Lemma filter_entries_twice now now' W (entries : list RateLimiter.RateLimitEntry) :
  now ≤ now' →
  filter (λ e, RateLimiter.windowStart e > now' - W)
         (filter (λ e, RateLimiter.windowStart e > now - W) entries)
  = filter (λ e, RateLimiter.windowStart e > now' - W) entries.
Proof.
  intros Hclock. induction entries as [|e entries IH]; [done|].
  destruct (decide (RateLimiter.windowStart e > now' - W)).
  - rewrite (filter_cons_True (λ e, RateLimiter.windowStart e > now - W)) by lia.
    rewrite !filter_cons_True by done. by rewrite IH.
  - rewrite (filter_cons_False (λ e, RateLimiter.windowStart e > now' - W)) by done.
    destruct (decide (RateLimiter.windowStart e > now - W)).
    + rewrite (filter_cons_True (λ e, RateLimiter.windowStart e > now - W)) by done.
      by rewrite filter_cons_False.
    + by rewrite (filter_cons_False (λ e, RateLimiter.windowStart e > now - W)).
Qed.

Lemma filter_length_impl {A} (P Q : A → Prop)
  `{!∀ x, Decision (P x)} `{!∀ x, Decision (Q x)} (l : list A) :
  (∀ x, x ∈ l → P x → Q x) →
  (length (filter P l) ≤ length (filter Q l))%nat.
Proof.
  induction l as [|x l IH]; intros Himpl; [done|].
  assert (length (filter P l) ≤ length (filter Q l))%nat as Hle.
  { apply IH. intros y Hy. apply Himpl, elem_of_cons. by right. }
  destruct (decide (P x)) as [HP|HP].
  - assert (Q x) as HQ by (apply Himpl; [apply elem_of_cons; by left|done]).
    rewrite (filter_cons_True P), (filter_cons_True Q) by done. simpl. lia.
  - rewrite (filter_cons_False P) by done.
    destruct (decide (Q x)).
    + rewrite filter_cons_True by done. simpl. lia.
    + by rewrite filter_cons_False.
Qed.

Lemma filter_length_drops {A} (P : A → Prop) `{!∀ x, Decision (P x)}
  (l : list A) x :
  x ∈ l → ¬ P x → (length (filter P l) < length l)%nat.
Proof.
  induction l as [|y l IH]; intros Hin Hnot; [by apply elem_of_nil in Hin|].
  pose proof (length_filter P l) as Hle.
  apply elem_of_cons in Hin as [<-|Hin].
  - rewrite filter_cons_False by done. simpl. lia.
  - specialize (IH Hin Hnot). destruct (decide (P y)).
    + rewrite filter_cons_True by done. simpl. lia.
    + rewrite filter_cons_False by done. simpl. lia.
Qed.

Lemma granted_to_snoc key log t k :
  granted_to key (log ++ [(t, k)])
  = granted_to key log ++ (if decide (k = key) then [t] else []).
Proof.
  unfold granted_to. rewrite omap_app. simpl. by case_decide.
Qed.

Lemma fairly_granted_snoc W M granted a :
  fairly_granted W M granted →
  Z.of_nat (length (filter (λ t, a - W < t) granted)) < M →
  fairly_granted W M (granted ++ [a]).
Proof.
  intros Hfair Ha before b after Hsplit.
  destruct after as [|c after _] using rev_ind.
  - apply app_inj_tail in Hsplit as [-> ->]. done.
  - rewrite app_comm_cons, app_assoc in Hsplit.
    apply app_inj_tail in Hsplit as [-> _]. by eapply Hfair.
Qed.

Lemma fairly_granted_window W M granted t :
  fairly_granted W M granted →
  Z.of_nat (length (filter (λ a, t - W < a ∧ a ≤ t) granted)) ≤ Z.max 0 M.
Proof.
  induction granted as [|a granted IH] using rev_ind; intros Hfair.
  - simpl. lia.
  - assert (fairly_granted W M granted) as Hfair'.
    { intros before b after ->. apply (Hfair before b (after ++ [a])).
      by rewrite <- app_assoc. }
    specialize (IH Hfair'). rewrite filter_app, length_app.
    destruct (decide (t - W < a ∧ a ≤ t)) as [Hin|Hout].
    + rewrite (filter_cons_True _ a []) by done. simpl.
      pose proof (Hfair granted a [] eq_refl) as Ha.
      pose proof (filter_length_impl (λ x, t - W < x ∧ x ≤ t)
                    (λ x, a - W < x) granted) as Hle.
      assert (∀ x, x ∈ granted → t - W < x ∧ x ≤ t → a - W < x) as Himpl
        by (intros x _ ?; lia).
      specialize (Hle Himpl). lia.
    + rewrite (filter_cons_False _ a []) by done. simpl. lia.
Qed.

(** What [check] computes, in terms of the entries of the key that are
    still in the window. *)
Lemma check_unfold now key l :
  let live := filter (λ e, RateLimiter.windowStart e > now - RateLimiter.windowMs l)
                     (default [] (RateLimiter.windows l !! key)) in
  let used := foldl (λ sum e, sum + RateLimiter.count e) 0 live in
  RateLimiter.check now key l
  = if bool_decide (used < RateLimiter.maxRequests l)
    then (RateLimiter.set_windows
            (<[key := live ++ [RateLimiter.mkEntry 1 now]]> (RateLimiter.windows l)) l,
          RateLimiter.mkResult true
            (Z.max 0 (RateLimiter.maxRequests l - used))
            (match head (live ++ [RateLimiter.mkEntry 1 now]) with
             | Some oldest => RateLimiter.windowStart oldest + RateLimiter.windowMs l
             | None => now + RateLimiter.windowMs l
             end))
    else (l,
          RateLimiter.mkResult false
            (Z.max 0 (RateLimiter.maxRequests l - used))
            (match head live with
             | Some oldest => RateLimiter.windowStart oldest + RateLimiter.windowMs l
             | None => now + RateLimiter.windowMs l
             end)).
Proof. cbv zeta. unfold RateLimiter.check. by case_bool_decide. Qed.

Lemma cleanup_lookup now l key :
  default [] (RateLimiter.windows (RateLimiter.cleanup now l) !! key)
  = filter (λ e, RateLimiter.windowStart e > now - RateLimiter.windowMs l)
           (default [] (RateLimiter.windows l !! key)).
Proof.
  unfold RateLimiter.cleanup. simpl.
  set (keep := λ entries : list RateLimiter.RateLimitEntry,
         filter (λ e, RateLimiter.windowStart e > now - RateLimiter.windowMs l)
                entries).
  assert (∀ (c0 m : gmap string (list RateLimiter.RateLimitEntry)) (key : string),
    map_fold (λ key entries ws,
                if decide (length (keep entries) = 0%nat)
                then delete key ws else <[key := keep entries]> ws) c0 m !! key
    = match m !! key with
      | Some entries =>
          if decide (length (keep entries) = 0%nat) then None
          else Some (keep entries)
      | None => c0 !! key
      end) as Hfold.
  { intros c0 m. apply (map_fold_weak_ind (λ r m, ∀ key, r !! key
      = match m !! key with
        | Some entries =>
            if decide (length (keep entries) = 0%nat) then None
            else Some (keep entries)
        | None => c0 !! key
        end)).
    - intros k. by rewrite lookup_empty.
    - intros i x m' r Hi IH k. destruct (decide (k = i)) as [->|Hne].
      + rewrite lookup_insert_eq. case_decide.
        * by rewrite lookup_delete_eq.
        * by rewrite lookup_insert_eq.
      + rewrite lookup_insert_ne by done. rewrite <- IH.
        case_decide; [by rewrite lookup_delete_ne|by rewrite lookup_insert_ne]. }
  rewrite Hfold. destruct (RateLimiter.windows l !! key) as [entries|]; [|done].
  case_decide as Hempty; [|done]. simpl.
  apply nil_length_inv in Hempty. by rewrite <- Hempty.
Qed.

Lemma limiter_inv_later W M clock clock' l log :
  clock ≤ clock' → limiter_inv W M clock l log → limiter_inv W M clock' l log.
Proof.
  intros Hle (HW & HM & Htimes & Hentries & Hfair).
  split; [done|]. split; [done|]. split; [|split; [|done]].
  - intros key a Ha. specialize (Htimes key a Ha). lia.
  - intros key. destruct (Hentries key) as (cut & Hcut & Heq).
    exists cut. split; [lia|done].
Qed.

Lemma limiter_inv_create W M clock :
  limiter_inv W M clock (RateLimiter.create W M) [].
Proof.
  split; [done|]. split; [done|]. split; [|split].
  - intros key a Ha. by apply elem_of_nil in Ha.
  - intros key. exists clock. split; [lia|]. simpl. by rewrite lookup_empty.
  - intros key before a after Hsplit. by destruct before.
Qed.

Lemma filter_ext_in {A} (P Q : A → Prop)
  `{!∀ x, Decision (P x)} `{!∀ x, Decision (Q x)} (l : list A) :
  (∀ x, x ∈ l → P x ↔ Q x) → filter P l = filter Q l.
Proof.
  induction l as [|x l IH]; intros Hiff; [done|].
  assert (filter P l = filter Q l) as Heq.
  { apply IH. intros y Hy. apply Hiff, elem_of_cons. by right. }
  assert (P x ↔ Q x) as Hx by (apply Hiff, elem_of_cons; by left).
  destruct (decide (P x)).
  - rewrite (filter_cons_True P), (filter_cons_True Q) by tauto. by rewrite Heq.
  - rewrite (filter_cons_False P), (filter_cons_False Q) by tauto. done.
Qed.

(** In a state of a run, the requests counted against a key are those the
    log let through in the window. *)
Lemma limiter_inv_used W M now l log key :
  limiter_inv W M now l log →
  let live := filter (λ e, RateLimiter.windowStart e > now - RateLimiter.windowMs l)
                     (default [] (RateLimiter.windows l !! key)) in
  live = RateLimiter.mkEntry 1 <$> filter (λ a, now - W < a) (granted_to key log) ∧
  foldl (λ sum e, sum + RateLimiter.count e) 0 live
  = granted_in_window W key now log.
Proof.
  intros (HW & HM & Htimes & Hentries & Hfair). cbv zeta.
  destruct (Hentries key) as (cut & Hcut & ->). rewrite HW.
  rewrite filter_entries by done. split; [done|].
  rewrite count_sum. unfold granted_in_window. rewrite Z.add_0_l.
  f_equal. f_equal. apply filter_ext_in. intros a Ha. specialize (Htimes key a Ha). lia.
Qed.

Lemma limiter_step_check l log now key :
  limiter_step (l, log) (now, Check key)
  = ((RateLimiter.check now key l).1,
     if RateLimiter.allowed (RateLimiter.check now key l).2
     then log ++ [(now, key)] else log).
Proof.
  unfold limiter_step. cbn [fst snd]. by destruct (RateLimiter.check now key l).
Qed.

Lemma limiter_step_inv W M now l log s :
  0 < W →
  limiter_inv W M now l log →
  limiter_inv W M now (limiter_step (l, log) (now, s)).1
                      (limiter_step (l, log) (now, s)).2.
Proof.
  intros HWpos Hinv. destruct s as [key|].
  - destruct (limiter_inv_used W M now l log key Hinv) as [Hlive Hused].
    cbv zeta in Hlive, Hused.
    destruct Hinv as (HW & HM & Htimes & Hentries & Hfair).
    rewrite limiter_step_check, check_unfold. cbv zeta.
    case_bool_decide as Hallowed; cbn [fst snd RateLimiter.allowed].
    2:{ by repeat split. }
    rewrite Hlive, count_sum, HM in Hallowed.
    split; [done|]. split; [done|]. split; [|split].
    + intros key' a. rewrite granted_to_snoc.
      intros [Ha|Ha]%elem_of_app; [by eapply Htimes|].
      case_decide; [|by apply elem_of_nil in Ha].
      apply list_elem_of_singleton in Ha as ->. lia.
    + intros key'. rewrite granted_to_snoc.
      destruct (decide (key = key')) as [<-|Hne].
      * exists now. split; [lia|]. simpl. rewrite lookup_insert_eq. simpl.
        rewrite Hlive, filter_app, fmap_app.
        rewrite (filter_cons_True _ now []) by lia. done.
      * simpl. rewrite lookup_insert_ne, app_nil_r by done. apply Hentries.
    + intros key'. rewrite granted_to_snoc.
      destruct (decide (key = key')) as [<-|Hne].
      * apply fairly_granted_snoc; [apply Hfair|lia].
      * rewrite app_nil_r. apply Hfair.
  - destruct Hinv as (HW & HM & Htimes & Hentries & Hfair).
    unfold limiter_step. cbn [fst snd].
    split; [done|]. split; [done|]. split; [done|]. split; [|done].
    intros key. destruct (Hentries key) as (cut & Hcut & Heq).
    exists now. split; [lia|].
    rewrite cleanup_lookup, Heq, HW. by apply filter_entries.
Qed.

Lemma limiter_run_snoc steps s l :
  limiter_run (steps ++ [s]) l = limiter_step (limiter_run steps l) s.
Proof. unfold limiter_run. by rewrite foldl_app. Qed.

(** Every state of a run with a clock that does not go back keeps the
    invariant, at every instant from the last step on. *)
Lemma limiter_run_inv W M steps clock :
  0 < W → clock_monotone steps → Forall (λ s, s.1 ≤ clock) steps →
  limiter_inv W M clock (limiter_run steps (RateLimiter.create W M)).1
                        (limiter_run steps (RateLimiter.create W M)).2.
Proof.
  intros HWpos. revert clock.
  induction steps as [|[now s] steps IH] using rev_ind; intros clock Hmono Hclock.
  - apply limiter_inv_create.
  - unfold clock_monotone in Hmono. rewrite fmap_app in Hmono.
    apply StronglySorted_app in Hmono as (Hbefore & Hsteps & _).
    apply Forall_app in Hclock as [_ Hnow]. rewrite Forall_singleton in Hnow.
    simpl in Hnow.
    assert (limiter_inv W M now
              (limiter_run steps (RateLimiter.create W M)).1
              (limiter_run steps (RateLimiter.create W M)).2) as Hinv.
    { apply IH; [done|]. apply Forall_forall. intros s' Hs'.
      apply (Hbefore s'.1 now).
      - apply list_elem_of_fmap. eauto.
      - simpl. by apply list_elem_of_singleton. }
    rewrite limiter_run_snoc.
    destruct (limiter_run steps (RateLimiter.create W M)) as [l log].
    apply (limiter_inv_later W M now); [done|].
    by apply limiter_step_inv.
Qed.

(** X26.  What [check] decides in a run.  With a window of positive length
    and a clock that does not go back, a request is let through exactly when
    fewer than [maxRequests] requests of its key were let through in the
    window [(now - windowMs, now]]; [remaining] is [maxRequests] less that
    number, not below zero, so it does not count the request being
    checked. *)
Theorem rate_limit_admission W M steps now key :
  0 < W →
  clock_monotone (steps ++ [(now, Check key)]) →
  let l := (limiter_run steps (RateLimiter.create W M)).1 in
  let log := (limiter_run steps (RateLimiter.create W M)).2 in
  let used := granted_in_window W key now log in
  let r := (RateLimiter.check now key l).2 in
  RateLimiter.allowed r = bool_decide (used < M) ∧
  RateLimiter.remaining r = Z.max 0 (M - used).
Proof.
  intros HWpos Hmono. cbv zeta.
  assert (limiter_inv W M now (limiter_run steps (RateLimiter.create W M)).1
                              (limiter_run steps (RateLimiter.create W M)).2)
    as Hinv.
  { unfold clock_monotone in Hmono. rewrite fmap_app in Hmono.
    apply StronglySorted_app in Hmono as (Hbefore & Hsteps & _).
    apply limiter_run_inv; [done|done|].
    apply Forall_forall. intros s Hs. apply (Hbefore s.1 now).
    - apply list_elem_of_fmap. eauto.
    - simpl. by apply list_elem_of_singleton. }
  destruct (limiter_inv_used W M now _ _ key Hinv) as [_ Hused].
  cbv zeta in Hused. destruct Hinv as (_ & HM & _).
  rewrite check_unfold. cbv zeta. rewrite Hused, HM.
  by case_bool_decide.
Qed.

(** X27.  The sliding window holds.  In a run with a window of positive
    length and a clock that does not go back, whatever the requests and
    the cleanups, no key is let through more than [maxRequests] times
    (never, when [maxRequests] is not positive) in any window
    [(t - windowMs, t]]. *)
Theorem sliding_window_guarantee W M steps key t :
  0 < W →
  clock_monotone steps →
  granted_in_window W key t (limiter_run steps (RateLimiter.create W M)).2
  ≤ Z.max 0 M.
Proof.
  intros HWpos Hmono.
  assert (∃ clock, Forall (λ s : Z * LimiterStep, s.1 ≤ clock) steps)
    as [clock Hclock].
  { clear. induction steps as [|s steps [c Hc]]; [by exists 0|].
    exists (Z.max c s.1). constructor; [lia|].
    eapply Forall_impl; [exact Hc|]. simpl. lia. }
  destruct (limiter_run_inv W M steps clock HWpos Hmono Hclock)
    as (_ & _ & _ & _ & Hfair).
  unfold granted_in_window. by apply fairly_granted_window.
Qed.

Lemma ceil_seconds_ge x : x ≤ ceil_seconds x * 1000.
Proof.
  unfold ceil_seconds.
  pose proof (Z.div_mod (- x) 1000). pose proof (Z.mod_pos_bound (- x) 1000). lia.
Qed.

Lemma ceil_seconds_pos x : 0 < x → 0 < ceil_seconds x.
Proof. intros Hx. pose proof (ceil_seconds_ge x). lia. Qed.

(** A refused request: the reset time is the expiry of the oldest request
    in the window, and from then on the key has room again. *)
Lemma refused_then_room W M now l log key :
  0 < W → 0 < M →
  limiter_inv W M now l log →
  RateLimiter.allowed (RateLimiter.check now key l).2 = false →
  let r := (RateLimiter.check now key l).2 in
  (RateLimiter.check now key l).1 = l ∧
  RateLimiter.remaining r = 0 ∧
  now < RateLimiter.resetTime r ∧
  ∀ later, RateLimiter.resetTime r ≤ later →
           RateLimiter.allowed (RateLimiter.check later key l).2 = true.
Proof.
  intros HWpos HMpos Hinv. cbv zeta.
  destruct (limiter_inv_used W M now l log key Hinv) as [Hlive Hused].
  cbv zeta in Hlive, Hused.
  pose proof Hinv as (HW & HM & Htimes & _ & Hfair).
  rewrite check_unfold. cbv zeta. rewrite Hused, HM.
  case_bool_decide as Hroom; [done|]. intros _. cbn [fst snd].
  cbn [RateLimiter.remaining RateLimiter.resetTime].
  split; [done|]. split; [lia|].
  rewrite Hlive.
  pose proof (fairly_granted_window W M (granted_to key log) now (Hfair key))
    as Hbound.
  fold (granted_in_window W key now log) in Hbound.
  destruct (filter (λ a, now - W < a) (granted_to key log)) as [|a0 rest] eqn:Hfilter.
  { exfalso. rewrite <- Hused, Hlive in Hroom. simpl in Hroom. lia. }
  assert (a0 ∈ granted_to key log ∧ now - W < a0) as [Ha0 Hlive0].
  { assert (a0 ∈ filter (λ a, now - W < a) (granted_to key log)) as Hin
      by (rewrite Hfilter; apply elem_of_cons; by left).
    apply list_elem_of_filter in Hin. tauto. }
  split; [simpl; lia|]. intros later Hlater.
  assert (a0 + W ≤ later) as Hexpired by (simpl in Hlater; lia).
  clear Hlater.
  assert (limiter_inv W M later l log) as Hinv'
    by (apply (limiter_inv_later W M now); [lia|done]).
  destruct (limiter_inv_used W M later l log key Hinv') as [_ Hused'].
  cbv zeta in Hused'. rewrite check_unfold. cbv zeta. rewrite Hused', HM.
  rewrite bool_decide_true; [done|].
  unfold granted_in_window in *.
  set (G := granted_to key log) in *.
  assert (filter (λ a, later - W < a ∧ a ≤ later) G
          = filter (λ a, later - W < a) (filter (λ a, now - W < a ∧ a ≤ now) G))
    as ->.
  { rewrite list_filter_filter. apply filter_ext_in. intros a Ha.
    specialize (Htimes key a Ha). lia. }
  assert (a0 ∈ filter (λ a, now - W < a ∧ a ≤ now) G) as Hin.
  { apply list_elem_of_filter. specialize (Htimes key a0 Ha0). auto with lia. }
  pose proof (filter_length_drops (λ a, later - W < a) _ a0 Hin) as Hdrop.
  assert (¬ later - W < a0) as Hgone by lia.
  specialize (Hdrop Hgone). lia.
Qed.

Lemma rateLimit_unfold now now' ip l :
  RateLimiter.rateLimit now now' ip l
  = let key := default "anonymous" (truthy ip) in
    let r := (RateLimiter.check now key l).2 in
    ((RateLimiter.check now key l).1,
     (RateLimiter.mkHeaders (RateLimiter.maxRequests l) (RateLimiter.remaining r)
                            (ceil_seconds (RateLimiter.resetTime r)),
      if RateLimiter.allowed r then RateLimiter.Next
      else RateLimiter.TooManyRequests
             (ceil_seconds (RateLimiter.resetTime r - now')))).
Proof.
  unfold RateLimiter.rateLimit. cbv zeta.
  destruct (RateLimiter.check _ _ l) as [l' r]. simpl.
  by destruct (RateLimiter.allowed r).
Qed.

(** X28.  The [retryAfter] of a 429 reply is enough.  In a run with a
    window of positive length, a positive [maxRequests] and a clock that
    does not go back, a refused request leaves the limiter as it was and
    is told that nothing remains; and on the limiter as the refusal left
    it, the same client is let through at any instant that is [retryAfter]
    seconds or more after the reply.  When the reply is made at the instant
    of the check, [retryAfter] is at least one second. *)
Theorem retry_after_is_enough W M steps now now' ip l' headers retryAfter :
  0 < W → 0 < M →
  let key := default "anonymous" (truthy ip) in
  let l := (limiter_run steps (RateLimiter.create W M)).1 in
  clock_monotone (steps ++ [(now, Check key)]) →
  now ≤ now' →
  RateLimiter.rateLimit now now' ip l
  = (l', (headers, RateLimiter.TooManyRequests retryAfter)) →
  l' = l ∧
  RateLimiter.X_RateLimit_Remaining headers = 0 ∧
  (now' = now → 1 ≤ retryAfter) ∧
  ∀ later later', now' + retryAfter * 1000 ≤ later →
    (RateLimiter.rateLimit later later' ip l').2.2 = RateLimiter.Next.
Proof.
  intros HWpos HMpos. cbv zeta. intros Hmono Hclock Hreply.
  set (key := default "anonymous" (truthy ip)) in *.
  assert (limiter_inv W M now (limiter_run steps (RateLimiter.create W M)).1
                              (limiter_run steps (RateLimiter.create W M)).2)
    as Hinv.
  { unfold clock_monotone in Hmono. rewrite fmap_app in Hmono.
    apply StronglySorted_app in Hmono as (Hbefore & Hsteps & _).
    apply limiter_run_inv; [done|done|].
    apply Forall_forall. intros s Hs. apply (Hbefore s.1 now).
    - apply list_elem_of_fmap. eauto.
    - simpl. by apply list_elem_of_singleton. }
  rewrite rateLimit_unfold in Hreply. cbv zeta in Hreply. fold key in Hreply.
  destruct (RateLimiter.allowed (RateLimiter.check now key _).2) eqn:Hallowed;
    [by simplify_eq|].
  destruct (refused_then_room W M now _ _ key HWpos HMpos Hinv Hallowed)
    as (Hsame & Hnone & Hreset & Hroom).
  cbv zeta in Hnone, Hreset, Hroom.
  set (l := (limiter_run steps (RateLimiter.create W M)).1) in *.
  remember (RateLimiter.check now key l) as c eqn:Hc. clear Hc.
  destruct c as [l0 r]. cbn [fst snd] in *.
  injection Hreply as <- <- <-. cbn [RateLimiter.X_RateLimit_Remaining].
  split; [done|]. split; [done|]. split.
  - intros ->. pose proof (ceil_seconds_pos (RateLimiter.resetTime r - now)).
    lia.
  - intros later later' Hlater. rewrite rateLimit_unfold. cbv zeta. fold key.
    rewrite Hsame. cbn [snd]. rewrite Hroom; [done|].
    pose proof (ceil_seconds_ge (RateLimiter.resetTime r - now')). lia.
Qed.

(** X29.  What [check] and [cleanup] leave alone.  [check] never changes
    the configuration nor the entries of another key, and a refused request
    changes nothing at all.  [cleanup] is not observable: as the clock does
    not go back, a later [check] answers the same with or without it. *)
Theorem rate_limit_frame now key l :
  let l' := (RateLimiter.check now key l).1 in
  let r := (RateLimiter.check now key l).2 in
  RateLimiter.windowMs l' = RateLimiter.windowMs l ∧
  RateLimiter.maxRequests l' = RateLimiter.maxRequests l ∧
  (RateLimiter.allowed r = false → l' = l) ∧
  (∀ key', key' ≠ key →
           RateLimiter.windows l' !! key' = RateLimiter.windows l !! key') ∧
  (∀ later key', now ≤ later →
     (RateLimiter.check later key' (RateLimiter.cleanup now l)).2
     = (RateLimiter.check later key' l).2).
Proof.
  cbv zeta. rewrite check_unfold. cbv zeta.
  split; [by case_bool_decide|]. split; [by case_bool_decide|].
  split; [by case_bool_decide|]. split.
  - intros key' Hne. case_bool_decide; [|done]. simpl.
    by rewrite lookup_insert_ne.
  - intros later key' Hclock. rewrite !check_unfold. cbv zeta.
    rewrite cleanup_lookup.
    change (RateLimiter.windowMs (RateLimiter.cleanup now l))
      with (RateLimiter.windowMs l).
    change (RateLimiter.maxRequests (RateLimiter.cleanup now l))
      with (RateLimiter.maxRequests l).
    rewrite filter_entries_twice by done.
    by case_bool_decide.
Qed.

(** ** The further properties at work *)

Lemma createBooking_creates_witness :
  ∃ row, snd (createBooking (env_at 1000 "B1") keyed_request (world_of []))
         = inr row ∧
         created_as (env_at 1000 "B1") keyed_request row.
Proof.
  destruct (createBooking_creates (env_at 1000 "B1") keyed_request (world_of []))
    as (row & t & Hresult & Hcreated & _).
  - vm_compute. reflexivity.
  - vm_compute. eauto.
  - vm_compute. reflexivity.
  - vm_compute. reflexivity.
  - apply not_elem_of_nil.
  - intros key _. apply not_elem_of_nil.
  - unfold storable, fits_varchar. simpl.
    split; [split; [lia|by repeat split]|].
    split; [split; [lia|by repeat split]|].
    split; [intros d [=]|].
    intros k [= <-]. simpl. split; [lia|by repeat split].
  - exists row. by split.
Defined.

Lemma createBooking_unknown_room_witness :
  ∃ cs, createBooking (env_at 1000 "B1") keyed_request world_empty
        = (add_calls (cs ++ [RoomFindById "R1"]) world_empty,
           inl (RoomNotFoundError "R1")).
Proof.
  destruct (createBooking_unknown_room (env_at 1000 "B1") keyed_request
              world_empty) as (_ & cs & _ & Hrun).
  - vm_compute. reflexivity.
  - intros [r Hr]. vm_compute in Hr. discriminate.
  - exists cs. exact Hrun.
Defined.

Lemma read_your_writes_witness :
  snd (getBooking (env_at 2000 "") "B1" world_B1) = inr booking_B1.
Proof.
  apply (read_your_writes (env_at 1000 "B1") (env_at 2000 "") keyed_request
           (world_of []) booking_B1).
  - split; simpl; [constructor|constructor| |]; intros db; intros;
      simplify_eq; by rewrite lookup_empty in *.
  - vm_compute. reflexivity.
  - vm_compute. reflexivity.
Defined.

Lemma world_B1_agrees : cache_agrees world_B1.
Proof.
  split.
  - rewrite world_B1_rows. simpl. apply NoDup_singleton.
  - rewrite world_B1_rows. simpl. apply NoDup_singleton.
  - apply (reachable_consistent _ world_B1_reachable).
  - rewrite world_B1_rows, world_B1_cache. intros db i e b [= <-] Hi Hv.
    unfold cache_B1 in Hi.
    apply lookup_insert_Some in Hi as [[Hkey <-]|[Hne Hi]].
    + apply booking_key_inj in Hkey as <-. simpl in Hv. injection Hv as <-.
      split; [by apply list_elem_of_singleton|reflexivity].
    + apply lookup_insert_Some in Hi as [[Hkey _]|[_ Hi]].
      * symmetry in Hkey. by apply booking_key_ne_idempotency_key in Hkey.
      * by rewrite lookup_empty in Hi.
Qed.

Lemma cache_is_transparent_witness :
  snd (getBooking (env_at 2000 "") "B1" world_B1)
  = snd (getBooking (env_at 2000 "") "B1" (without_cache world_B1)).
Proof.
  destruct (cache_is_transparent (env_at 2000 "") world_B1 world_B1_agrees)
    as (_ & Hget & _).
  apply (Hget "B1"%string).
Defined.

(** The two overlapping rows that interleaved requests leave are rows the
    service has written. *)
Lemma written_rows_ok_witness :
  Forall row_ok [booking_B1; new_row (env_at 1001 "B2") overlapping_request].
Proof.
  apply (written_rows_ok
           (fst (createBooking_commit (env_at 1001 "B2") overlapping_request
                   (perform (env_at 1000 "B1") (CreateBooking keyed_request)
                      (world_of []))))).
  apply (written_insert _ _ (world_of [])); [vm_compute; reflexivity|].
  apply written_perform, written_empty. reflexivity.
Defined.


Lemma cancelBooking_frees_the_interval_witness :
  filter (conflicts_with "R1" 5400000 9000000 None)
         (World.bookings (fst (cancelBooking (env_at 2000 "") "B1" None world_B1)))
  = filter (λ b, Booking.id b ≠ "B1"%string)
           (filter (conflicts_with "R1" 5400000 9000000 None)
                   (World.bookings world_B1)).
Proof.
  assert (cancelBooking (env_at 2000 "") "B1" None world_B1
          = (fst (cancelBooking (env_at 2000 "") "B1" None world_B1),
             inr (apply_patch 2000 (cancellation (env_at 2000 "")) booking_B1)))
    as Hcancelled by (vm_compute; reflexivity).
  destruct (cancelBooking_frees_the_interval _ _ _ _ _ _ Hcancelled
              "R1" 5400000 9000000) as [Hfreed _].
  exact Hfreed.
Defined.

Lemma checkIdempotency_trusts_the_cache_witness :
  checkIdempotency (env_at 2000 "B2") "key-1" world_B1
  = (add_calls [CacheGet "idempotency:key-1"; BookingFindById "B1"] world_B1,
     inr (stored "B1" world_B1)).
Proof.
  apply (checkIdempotency_trusts_the_cache (env_at 2000 "B2") "key-1" world_B1
           cache_B1
           {| CacheEntry.value := JString "B1";
              CacheEntry.expiresAt := 1000 + 86400 * 1000 |} "B1").
  - apply world_B1_cache.
  - vm_compute. reflexivity.
  - reflexivity.
  - discriminate.
  - vm_compute. reflexivity.
Defined.

Lemma getAvailability_splits_business_hours_witness :
  ∃ a, getAvailability 0 "R1" 0 world_B1 = Some a ∧
       ((∃ s, s ∈ RoomAvailability.availableSlots a ∧ in_slot 32400000 s) ∨
        (∃ s, s ∈ RoomAvailability.bookedSlots a ∧ in_slot 32400000 s)).
Proof.
  destruct (getAvailability 0 "R1" 0 world_B1) as [a|] eqn:Ha;
    [|vm_compute in Ha; discriminate].
  exists a. split; [reflexivity|].
  destruct (getAvailability_splits_business_hours 0 "R1" 0 world_B1 a Ha)
    as (Hcover & _).
  apply Hcover. vm_compute. split; [discriminate|reflexivity].
Defined.

Lemma calculateAvailableSlots_well_formed_witness :
  Forall (λ a, 8 ≤ TimeSlot.startTime a ∧ slot_nonempty a)
         (calculateAvailableSlots 8 18 [slot 10 14]) ∧
  StronglySorted slot_precedes (calculateAvailableSlots 8 18 [slot 10 14]).
Proof.
  apply (calculateAvailableSlots_well_formed 8 18 [slot 10 14]).
  - lia.
  - repeat constructor. simpl. lia.
Defined.

Lemma world_asked_cache : World.redis world_asked = Some cache_asked.
Proof. vm_compute. reflexivity. Qed.

(** The stale answer: with the bus down, room R1 is booked after its
    availability has been cached, and the cached answer, with no booked
    slot, is still served. *)
Lemma cached_availability_outlives_bookings_witness :
  RoomAvailability.bookedSlots availability_R1 = [] ∧
  snd (getRoomAvailability 0 (env_at 2000 "") "R1" 5
         (perform_all [(env_at 1500 "B1", CreateBooking keyed_request)] world_asked))
  = inr availability_R1.
Proof.
  split; [reflexivity|].
  apply (cached_availability_outlives_bookings 0 "R1" 0 cache_asked
           {| CacheEntry.value := JAvailability availability_R1;
              CacheEntry.expiresAt := 1000 + 300 * 1000 |}
           availability_R1
           [(env_at 1500 "B1", CreateBooking keyed_request)]
           (env_at 2000 "") 5 world_asked).
  - reflexivity.
  - reflexivity.
  - apply world_asked_cache.
  - vm_compute. reflexivity.
  - reflexivity.
  - vm_compute. reflexivity.
  - vm_compute. reflexivity.
Defined.

Lemma InMemoryCache_purge_is_unobservable_witness :
  snd (InMemoryCache.get 7 "a"
         (fst (InMemoryCache.get 5 "a" {["a"%string := InMemoryCache.mkEntry 1 3]})))
  = snd (InMemoryCache.get 7 "a" {["a"%string := InMemoryCache.mkEntry 1 3]}).
Proof.
  apply (InMemoryCache_purge_is_unobservable 5 7 "a" "a"
           {["a"%string := InMemoryCache.mkEntry 1 3]}).
  lia.
Defined.

Lemma two_requests_monotone key :
  clock_monotone (two_requests ++ [(20, Check key)]).
Proof.
  unfold clock_monotone, two_requests. simpl.
  repeat (constructor; [|repeat constructor; lia]). constructor.
Qed.

Lemma rate_limit_admission_witness :
  RateLimiter.allowed
    (RateLimiter.check 20 "anonymous"
       (limiter_run two_requests (RateLimiter.create 60000 2)).1).2 = false.
Proof.
  destruct (rate_limit_admission 60000 2 two_requests 20 "anonymous")
    as [Hallowed _].
  - lia.
  - apply two_requests_monotone.
  - rewrite Hallowed. vm_compute. reflexivity.
Defined.

Lemma sliding_window_guarantee_witness :
  granted_in_window 60000 "anonymous" 20
    (limiter_run (two_requests ++ [(20, Check "anonymous")])
                 (RateLimiter.create 60000 2)).2
  ≤ Z.max 0 2.
Proof.
  apply sliding_window_guarantee; [lia|apply two_requests_monotone].
Defined.

Lemma retry_after_is_enough_witness :
  (RateLimiter.rateLimit 60020 60020 None
     (RateLimiter.rateLimit 20 20 None
        (limiter_run two_requests (RateLimiter.create 60000 2)).1).1).2.2
  = RateLimiter.Next.
Proof.
  destruct (retry_after_is_enough 60000 2 two_requests 20 20 None
              (RateLimiter.rateLimit 20 20 None
                 (limiter_run two_requests (RateLimiter.create 60000 2)).1).1
              (RateLimiter.rateLimit 20 20 None
                 (limiter_run two_requests (RateLimiter.create 60000 2)).1).2.1
              60)
    as (_ & _ & _ & Hlater).
  - lia.
  - lia.
  - apply two_requests_monotone.
  - lia.
  - vm_compute. reflexivity.
  - apply Hlater. lia.
Defined.
